(** * crash_vm.asm: the two-pass assembler of the VM, embedded and verified

    The development follows [src/crash_vm/asm.py] top to bottom:
    the regular expressions of the line grammar, the literal and address
    parsers, the [Line] classes, the [parse] generator and [compile].

    Python values are modelled as follows.
    - [str] is [string]; a character is a code point below 256, so the
      texts of the model are the Python strings of such characters (the
      ASCII texts among them).  Among these characters the decimal digits
      of Unicode, which [\d] and [int()] accept, are [0] to [9].
    - [int] is [Z].  The interpreter is CPython with its default limit of
      4300 digits on the conversions between [int] and [str] in bases that
      are not powers of two: [int()] of a longer decimal text and the
      printing of a longer number raise [ValueError].
    - An exception is a value of [exn]; a call that may raise returns
      [result A].
    - [re.match] is a backtracking matcher over a regular-expression syntax
      tree, with Python's greedy, leftmost-first search order and its
      capturing groups.
    - The [dict] of labels is a [gmap string Z].

    The modules [crash_vm._types] and [crash_vm.cpu] are imported by the
    source: what it uses of them ([NativeNumber], [Address], [Instructions],
    [instruction_methods]) is the interface [Machine]. *)

From Stdlib Require Import ZArith Ascii String DecimalString Lia.
From stdpp Require Import gmap strings list.

Local Open Scope Z_scope.

(** ** Exceptions *)

Inductive exn : Type :=
| CompilationError (message : string)
| ValueError
| KeyError (key : string)
| TypeError
| RuntimeError.

Inductive result (A : Type) : Type :=
| Ok (a : A)
| Raise (e : exn).

Arguments Ok {A} a.
Arguments Raise {A} e.

Global Instance result_ret : MRet result := fun A a => Ok a.

Global Instance result_bind : MBind result := fun A B f m =>
  match m with
  | Ok a => f a
  | Raise e => Raise e
  end.

(** ** Characters and the Python string methods the source calls *)

Definition char_between (lo hi c : ascii) : bool :=
  ((N_of_ascii lo <=? N_of_ascii c) && (N_of_ascii c <=? N_of_ascii hi))%N.

Definition newline : ascii := "010"%char.
Definition tab : ascii := "009"%char.

(** [\d]: the decimal digits below code point 256, which are [0] to [9]. *)
Definition is_digit (c : ascii) : bool := char_between "0" "9" c.
(** [[0-9a-fA-F]] *)
Definition is_hex_digit (c : ascii) : bool :=
  char_between "0" "9" c || char_between "a" "f" c || char_between "A" "F" c.
(** [[\-\+]] *)
Definition is_sign (c : ascii) : bool :=
  Ascii.eqb c "-" || Ascii.eqb c "+".
(** [[a-zA-Z_]] *)
Definition is_identifier_first (c : ascii) : bool :=
  char_between "a" "z" c || char_between "A" "Z" c || Ascii.eqb c "_".
(** [[a-zA-Z_0-9]] *)
Definition is_identifier_char (c : ascii) : bool :=
  char_between "a" "z" c || char_between "A" "Z" c || Ascii.eqb c "_"
  || char_between "0" "9" c.
(** [[ \t]] *)
Definition is_spacer (c : ascii) : bool :=
  Ascii.eqb c " " || Ascii.eqb c tab.

(** The characters [str.strip()] treats as white space, among the code
    points below 256. *)
Definition is_py_space (c : ascii) : bool :=
  char_between "009" "013" c || char_between "028" "032" c
  || Ascii.eqb c "133" || Ascii.eqb c "160".

(** [s.split(sep)] for a one-character separator. *)
Fixpoint split_on (sep : ascii) (s : string) : list string :=
  match s with
  | EmptyString => [EmptyString]
  | String c s' =>
      if Ascii.eqb c sep then EmptyString :: split_on sep s'
      else match split_on sep s' with
           | [] => [String c EmptyString]
           | w :: ws => String c w :: ws
           end
  end.

Fixpoint lstrip (s : string) : string :=
  match s with
  | EmptyString => EmptyString
  | String c s' => if is_py_space c then lstrip s' else s
  end.

Fixpoint rstrip (s : string) : string :=
  match s with
  | EmptyString => EmptyString
  | String c s' =>
      match rstrip s' with
      | EmptyString => if is_py_space c then EmptyString else String c EmptyString
      | r => String c r
      end
  end.

(** [s.strip()] *)
Definition strip (s : string) : string := rstrip (lstrip s).

(** The decimal text of [n]: what [str(n)] is when the number is printed.
    The messages print with it the values the machine types hold, the
    numbers of the lines and the numbers of arguments. *)
Definition str_of_Z (n : Z) : string := NilZero.string_of_int (Z.to_int n).

Definition str_of_nat (n : nat) : string := str_of_Z (Z.of_nat n).

(** The limit on the number of digits: [sys.int_info.default_max_str_digits]. *)
Definition max_str_digits : Z := 4300.

(** The least number that has more digits than the limit:
    [10 ** max_str_digits]. *)
Definition str_limit : Z := Eval vm_compute in 10 ^ 4300.

(** [f'{value}'] for an [int] of any size, as the messages of the values
    out of range print it: a number of more than 4300 digits is not
    printed, the conversion raises [ValueError]. *)
Definition format_int (value : Z) : result string :=
  if str_limit <=? Z.abs value then Raise ValueError else Ok (str_of_Z value).

(** *** [int(s)] and [int(s, 16)]

    Python skips white space, reads an optional sign, for base 16 an
    optional [0x] or [0X] prefix, then digits of the base in which single
    underscores may separate digits (one may follow the prefix), then
    white space to the end.  Anything else raises [ValueError], and so
    does, in base 10, a text of more than 4300 digits. *)

(** The white space of [int()]: the ASCII characters [\t\n\v\f\r] and
    the space, and U+0085 and U+00A0, which [int()] turns into spaces
    before it reads the text.  U+001C to U+001F, which [str.strip()]
    removes, are no white space here. *)
Definition is_int_space (c : ascii) : bool :=
  char_between "009" "013" c || Ascii.eqb c " "
  || Ascii.eqb c "133" || Ascii.eqb c "160".

Fixpoint int_lstrip (s : string) : string :=
  match s with
  | EmptyString => EmptyString
  | String c s' => if is_int_space c then int_lstrip s' else s
  end.

Fixpoint int_rstrip (s : string) : string :=
  match s with
  | EmptyString => EmptyString
  | String c s' =>
      match int_rstrip s' with
      | EmptyString => if is_int_space c then EmptyString else String c EmptyString
      | r => String c r
      end
  end.

(** The number of digits of a text of digits and underscores. *)
Fixpoint count_digits (s : string) : Z :=
  match s with
  | EmptyString => 0
  | String c s' => (if Ascii.eqb c "_" then 0 else 1) + count_digits s'
  end.

(** The limit on the digits holds in the bases that are not powers of
    two. *)
Definition limited_base (base : Z) : bool :=
  negb (Z.land base (base - 1) =? 0).

Definition digit_value (c : ascii) : option Z :=
  if char_between "0" "9" c then Some (Z.of_N (N_of_ascii c) - 48)
  else if char_between "a" "z" c then Some (Z.of_N (N_of_ascii c) - 97 + 10)
  else if char_between "A" "Z" c then Some (Z.of_N (N_of_ascii c) - 65 + 10)
  else None.

(** The digit loop: [prev_digit] tells whether the previous character was a
    digit (an underscore is legal only then, and not at the end). *)
Fixpoint int_digits (base : Z) (s : string) (prev_digit : bool) (acc : Z) : option Z :=
  match s with
  | EmptyString => if prev_digit then Some acc else None
  | String c s' =>
      if Ascii.eqb c "_" then
        if prev_digit then int_digits base s' false acc else None
      else
        match digit_value c with
        | Some d => if d <? base then int_digits base s' true (acc * base + d) else None
        | None => None
        end
  end.

(** What follows the prefix [0x] or [0X] of base 16, and one underscore
    after it; the string itself when there is no prefix. *)
Definition int_prefix (base : Z) (s : string) : string :=
  match s with
  | String c (String x s') =>
      if Ascii.eqb c "0" && (base =? 16) && (Ascii.eqb x "x" || Ascii.eqb x "X")
      then
        match s' with
        | String u s'' => if Ascii.eqb u "_" then s'' else s'
        | EmptyString => s'
        end
      else s
  | _ => s
  end.

Definition int_unsigned (base : Z) (s : string) : option Z :=
  let body := int_prefix base s in
  match int_digits base body false 0 with
  | Some n =>
      if limited_base base && (max_str_digits <? count_digits body)
      then None
      else Some n
  | None => None
  end.

Definition py_int (s : string) (base : Z) : result Z :=
  let r :=
    match int_rstrip (int_lstrip s) with
    | String c s' =>
        if Ascii.eqb c "-" then option_map Z.opp (int_unsigned base s')
        else if Ascii.eqb c "+" then int_unsigned base s'
        else int_unsigned base (String c s')
    | EmptyString => None
    end in
  match r with
  | Some n => Ok n
  | None => Raise ValueError
  end.

(** ** Regular expressions and [re.match] *)

Inductive regex : Type :=
| Empty                       (* the empty pattern *)
| Char (c : ascii)            (* a literal character *)
| Class (p : ascii -> bool)   (* a bracket class or [\d] *)
| Dot                         (* [.]: any character but a newline *)
| Cat (r1 r2 : regex)         (* r1 r2 *)
| Alt (r1 r2 : regex)         (* r1|r2, r1 tried first *)
| Star (r : regex)            (* r*, greedy *)
| Group (i : nat) (r : regex) (* the i-th capturing group, from 1 *)
| Bol                         (* [^] *)
| Eol.                        (* [$] *)

(** [r+] and the greedy [r?] *)
Definition Plus (r : regex) : regex := Cat r (Star r).
Definition Opt (r : regex) : regex := Alt r Empty.

(** A literal word. *)
Fixpoint Lit (s : string) : regex :=
  match s with
  | EmptyString => Empty
  | String c s' => Cat (Char c) (Lit s')
  end.

(** [p1|p2|...|pn], as ['|'.join] builds it; the empty join is the empty
    pattern. *)
Fixpoint Alts (rs : list regex) : regex :=
  match rs with
  | [] => Empty
  | [r] => r
  | r :: rs' => Alt r (Alts rs')
  end.

(** The first [n] characters of [s]. *)
Fixpoint take_string (n : nat) (s : string) : string :=
  match n, s with
  | S n', String c s' => String c (take_string n' s')
  | _, _ => EmptyString
  end.

Definition captures := list (option string).
Definition cont := string -> captures -> option captures.

(** [r*] given the matcher [m] of [r]: one more iteration is tried before
    leaving the loop, and an iteration that consumes nothing is not
    repeated.  [fuel] bounds the number of iterations by the length of the
    remaining subject. *)
Fixpoint star_loop (m : string -> captures -> cont -> option captures)
    (fuel : nat) (rest : string) (caps : captures) (k : cont) : option captures :=
  match fuel with
  | O => k rest caps
  | S fuel' =>
      match m rest caps (fun rest' caps' =>
              if (String.length rest' <? String.length rest)%nat
              then star_loop m fuel' rest' caps' k
              else None) with
      | Some c => Some c
      | None => k rest caps
      end
  end.

(** The backtracking search: [rmatch subject r rest caps k] matches [r] at
    the suffix [rest] of [subject] and hands what remains to [k]; when [k]
    fails the next alternative is tried. *)
Fixpoint rmatch (subject : string) (r : regex) (rest : string) (caps : captures)
    (k : cont) {struct r} : option captures :=
  match r with
  | Empty => k rest caps
  | Char c =>
      match rest with
      | String c' rest' => if Ascii.eqb c' c then k rest' caps else None
      | EmptyString => None
      end
  | Class p =>
      match rest with
      | String c' rest' => if p c' then k rest' caps else None
      | EmptyString => None
      end
  | Dot =>
      match rest with
      | String c' rest' => if Ascii.eqb c' newline then None else k rest' caps
      | EmptyString => None
      end
  | Cat r1 r2 =>
      rmatch subject r1 rest caps (fun rest' caps' => rmatch subject r2 rest' caps' k)
  | Alt r1 r2 =>
      match rmatch subject r1 rest caps k with
      | Some c => Some c
      | None => rmatch subject r2 rest caps k
      end
  | Star r' =>
      star_loop (rmatch subject r') (String.length rest) rest caps k
  | Group i r' =>
      rmatch subject r' rest caps (fun rest' caps' =>
        k rest' (<[pred i := Some (take_string (String.length rest - String.length rest') rest)]> caps'))
  | Bol =>
      if (String.length rest =? String.length subject)%nat then k rest caps else None
  | Eol =>
      match rest with
      | EmptyString => k rest caps
      | String c EmptyString => if Ascii.eqb c newline then k rest caps else None
      | _ => None
      end
  end.

(** The number of capturing groups of a pattern. *)
Fixpoint ngroups (r : regex) : nat :=
  match r with
  | Cat r1 r2 | Alt r1 r2 => Nat.max (ngroups r1) (ngroups r2)
  | Star r' => ngroups r'
  | Group i r' => Nat.max i (ngroups r')
  | _ => O
  end.

(** [re.match(r, s)]: [None], or [Some] of the match's [groups()]. *)
Definition re_match (r : regex) (s : string) : option captures :=
  rmatch s r s (replicate (ngroups r) None) (fun _ caps => Some caps).

(** The truth value of [re.match(r, s)]. *)
Definition matches (r : regex) (s : string) : bool :=
  match re_match r s with
  | Some _ => true
  | None => false
  end.

(** ** The patterns of the grammar *)

Definition HEX_NUMBER_PATTERN : regex :=
  Cat (Opt (Class is_sign)) (Cat (Lit "0x") (Plus (Class is_hex_digit))).
Definition DEC_NUMBER_PATTERN : regex :=
  Cat (Opt (Class is_sign)) (Plus (Class is_digit)).
Definition NUMBER_PATTERN : regex := Alt DEC_NUMBER_PATTERN HEX_NUMBER_PATTERN.
Definition ADDRESS_LITERAL_PATTERN : regex := NUMBER_PATTERN.
Definition IDENTIFIER_FIRST_CHARACTER_PATTERN : regex := Class is_identifier_first.
Definition IDENTIFIER_CHARACTER_PATTERN : regex := Class is_identifier_char.
Definition SPACER_CHARACTER_PATTERN : regex := Class is_spacer.
Definition LABEL_PATTERN : regex :=
  Cat IDENTIFIER_FIRST_CHARACTER_PATTERN
      (Cat (Star IDENTIFIER_CHARACTER_PATTERN) (Char ":")).
Definition ADDRESS_PATTERN : regex := Alt ADDRESS_LITERAL_PATTERN LABEL_PATTERN.
Definition INDENTATION_PATTERN : regex := Cat Bol (Star SPACER_CHARACTER_PATTERN).
Definition LINE_END_PATTERN : regex :=
  Cat (Star SPACER_CHARACTER_PATTERN)
      (Cat (Opt (Cat (Char "#") (Star Dot))) Eol).

(** ** The words of the output *)

Inductive Word : Type :=
| WInstruction (name : string)   (* a member of [Instructions] *)
| WNativeNumber (value : Z)      (* a [NativeNumber], by its [.value] *)
| WAddress (value : Z)           (* an [Address], by its [.value] *)
| WLabel (label : string).       (* a [Label], not resolved yet *)

(** ** The lines *)

Inductive Line : Type :=
| EmptyLine (address : Z)
| OffsetLine (address : Z) (offset : Z)
| LabelLine (address : Z) (label : string)
| ValueLine (address : Z) (value : Z)
| InstructionLine (address : Z) (instruction : string) (args : list Word).

Inductive LineClass : Type :=
| CEmptyLine | COffsetLine | CLabelLine | CValueLine | CInstructionLine.

Global Instance LineClass_eq_dec : EqDecision LineClass.
Proof. solve_decision. Defined.

(** What [parse] is called on: a [str], or the lines already split. *)
Inductive Source : Type :=
| Text (s : string)
| Lines (ls : list string).

(** [lines.split('\n')] when [lines] is a [str]. *)
Definition source_lines (lines : Source) : list string :=
  match lines with
  | Text s => split_on newline s
  | Lines ls => ls
  end.

Definition line_address_of (l : Line) : Z :=
  match l with
  | EmptyLine a | OffsetLine a _ | LabelLine a _ | ValueLine a _
  | InstructionLine a _ _ => a
  end.

Definition class_of (l : Line) : LineClass :=
  match l with
  | EmptyLine _ => CEmptyLine
  | OffsetLine _ _ => COffsetLine
  | LabelLine _ _ => CLabelLine
  | ValueLine _ _ => CValueLine
  | InstructionLine _ _ _ => CInstructionLine
  end.

(** What the source imports from [crash_vm._types] and [crash_vm.cpu].
    - [NativeNumber_value v] is [NativeNumber(v).value] and [Address_value v]
      is [Address(v).value]: what the two types store when they are built
      from the integer [v].
    - [Instructions] lists the names of the members of the enumeration, in
      the order of their definition.  A name stands for itself in the
      pattern of the instruction names: it has no operator of the regular
      expressions in it.
    - [instruction_methods name] is the number of arguments the dictionary
      gives for the member [name] ([None]: the member is not a key). *)
Class Machine : Type := {
  NativeNumber_value : Z -> Z;
  Address_value : Z -> Z;
  Instructions : list string;
  instruction_methods : string -> option nat
}.

Section Assembler.

Context {M : Machine}.

Definition INSTRUCTION_NAME_PATTERN : regex := Alts (Lit <$> Instructions).

Definition int_to_native_number (value : Z) : result Z :=
  let native_number := NativeNumber_value value in
  if negb (value =? native_number)
  then printed ← format_int value;
       Raise (CompilationError ("Value " +:+ printed +:+ " is out of range"))
  else Ok native_number.

Definition parse_number (number_str : string) : result Z :=
  if matches HEX_NUMBER_PATTERN number_str then
    v ← py_int number_str 16; int_to_native_number v
  else if matches NUMBER_PATTERN number_str then
    v ← py_int number_str 10; int_to_native_number v
  else Raise (CompilationError ("Invalid number value " +:+ number_str)).

Definition int_to_address (value : Z) : result Z :=
  let address := Address_value value in
  if negb (value =? address)
  then printed ← format_int value;
       Raise (CompilationError ("Value " +:+ printed +:+ " is out of range"))
  else Ok address.

(** [Label(string_value)] *)
Definition Label (string_value : string) : result string :=
  if matches (Cat Bol (Cat LABEL_PATTERN Eol)) string_value
  then Ok string_value
  else Raise (CompilationError "Invalid label").

Definition parse_address_literal (address_str : string) : result Z :=
  if matches HEX_NUMBER_PATTERN address_str then
    v ← py_int address_str 16; int_to_address v
  else if matches NUMBER_PATTERN address_str then
    v ← py_int address_str 10; int_to_address v
  else Raise (CompilationError ("Invalid address value " +:+ address_str)).

Definition parse_address (address_str : string) (labels : option (gmap string Z))
    : result Word :=
  match parse_address_literal address_str with
  | Ok a => Ok (WAddress a)
  | Raise (CompilationError _) =>
      if matches LABEL_PATTERN address_str then
        match labels with
        | None => l ← Label address_str; Ok (WLabel l)
        | Some labels =>
            match labels !! address_str with
            | Some a => Ok (WAddress a)
            | None => Raise (CompilationError ("Invalid label " +:+ address_str))
            end
        end
      else Raise (CompilationError ("Invalid address value " +:+ address_str))
  | Raise e => Raise e
  end.

(** *** The classes *)

Definition Pattern (cls : LineClass) : regex :=
  match cls with
  | CEmptyLine => Cat INDENTATION_PATTERN LINE_END_PATTERN
  | COffsetLine =>
      Cat INDENTATION_PATTERN
        (Cat (Lit "Offset")
          (Cat (Plus SPACER_CHARACTER_PATTERN)
            (Cat (Group 1 ADDRESS_LITERAL_PATTERN) LINE_END_PATTERN)))
  | CLabelLine =>
      Cat INDENTATION_PATTERN (Cat (Group 1 LABEL_PATTERN) LINE_END_PATTERN)
  | CValueLine =>
      Cat INDENTATION_PATTERN (Cat (Group 1 NUMBER_PATTERN) LINE_END_PATTERN)
  | CInstructionLine =>
      Cat INDENTATION_PATTERN
        (Cat (Group 1 INSTRUCTION_NAME_PATTERN)
          (Cat (Group 2 (Star (Cat (Plus (Char " ")) ADDRESS_PATTERN)))
            LINE_END_PATTERN))
  end.

Definition OffsetLine_init (address : Z) (offset_str : string) : result Line :=
  offset ← parse_address_literal offset_str;
  if offset <? address
  then Raise (CompilationError
         ("Inavalid offset " +:+ str_of_Z offset +:+ " at " +:+ str_of_Z address))
  else Ok (OffsetLine address offset).

Definition LabelLine_init (address : Z) (identifier : string) : result Line :=
  label ← Label identifier; Ok (LabelLine address label).

Definition ValueLine_init (address : Z) (value : string) : result Line :=
  v ← parse_number value; Ok (ValueLine address v).

Definition InstructionLine_init (address : Z) (instruction_name args_str : string)
    : result Line :=
  let args :=
    match args_str with
    | EmptyString => []
    | _ => split_on " " (strip args_str)
    end in
  if negb (bool_decide (instruction_name ∈ Instructions))
  then Raise (CompilationError ("Invalid instruction " +:+ instruction_name))
  else
    match instruction_methods instruction_name with
    | None => Raise (KeyError instruction_name)
    | Some arg_num =>
        if negb (arg_num =? length args)%nat
        then Raise (CompilationError
               ("Instruction " +:+ instruction_name +:+ " takes "
                +:+ str_of_nat arg_num +:+ " arguments, "
                +:+ str_of_nat (length args) +:+ " given"))
        else
          args' ← mapM (fun a => parse_address a None) args;
          Ok (InstructionLine address instruction_name args')
    end.

(** [cls(address, *groups)] *)
Definition new_line (cls : LineClass) (address : Z) (groups : captures) : result Line :=
  match cls, groups with
  | CEmptyLine, [] => Ok (EmptyLine address)
  | COffsetLine, [Some offset_str] => OffsetLine_init address offset_str
  | CLabelLine, [Some identifier] => LabelLine_init address identifier
  | CValueLine, [Some value] => ValueLine_init address value
  | CInstructionLine, [Some instruction_name; Some args_str] =>
      InstructionLine_init address instruction_name args_str
  | _, _ => Raise TypeError
  end.

Definition produced_bytes_padded_num (l : Line) : Z :=
  match l with
  | OffsetLine address offset => offset - address
  | ValueLine _ _ => 1
  | InstructionLine _ _ args => 1 + Z.of_nat (length args)
  | _ => 0
  end.

Definition produced_bytes (l : Line) : list Word :=
  match l with
  | ValueLine _ value => [WNativeNumber value]
  | InstructionLine _ instruction args => WInstruction instruction :: args
  | _ => []
  end.

Definition produce_bytes_padded (l : Line) : result (list Word) :=
  let produced := produced_bytes l in
  let produced_len := Z.of_nat (length produced) in
  let padded_num := produced_bytes_padded_num l in
  if padded_num <? produced_len
  then Raise RuntimeError
  else Ok (produced ++
           replicate (Z.to_nat (padded_num - produced_len))
                     (WNativeNumber (NativeNumber_value 0))).

(** *** [parse] *)

Definition classes : list LineClass :=
  [CEmptyLine; COffsetLine; CValueLine; CInstructionLine; CLabelLine].

(** [next(filter(lambda p: p[1], map(lambda c: (c, re.match(c.Pattern, line)), classes)))]:
    the first class whose pattern matches, with the match. *)
Fixpoint first_match (cs : list LineClass) (line : string) : option (LineClass * captures) :=
  match cs with
  | [] => None
  | c :: cs' =>
      match re_match (Pattern c) line with
      | Some groups => Some (c, groups)
      | None => first_match cs' line
      end
  end.

(** The body of the inner [try]: classification and construction. *)
Definition parse_line (line_address : Z) (line : string) : result Line :=
  match first_match classes line with
  | None => Raise (CompilationError "Invalid syntax")
  | Some (cls, groups) => new_line cls (Address_value line_address) groups
  end.

(** The handler of the outer [try]. *)
Definition annotate (line_number : nat) (e : exn) : exn :=
  match e with
  | CompilationError message =>
      CompilationError ("Line " +:+ str_of_nat line_number +:+ ": " +:+ message)
  | _ => e
  end.

(** The generator, run to its end: the lines it yields and the exception
    that ends it, if one does. *)
Fixpoint parse_loop (line_number : nat) (line_address : Z) (lines : list string)
    : list Line * option exn :=
  match lines with
  | [] => ([], None)
  | line :: lines' =>
      match parse_line line_address line with
      | Ok l =>
          let '(ls, e) :=
            parse_loop (S line_number)
              (line_address + produced_bytes_padded_num l) lines' in
          (l :: ls, e)
      | Raise e => ([], Some (annotate line_number e))
      end
  end.

Definition parse (lines : Source) : list Line * option exn :=
  parse_loop 1 0 (source_lines lines).

(** [list(g)] for a generator [g]. *)
Definition list_of {A : Type} (g : list A * option exn) : result (list A) :=
  match g with
  | (xs, None) => Ok xs
  | (_, Some e) => Raise e
  end.

(** *** [compile] *)

(** The dictionary comprehension of the first pass: a later label line
    replaces the binding of an earlier one with the same label. *)
Definition label_table (parsed : list Line) : gmap string Z :=
  foldl (fun labels l =>
           match l with
           | LabelLine address label => <[label := address]> labels
           | _ => labels
           end) ∅ parsed.

Definition resolve (labels : gmap string Z) (byte : Word) : result Word :=
  match byte with
  | WLabel l =>
      match labels !! l with
      | Some a => Ok (WAddress a)
      | None => Raise (KeyError l)
      end
  | _ => Ok byte
  end.

Definition second_pass (labels : gmap string Z) (parsed : list Line)
    : result (list Word) :=
  compiled ← mapM (fun l => bytes ← produce_bytes_padded l;
                            mapM (resolve labels) bytes) parsed;
  Ok (concat compiled).

Definition compile (lines : Source) : result (list Word) :=
  parsed ← list_of (parse lines);
  second_pass (label_table parsed) parsed.

End Assembler.

(** ** Source texts and an example machine *)

(** [sep.join(ls)] *)
Fixpoint join (sep : string) (ls : list string) : string :=
  match ls with
  | [] => ""
  | [l] => l
  | l :: ls' => l +:+ sep +:+ join sep ls'
  end.

(** The text whose lines are [ls]: ['\n'.join(ls)]. *)
Definition unlines (ls : list string) : string := join (String newline "") ls.

(** An 8-bit machine, to run the assembler on: [ctypes.c_int8(v).value]
    for numbers, [ctypes.c_uint8(v).value] for addresses, and a catalog of
    two instructions. *)
Definition c_int8_value (v : Z) : Z := (v + 128) mod 256 - 128.
Definition c_uint8_value (v : Z) : Z := v mod 256.

Definition example_machine : Machine := {|
  NativeNumber_value := c_int8_value;
  Address_value := c_uint8_value;
  Instructions := ["ADD"; "JMP"];
  instruction_methods := fun name =>
    if String.eqb name "ADD" then Some 2%nat
    else if String.eqb name "JMP" then Some 1%nat
    else None
|}.

(** ** Literals, as the specification describes them

    A literal is an optional sign, then either decimal digits or [0x] and
    hexadecimal digits.  Its text and its value are defined from this
    structure, independently of the parsers above. *)

Inductive Sign : Type := NoSign | PlusSign | MinusSign.

Inductive Base : Type := Decimal | Hexadecimal.

(** A digit: its value and, for the letters of a hexadecimal digit, whether
    it is written in upper case. *)
Record Digit : Type := { digit : nat; upper : bool }.

Record Literal : Type := {
  lit_sign : Sign;
  lit_base : Base;
  lit_digits : list Digit
}.

Definition radix (b : Base) : Z :=
  match b with
  | Decimal => 10
  | Hexadecimal => 16
  end.

Definition digit_char (d : Digit) : ascii :=
  if (digit d <? 10)%nat then ascii_of_nat (48 + digit d)
  else if upper d then ascii_of_nat (55 + digit d)
  else ascii_of_nat (87 + digit d).

Fixpoint digits_text (ds : list Digit) : string :=
  match ds with
  | [] => EmptyString
  | d :: ds' => String (digit_char d) (digits_text ds')
  end.

Definition with_prefix (b : Base) (s : string) : string :=
  match b with
  | Decimal => s
  | Hexadecimal => String "0" (String "x" s)
  end.

Definition with_sign (sg : Sign) (s : string) : string :=
  match sg with
  | NoSign => s
  | PlusSign => String "+" s
  | MinusSign => String "-" s
  end.

Definition literal_text (l : Literal) : string :=
  with_sign (lit_sign l) (with_prefix (lit_base l) (digits_text (lit_digits l))).

Fixpoint digits_value (r : Z) (acc : Z) (ds : list Digit) : Z :=
  match ds with
  | [] => acc
  | d :: ds' => digits_value r (acc * r + Z.of_nat (digit d)) ds'
  end.

Definition literal_value (l : Literal) : Z :=
  let n := digits_value (radix (lit_base l)) 0 (lit_digits l) in
  match lit_sign l with
  | MinusSign => - n
  | _ => n
  end.

(** At least one digit, and every digit is a digit of the base. *)
Definition valid_literal (l : Literal) : bool :=
  match lit_digits l with
  | [] => false
  | ds => forallb (fun d => Z.of_nat (digit d) <? radix (lit_base l)) ds
  end.

(** ** Notions the statements use *)

(** A name of the form of a Python identifier in the characters the
    grammar knows: the members of an enumeration are named so. *)
Definition is_identifier (s : string) : bool :=
  match s with
  | EmptyString => false
  | String c s' =>
      is_identifier_first c
      && forallb is_identifier_char (list_ascii_of_string s')
  end.

(** The subject is exhausted, up to one final newline: where [$] matches. *)
Definition at_end (rest : string) : bool :=
  match rest with
  | EmptyString => true
  | String c EmptyString => Ascii.eqb c newline
  | _ => false
  end.

(** The decimal literal of 4300 zeros and a 7. *)
Definition zeros_and_seven : Literal :=
  {| lit_sign := NoSign; lit_base := Decimal;
     lit_digits := replicate 4300 {| digit := 0; upper := false |}
                   ++ [{| digit := 7; upper := false |}] |}.

(** The literal has more digits than [int()] reads in its base. *)
Definition too_many_digits (l : Literal) : bool :=
  match lit_base l with
  | Decimal => max_str_digits <? Z.of_nat (length (lit_digits l))
  | Hexadecimal => false
  end.

(** The literal is within the limit on the digits: a decimal literal has at
    most 4300 digits, and the value of a hexadecimal one, which [int()]
    reads at any length, is a number that can be printed. *)
Definition within_limits (l : Literal) : bool :=
  match lit_base l with
  | Decimal => Z.of_nat (length (lit_digits l)) <=? max_str_digits
  | Hexadecimal => Z.abs (literal_value l) <? str_limit
  end.


(** The running address counter of [parse] after the lines [ls]. *)
Definition padded_sum (ls : list Line) : Z :=
  foldr (fun l s => produced_bytes_padded_num l + s) 0 ls.

Definition is_LabelLine (l : Line) : bool :=
  match l with
  | LabelLine _ _ => true
  | _ => false
  end.

Definition is_Label (w : Word) : bool :=
  match w with
  | WLabel _ => true
  | _ => false
  end.

(** The line has an argument that is a label. *)
Definition references_label (l : Line) : bool :=
  match l with
  | InstructionLine _ _ args => existsb is_Label args
  | _ => false
  end.

(** The words of a line with its padding, when nothing is to be resolved. *)
Definition padded_words {M : Machine} (l : Line) : list Word :=
  produced_bytes l ++
  replicate (Z.to_nat (produced_bytes_padded_num l - Z.of_nat (length (produced_bytes l))))
            (WNativeNumber (NativeNumber_value 0)).

(** What makes [produce_bytes_padded] succeed: the line does not produce
    more words than its padded word count. *)
Definition fits (l : Line) : Prop :=
  Z.of_nat (length (produced_bytes l)) <= produced_bytes_padded_num l.

(** Every digit of [ds] is a digit of the base [r]. *)
Definition digits_below (r : Z) (ds : list Digit) : Prop :=
  Forall (fun d => Z.of_nat (digit d) < r) ds.

(** ** Auxiliary notions of the proofs about instruction names *)

(** [s] without its prefix [p], when [p] is a prefix of [s]. *)
Fixpoint drop_prefix (p s : string) : option string :=
  match p with
  | EmptyString => Some s
  | String c p' =>
      match s with
      | String c' s' => if Ascii.eqb c' c then drop_prefix p' s' else None
      | EmptyString => None
      end
  end.

(** The ways to cut [s] after a non-empty prefix of identifier characters:
    the prefix and what follows it. *)
Fixpoint identifier_splits (s : string) : list (string * string) :=
  match s with
  | EmptyString => []
  | String c s' =>
      if is_identifier_char c
      then (String c EmptyString, s')
           :: (prod_map (String c) id <$> identifier_splits s')
      else []
  end.

(** ** Well-formed lines *)

(** The anchored pattern of [Label]: an identifier and a colon. *)
Definition is_label_text (s : string) : bool :=
  matches (Cat Bol (Cat LABEL_PATTERN Eol)) s.

(** An argument as [parse_address] returns it: an address that [Address]
    stores exactly, or a label of the form of a label. *)
Definition well_formed_argument {M : Machine} (w : Word) : Prop :=
  match w with
  | WAddress a => Address_value a = a
  | WLabel l => is_label_text l = true
  | _ => False
  end.

(** A line as the constructors of the classes leave it. *)
Definition well_formed_line {M : Machine} (l : Line) : Prop :=
  match l with
  | EmptyLine _ => True
  | OffsetLine address offset => Address_value offset = offset /\ address <= offset
  | LabelLine _ label => is_label_text label = true
  | ValueLine _ value => NativeNumber_value value = value
  | InstructionLine _ instruction args =>
      instruction ∈ Instructions /\
      instruction_methods instruction = Some (length args) /\
      Forall well_formed_argument args
  end.

(** ** What a pattern consumes

    [consumes r s s'] : the pattern [r] matches a prefix of [s] and leaves
    [s'].  The matcher finds only such matches. *)

Inductive consumes : regex -> string -> string -> Prop :=
| consumes_Empty s : consumes Empty s s
| consumes_Char c s : consumes (Char c) (String c s) s
| consumes_Class p c s : p c = true -> consumes (Class p) (String c s) s
| consumes_Dot c s : c <> newline -> consumes Dot (String c s) s
| consumes_Cat r1 r2 s s' s'' :
    consumes r1 s s' -> consumes r2 s' s'' -> consumes (Cat r1 r2) s s''
| consumes_Alt_l r1 r2 s s' : consumes r1 s s' -> consumes (Alt r1 r2) s s'
| consumes_Alt_r r1 r2 s s' : consumes r2 s s' -> consumes (Alt r1 r2) s s'
| consumes_Star_stop r s : consumes (Star r) s s
| consumes_Star_step r s s' s'' :
    consumes r s s' -> consumes (Star r) s' s'' -> consumes (Star r) s s''
| consumes_Group i r s s' : consumes r s s' -> consumes (Group i r) s s'
| consumes_Bol s : consumes Bol s s
| consumes_Eol s : at_end s = true -> consumes Eol s s.

(** The pattern has no capturing group. *)
Fixpoint group_free (r : regex) : bool :=
  match r with
  | Cat r1 r2 | Alt r1 r2 => group_free r1 && group_free r2
  | Star r' => group_free r'
  | Group _ _ => false
  | _ => true
  end.


(** Every character of [s] satisfies [p]. *)
Definition all_chars (p : ascii -> bool) (s : string) : bool :=
  forallb p (list_ascii_of_string s).

(** A text of ASCII characters. *)
Definition is_ascii (c : ascii) : bool := (N_of_ascii c <? 128)%N.
Definition ascii_text (s : string) : bool := all_chars is_ascii s.

(** The digit a character writes. *)
Definition digit_of_char (c : ascii) : Digit :=
  if char_between "0" "9" c
  then {| digit := nat_of_ascii c - 48; upper := false |}
  else if char_between "a" "f" c
  then {| digit := nat_of_ascii c - 87; upper := false |}
  else {| digit := nat_of_ascii c - 55; upper := true |}.

(** The text of a label: an identifier and a colon. *)
Definition label_text (name : string) : string := name +:+ ":".

(** A token of the arguments of an instruction: the text of a literal, or
    an identifier and a colon. *)
Definition is_token (t : string) : Prop :=
  (exists l, valid_literal l = true /\ t = literal_text l) \/
  (exists c w, t = String c (w +:+ ":") /\ is_identifier_first c = true /\
     all_chars is_identifier_char w = true).

(** The text of the arguments of an instruction: before each token, one
    space or more. *)
Inductive args_text : string -> Prop :=
| args_text_nil : args_text ""
| args_text_cons c sp tok rest :
    all_chars (fun x => Ascii.eqb x " ") (String c sp) = true ->
    is_token tok -> args_text rest ->
    args_text (String c sp +:+ tok +:+ rest).

(** The exceptions a text of [size] characters makes the parser raise: a
    compilation error, the [KeyError] of an instruction that
    [instruction_methods] lacks, or, when the text is long enough to hold a
    number beyond the limit on the digits, the [ValueError] of the
    conversions between [int] and [str]. *)
Definition parser_exception {M : Machine} (size : nat) (e : exn) : Prop :=
  match e with
  | CompilationError _ => True
  | KeyError name => name ∈ Instructions /\ instruction_methods name = None
  | ValueError => 3572 <= Z.of_nat size
  | _ => False
  end.

(** The end of a line: spaces and tabs, then nothing or a [#] and a comment
    without a newline, up to the end of the text or its final newline. *)
Definition line_end (tail : string) : Prop :=
  exists sp comment last,
    tail = sp +:+ comment +:+ last /\
    all_chars is_spacer sp = true /\
    (comment = "" \/
     exists c, comment = String "#" c /\
       all_chars (fun x => negb (Ascii.eqb x newline)) c = true) /\
    at_end last = true.

(** The argument [parse_address] makes of a token: the address a literal
    writes, or the token itself as a label. *)
Definition argument_of_token (t : string) (w : Word) : Prop :=
  (exists lit, valid_literal lit = true /\ t = literal_text lit /\
     w = WAddress (literal_value lit)) \/
  (exists c s, t = String c (s +:+ ":") /\ is_identifier_first c = true /\
     all_chars is_identifier_char s = true /\ w = WLabel t).

(** The tokens [InstructionLine] cuts the text of the arguments into. *)
Definition argument_tokens (args_str : string) : list string :=
  match args_str with
  | EmptyString => []
  | String _ _ => split_on " " (strip args_str)
  end.

(** The text begins with a character that satisfies [p]. *)
Definition begins_with (p : ascii -> bool) (s : string) : bool :=
  match s with
  | String c _ => p c
  | EmptyString => false
  end.

(** The text without the spaces and tabs it begins with. *)
Fixpoint skip_spacers (s : string) : string :=
  match s with
  | String c s' => if is_spacer c then skip_spacers s' else s
  | EmptyString => EmptyString
  end.

(** A character of an identifier, or the colon after it. *)
Definition label_char (c : ascii) : bool :=
  is_identifier_char c || Ascii.eqb c ":".

(** An argument of an instruction as it is written: a literal, or an
    identifier, to which the colon is added. *)
Inductive Argument : Type :=
| ArgLiteral (l : Literal)
| ArgLabel (c : ascii) (w : string).

Definition argument_text (x : Argument) : string :=
  match x with
  | ArgLiteral l => literal_text l
  | ArgLabel c w => String c (w +:+ ":")
  end.

Definition valid_argument (x : Argument) : bool :=
  match x with
  | ArgLiteral l => valid_literal l
  | ArgLabel c w => is_identifier_first c && all_chars is_identifier_char w
  end.

(** The argument is within the limit on the digits. *)
Definition argument_within_limits (x : Argument) : bool :=
  match x with
  | ArgLiteral l => within_limits l
  | ArgLabel _ _ => true
  end.

(** The arguments, one space before each. *)
Fixpoint arguments_text (xs : list Argument) : string :=
  match xs with
  | [] => ""
  | x :: xs' => " " +:+ argument_text x +:+ arguments_text xs'
  end.

(** The word an argument stands for in the line. *)
Definition argument_word {M : Machine} (x : Argument) : result Word :=
  match x with
  | ArgLiteral l =>
      if decide (Address_value (literal_value l) = literal_value l)
      then Ok (WAddress (literal_value l))
      else Raise (CompilationError ("Invalid address value " +:+ literal_text l))
  | ArgLabel c w => Ok (WLabel (String c (w +:+ ":")))
  end.

(** * Properties *)

(** ** Running the parser step by step *)

Section Evaluation.

Context {M : Machine}.

Lemma int_to_native_number_Ok v :
  NativeNumber_value v = v -> int_to_native_number v = Ok v.
Proof. intros H. unfold int_to_native_number. rewrite H, Z.eqb_refl. reflexivity. Qed.

Lemma format_int_Ok v : Z.abs v < str_limit -> format_int v = Ok (str_of_Z v).
Proof.
  intros H. unfold format_int.
  destruct (Z.leb_spec str_limit (Z.abs v)); [lia | reflexivity].
Qed.

Lemma format_int_Raise v : str_limit <= Z.abs v -> format_int v = Raise ValueError.
Proof.
  intros H. unfold format_int.
  destruct (Z.leb_spec str_limit (Z.abs v)); [reflexivity | lia].
Qed.

Lemma int_to_native_number_Raise v :
  NativeNumber_value v <> v -> Z.abs v < str_limit ->
  int_to_native_number v =
  Raise (CompilationError ("Value " +:+ str_of_Z v +:+ " is out of range")).
Proof.
  intros H Hv. unfold int_to_native_number.
  destruct (Z.eqb_spec v (NativeNumber_value v)) as [E|E]; [congruence|].
  cbn [negb]. rewrite (format_int_Ok v Hv). reflexivity.
Qed.

Lemma int_to_native_number_ValueError v :
  NativeNumber_value v <> v -> str_limit <= Z.abs v ->
  int_to_native_number v = Raise ValueError.
Proof.
  intros H Hv. unfold int_to_native_number.
  destruct (Z.eqb_spec v (NativeNumber_value v)) as [E|E]; [congruence|].
  cbn [negb]. rewrite (format_int_Raise v Hv). reflexivity.
Qed.

Lemma int_to_address_Ok v :
  Address_value v = v -> int_to_address v = Ok v.
Proof. intros H. unfold int_to_address. rewrite H, Z.eqb_refl. reflexivity. Qed.

Lemma int_to_address_Raise v :
  Address_value v <> v -> Z.abs v < str_limit ->
  int_to_address v =
  Raise (CompilationError ("Value " +:+ str_of_Z v +:+ " is out of range")).
Proof.
  intros H Hv. unfold int_to_address.
  destruct (Z.eqb_spec v (Address_value v)) as [E|E]; [congruence|].
  cbn [negb]. rewrite (format_int_Ok v Hv). reflexivity.
Qed.

Lemma int_to_address_ValueError v :
  Address_value v <> v -> str_limit <= Z.abs v ->
  int_to_address v = Raise ValueError.
Proof.
  intros H Hv. unfold int_to_address.
  destruct (Z.eqb_spec v (Address_value v)) as [E|E]; [congruence|].
  cbn [negb]. rewrite (format_int_Raise v Hv). reflexivity.
Qed.

Lemma parse_loop_Ok n a line lines l :
  parse_line a line = Ok l ->
  parse_loop n a (line :: lines) =
  (l :: (parse_loop (S n) (a + produced_bytes_padded_num l) lines).1,
   (parse_loop (S n) (a + produced_bytes_padded_num l) lines).2).
Proof.
  intros H. cbn [parse_loop]. rewrite H.
  destruct (parse_loop _ _ _); reflexivity.
Qed.

Lemma parse_loop_Raise n a line lines e :
  parse_line a line = Raise e ->
  parse_loop n a (line :: lines) = ([], Some (annotate n e)).
Proof. intros H. cbn [parse_loop]. rewrite H. reflexivity. Qed.

End Evaluation.

(** ** The two scenarios of the offset directive *)

(** C6.  On a machine whose numbers include 0, 5 and 7 and whose addresses
    include 1 and 3, the text of the three lines [5], [Offset 3], [7]
    compiles to the four words 5, 0, 0, 7: the offset line, at address 1,
    pads with two zeros up to address 3. *)
Theorem compile_value_offset_value (M : Machine)
    (N0 : NativeNumber_value 0 = 0) (N5 : NativeNumber_value 5 = 5)
    (N7 : NativeNumber_value 7 = 7)
    (A0 : Address_value 0 = 0) (A1 : Address_value 1 = 1)
    (A3 : Address_value 3 = 3) :
  (parse (Text (unlines ["5"; "Offset 3"; "7"; ""]))).1 !! 0%nat = Some (ValueLine 0 5) /\
  (parse (Text (unlines ["5"; "Offset 3"; "7"; ""]))).1 !! 1%nat = Some (OffsetLine 1 3) /\
  (parse (Text (unlines ["5"; "Offset 3"; "7"; ""]))).1 !! 2%nat = Some (ValueLine 3 7) /\
  compile (Text (unlines ["5"; "Offset 3"; "7"; ""])) =
  Ok [WNativeNumber 5; WNativeNumber 0; WNativeNumber 0; WNativeNumber 7].
Proof.
  assert (L1 : parse_line 0 "5" = Ok (ValueLine 0 5)).
  { change (parse_line 0 "5")
      with (v ← int_to_native_number 5; Ok (ValueLine (Address_value 0) v)).
    rewrite (int_to_native_number_Ok 5 N5), A0. reflexivity. }
  assert (L2 : parse_line 1 "Offset 3" = Ok (OffsetLine 1 3)).
  { change (parse_line 1 "Offset 3")
      with (offset ← int_to_address 3;
            if offset <? Address_value 1
            then Raise (CompilationError
                   ("Inavalid offset " +:+ str_of_Z offset +:+ " at "
                    +:+ str_of_Z (Address_value 1)))
            else Ok (OffsetLine (Address_value 1) offset)).
    rewrite (int_to_address_Ok 3 A3), A1. reflexivity. }
  assert (L3 : parse_line 3 "7" = Ok (ValueLine 3 7)).
  { change (parse_line 3 "7")
      with (v ← int_to_native_number 7; Ok (ValueLine (Address_value 3) v)).
    rewrite (int_to_native_number_Ok 7 N7), A3. reflexivity. }
  assert (L4 : parse_line 4 "" = Ok (EmptyLine (Address_value 4))) by reflexivity.
  assert (P : parse (Text (unlines ["5"; "Offset 3"; "7"; ""])) =
              ([ValueLine 0 5; OffsetLine 1 3; ValueLine 3 7;
                EmptyLine (Address_value 4)], None)).
  { unfold parse, source_lines.
    change (split_on newline (unlines ["5"; "Offset 3"; "7"; ""]))
      with ["5"; "Offset 3"; "7"; ""].
    rewrite (parse_loop_Ok _ _ _ _ _ L1).
    change (0 + produced_bytes_padded_num (ValueLine 0 5)) with 1.
    rewrite (parse_loop_Ok _ _ _ _ _ L2).
    change (1 + produced_bytes_padded_num (OffsetLine 1 3)) with 3.
    rewrite (parse_loop_Ok _ _ _ _ _ L3).
    change (3 + produced_bytes_padded_num (ValueLine 3 7)) with 4.
    rewrite (parse_loop_Ok _ _ _ _ _ L4).
    reflexivity. }
  unfold compile. rewrite P. repeat split.
  cbn. unfold produce_bytes_padded. cbn. rewrite N0. reflexivity.
Qed.

Lemma compile_value_offset_value_witness :
  compile (M := example_machine) (Text (unlines ["5"; "Offset 3"; "7"; ""])) =
  Ok [WNativeNumber 5; WNativeNumber 0; WNativeNumber 0; WNativeNumber 7].
Proof.
  apply (compile_value_offset_value example_machine); reflexivity.
Defined.

(** C8.  An offset line whose offset is less than the address it stands at
    is refused with the message of the invalid offset, and one whose offset
    is at least that address is built.  So the text of the lines [5],
    [Offset 0] yields the value line and then fails, the failure being
    reported on line 2. *)
Theorem OffsetLine_rejects_backward_offset (M : Machine)
    (N5 : NativeNumber_value 5 = 5)
    (A0 : Address_value 0 = 0) (A1 : Address_value 1 = 1) :
  (forall address offset_str offset,
     parse_address_literal offset_str = Ok offset ->
     (offset < address ->
      OffsetLine_init address offset_str =
      Raise (CompilationError
        ("Inavalid offset " +:+ str_of_Z offset +:+ " at " +:+ str_of_Z address))) /\
     (address <= offset ->
      OffsetLine_init address offset_str = Ok (OffsetLine address offset))) /\
  parse (Text (unlines ["5"; "Offset 0"; ""])) =
  ([ValueLine 0 5], Some (CompilationError "Line 2: Inavalid offset 0 at 1")).
Proof.
  split.
  - intros address offset_str offset H. unfold OffsetLine_init. rewrite H.
    cbn [mbind result_bind]. split; intros Hlt.
    + apply Z.ltb_lt in Hlt. rewrite Hlt. reflexivity.
    + apply Z.ltb_ge in Hlt. rewrite Hlt. reflexivity.
  - assert (L1 : parse_line 0 "5" = Ok (ValueLine 0 5)).
    { change (parse_line 0 "5")
        with (v ← int_to_native_number 5; Ok (ValueLine (Address_value 0) v)).
      rewrite (int_to_native_number_Ok 5 N5), A0. reflexivity. }
    assert (L2 : parse_line 1 "Offset 0" =
                 Raise (CompilationError "Inavalid offset 0 at 1")).
    { change (parse_line 1 "Offset 0")
        with (offset ← int_to_address 0;
              if offset <? Address_value 1
              then Raise (CompilationError
                     ("Inavalid offset " +:+ str_of_Z offset +:+ " at "
                      +:+ str_of_Z (Address_value 1)))
              else Ok (OffsetLine (Address_value 1) offset)).
      rewrite (int_to_address_Ok 0 A0), A1. reflexivity. }
    unfold parse, source_lines.
    change (split_on newline (unlines ["5"; "Offset 0"; ""]))
      with ["5"; "Offset 0"; ""].
    rewrite (parse_loop_Ok _ _ _ _ _ L1).
    change (0 + produced_bytes_padded_num (ValueLine 0 5)) with 1.
    rewrite (parse_loop_Raise _ _ _ _ _ L2).
    reflexivity.
Qed.

Lemma OffsetLine_rejects_backward_offset_witness :
  OffsetLine_init (M := example_machine) 1 "0" =
    Raise (CompilationError "Inavalid offset 0 at 1") /\
  OffsetLine_init (M := example_machine) 1 "0x10" = Ok (OffsetLine 1 16) /\
  parse (M := example_machine) (Text (unlines ["5"; "Offset 0"; ""])) =
  ([ValueLine 0 5], Some (CompilationError "Line 2: Inavalid offset 0 at 1")).
Proof.
  destruct (OffsetLine_rejects_backward_offset example_machine
              eq_refl eq_refl eq_refl) as [H P].
  split; [|split].
  - apply (H 1 "0" 0); [reflexivity | lia].
  - apply (H 1 "0x10" 16); [reflexivity | lia].
  - exact P.
Defined.

(** ** Strings the number patterns match only in part *)

(** C10.  [0xg] and [123abc] begin with a number but are not numbers: the
    number pattern matches them (it is not anchored at the end), the
    anchored pattern does not, and both parsers then raise the [ValueError]
    of [int], not a compilation error. *)
Theorem number_parsers_raise_ValueError (M : Machine) :
  (matches NUMBER_PATTERN "0xg" = true /\
   matches (Cat NUMBER_PATTERN Eol) "0xg" = false /\
   parse_number "0xg" = Raise ValueError /\
   parse_address_literal "0xg" = Raise ValueError) /\
  (matches NUMBER_PATTERN "123abc" = true /\
   matches (Cat NUMBER_PATTERN Eol) "123abc" = false /\
   parse_number "123abc" = Raise ValueError /\
   parse_address_literal "123abc" = Raise ValueError).
Proof. repeat split; reflexivity. Qed.

(** ** The addresses of the lines *)

Section Addresses.

Context {M : Machine}.

Lemma new_line_address cls a groups l :
  new_line cls a groups = Ok l -> line_address_of l = a.
Proof.
  unfold new_line, OffsetLine_init, LabelLine_init, ValueLine_init,
    InstructionLine_init.
  intros H.
  repeat match type of H with
  | context [match ?x with _ => _ end] => destruct x eqn:?; try discriminate
  | context [mbind _ ?x] => destruct x eqn:?; cbn [mbind result_bind] in H;
                            try discriminate
  end; injection H as <-; reflexivity.
Qed.

Lemma parse_line_address a line l :
  parse_line a line = Ok l -> line_address_of l = Address_value a.
Proof.
  unfold parse_line. destruct (first_match classes line) as [[cls groups]|].
  - apply new_line_address.
  - discriminate.
Qed.

Lemma padded_sum_cons l ls :
  padded_sum (l :: ls) = produced_bytes_padded_num l + padded_sum ls.
Proof. reflexivity. Qed.

Lemma padded_sum_snoc ls l :
  padded_sum (ls ++ [l]) = padded_sum ls + produced_bytes_padded_num l.
Proof.
  induction ls as [|x ls IH]; cbn [app].
  - rewrite padded_sum_cons. cbn. lia.
  - rewrite !padded_sum_cons, IH. lia.
Qed.

Lemma parse_loop_addresses lines : forall n a ls e,
  parse_loop n a lines = (ls, e) ->
  forall i l, ls !! i = Some l ->
  line_address_of l = Address_value (a + padded_sum (take i ls)).
Proof.
  induction lines as [|line lines IH]; intros n a ls e H i l Hi.
  - injection H as <- <-. destruct i; discriminate.
  - cbn [parse_loop] in H. destruct (parse_line a line) as [l0|e0] eqn:E.
    + destruct (parse_loop (S n) (a + produced_bytes_padded_num l0) lines)
        as [ls' e'] eqn:E'.
      injection H as <- <-. destruct i as [|i].
      * injection Hi as <-. cbn [take]. change (padded_sum []) with 0.
        rewrite Z.add_0_r. apply (parse_line_address _ _ _ E).
      * cbn in Hi. rewrite (IH _ _ _ _ E' i l Hi). cbn [take].
        rewrite padded_sum_cons. f_equal. lia.
    + injection H as <- <-. destruct i; discriminate.
Qed.

End Addresses.

(** C4: what the code does.  [parse] stamps a line with
    [Address(line_address)] and makes no range check, as [int_to_address]
    does for the addresses it reads: the address of every line [parse]
    yields is what [Address] stores of the sum of the padded word counts
    of the lines before it.  Only when [Address] stores these sums exactly
    is the first address 0 and each further address the address of the
    line before plus that line's padded word count. *)
Theorem parse_addresses_follow_counter (M : Machine) (src : Source)
    (ls : list Line) (e : option exn) :
  parse src = (ls, e) ->
  (forall i l, ls !! i = Some l ->
     line_address_of l = Address_value (padded_sum (take i ls))) /\
  ((forall i, (i < length ls)%nat ->
      Address_value (padded_sum (take i ls)) = padded_sum (take i ls)) ->
   (forall l, ls !! 0%nat = Some l -> line_address_of l = 0) /\
   (forall i l l', ls !! i = Some l -> ls !! S i = Some l' ->
      line_address_of l' = line_address_of l + produced_bytes_padded_num l)).
Proof.
  intros H.
  assert (A : forall i l, ls !! i = Some l ->
            line_address_of l = Address_value (padded_sum (take i ls))).
  { intros i l Hi. unfold parse in H.
    rewrite (parse_loop_addresses _ _ _ _ _ H i l Hi). reflexivity. }
  split; [exact A|]. intros Hfit. split.
  - intros l Hl. rewrite (A _ _ Hl).
    rewrite Hfit by (apply lookup_lt_Some in Hl; exact Hl). reflexivity.
  - intros i l l' Hl Hl'. rewrite (A _ _ Hl), (A _ _ Hl').
    rewrite !Hfit by (eapply lookup_lt_Some; eassumption).
    rewrite (take_S_r _ _ _ Hl). apply padded_sum_snoc.
Qed.

Lemma parse_addresses_follow_counter_witness :
  line_address_of (ValueLine 3 7) =
  line_address_of (OffsetLine 1 3)
  + produced_bytes_padded_num (OffsetLine 1 3).
Proof.
  refine (proj2 (proj2 (parse_addresses_follow_counter example_machine
            (Text (unlines ["5"; "Offset 3"; "7"]))
            [ValueLine 0 5; OffsetLine 1 3; ValueLine 3 7] None eq_refl) _)
          1%nat (OffsetLine 1 3) (ValueLine 3 7) eq_refl eq_refl).
  intros [|[|[|i]]] Hi; [reflexivity .. | cbn in Hi; lia].
Defined.

(** C4 fails on the 8-bit machine: after an offset to 255 and one value the
    counter is 256, which an 8-bit address stores as 0, so the third line
    is stamped 0 and not 255 + 1, and no error is raised. *)
Lemma parse_address_wraps :
  parse (M := example_machine) (Text (unlines ["Offset 255"; "1"; "1"])) =
    ([OffsetLine 0 255; ValueLine 255 1; ValueLine 0 1], None) /\
  line_address_of (ValueLine 0 1) <>
  line_address_of (ValueLine 255 1)
  + produced_bytes_padded_num (ValueLine 255 1).
Proof. split; [reflexivity | discriminate]. Qed.

(** ** The matcher and its continuation *)




(** ** Classification *)

Section Classification.

Context {M : Machine}.

Lemma first_match_None cs line :
  first_match cs line = None <->
  Forall (fun c => re_match (Pattern c) line = None) cs.
Proof.
  induction cs as [|c cs IH]; cbn [first_match].
  - split; [constructor | reflexivity].
  - destruct (re_match (Pattern c) line) as [groups|] eqn:E.
    + split; [discriminate|]. intros H. inversion H; congruence.
    + rewrite IH. split; [constructor; assumption | intros H; inversion H; assumption].
Qed.

Lemma first_match_Some cs line c groups :
  first_match cs line = Some (c, groups) ->
  exists before after, cs = before ++ c :: after /\
    re_match (Pattern c) line = Some groups /\
    Forall (fun c' => re_match (Pattern c') line = None) before.
Proof.
  induction cs as [|c0 cs IH]; cbn [first_match]; [discriminate|].
  destruct (re_match (Pattern c0) line) as [groups0|] eqn:E.
  - intros [= <- <-]. exists [], cs. repeat split; [exact E | constructor].
  - intros H. destruct (IH H) as (before & after & -> & Hc & Hb).
    exists (c0 :: before), after. repeat split; [exact Hc | constructor; assumption].
Qed.

Lemma first_match_intro before c after line groups :
  re_match (Pattern c) line = Some groups ->
  Forall (fun c' => re_match (Pattern c') line = None) before ->
  first_match (before ++ c :: after) line = Some (c, groups).
Proof.
  intros Hc Hb. induction Hb as [|c0 before H0 Hb IH]; cbn [app first_match].
  - rewrite Hc. reflexivity.
  - rewrite H0. exact IH.
Qed.

Lemma parse_loop_length lines : forall n a ls,
  parse_loop n a lines = (ls, None) -> length ls = length lines.
Proof.
  induction lines as [|line lines IH]; intros n a ls H; cbn [parse_loop] in H.
  - injection H as <-. reflexivity.
  - destruct (parse_line a line) as [l|e]; [|discriminate].
    destruct (parse_loop (S n) (a + produced_bytes_padded_num l) lines)
      as [ls' e'] eqn:E.
    injection H as <- ->. cbn. f_equal. eapply IH, E.
Qed.

(** The generator on a text in two parts, the first without error. *)
Lemma parse_loop_app before : forall n a ls rest,
  parse_loop n a before = (ls, None) ->
  parse_loop n a (before ++ rest) =
  (ls ++ (parse_loop (n + length before) (a + padded_sum ls) rest).1,
   (parse_loop (n + length before) (a + padded_sum ls) rest).2).
Proof.
  induction before as [|line before IH]; intros n a ls rest H;
    cbn [parse_loop app] in *.
  - injection H as <-. cbn [length app]. change (padded_sum []) with 0.
    rewrite Nat.add_0_r, Z.add_0_r. destruct (parse_loop n a rest); reflexivity.
  - destruct (parse_line a line) as [l|e]; [|discriminate].
    destruct (parse_loop (S n) (a + produced_bytes_padded_num l) before)
      as [ls' e'] eqn:E.
    injection H as <- ->. rewrite (IH _ _ _ rest E). cbn [length app fst snd].
    rewrite padded_sum_cons, Z.add_assoc, Nat.add_succ_r. reflexivity.
Qed.

End Classification.

(** ** The second pass *)

Section SecondPass.

Context {M : Machine}.

Lemma new_line_fits cls a groups l : new_line cls a groups = Ok l -> fits l.
Proof.
  unfold new_line, OffsetLine_init, LabelLine_init, ValueLine_init,
    InstructionLine_init.
  intros H.
  repeat match type of H with
  | context [if ?x <? ?y then _ else _] => destruct (Z.ltb_spec x y); try discriminate
  | context [match ?x with _ => _ end] => destruct x eqn:?; try discriminate
  | context [mbind _ ?x] => destruct x eqn:?; cbn [mbind result_bind] in H;
                            try discriminate
  end; injection H as <-; unfold fits; cbn; lia.
Qed.

Lemma parse_line_fits a line l : parse_line a line = Ok l -> fits l.
Proof.
  unfold parse_line. destruct (first_match classes line) as [[cls groups]|].
  - apply new_line_fits.
  - discriminate.
Qed.

Lemma parse_loop_fits lines : forall n a ls e,
  parse_loop n a lines = (ls, e) -> Forall fits ls.
Proof.
  induction lines as [|line lines IH]; intros n a ls e H; cbn [parse_loop] in H.
  - injection H as <- <-. constructor.
  - destruct (parse_line a line) as [l|e0] eqn:E.
    + destruct (parse_loop (S n) (a + produced_bytes_padded_num l) lines)
        as [ls' e'] eqn:E'.
      injection H as <- <-. constructor.
      * eapply parse_line_fits, E.
      * eapply IH, E'.
    + injection H as <- <-. constructor.
Qed.

Lemma produce_bytes_padded_fits l :
  fits l -> produce_bytes_padded l = Ok (padded_words l).
Proof.
  unfold fits, produce_bytes_padded, padded_words. intros H.
  destruct (Z.ltb_spec (produced_bytes_padded_num l)
              (Z.of_nat (length (produced_bytes l)))); [lia | reflexivity].
Qed.

(** The labels among the words of a line are those of its arguments. *)
Lemma elem_of_padded_words name l :
  WLabel name ∈ padded_words l <-> WLabel name ∈ produced_bytes l.
Proof.
  unfold padded_words. rewrite elem_of_app. split; [|auto].
  intros [H|H]; [exact H|]. apply elem_of_replicate in H as [H _]. discriminate.
Qed.

(** [resolve] over the words of one line: either every label is bound and
    the words come out resolved, or the first unbound label is the key of a
    [KeyError]. *)
Lemma mapM_resolve labels ws :
  (exists ws', mapM (resolve labels) ws = Ok ws' /\
     forall name, WLabel name ∈ ws -> is_Some (labels !! name)) \/
  (exists name, mapM (resolve labels) ws = Raise (KeyError name) /\
     WLabel name ∈ ws /\ labels !! name = None).
Proof.
  induction ws as [|w ws IH].
  - left. exists []. split; [reflexivity|]. intros name H. inversion H.
  - change (mapM (resolve labels) (w :: ws))
      with (y ← resolve labels w; k ← mapM (resolve labels) ws; Ok (y :: k)).
    destruct w as [i|v|v|name0]; cbn [resolve mbind result_bind].
    1-3: destruct IH as [(ws' & -> & Hall)|(name & -> & Hin & Hnone)];
      [left; eexists; split; [reflexivity|];
       intros name Hin; apply elem_of_cons in Hin as [?|?]; [discriminate|auto]
      |right; exists name; repeat split; [right; assumption | assumption]].
    destruct (labels !! name0) as [a|] eqn:E; cbn [mbind result_bind].
    + destruct IH as [(ws' & -> & Hall)|(name & -> & Hin & Hnone)].
      * left. eexists; split; [reflexivity|]. intros name Hin.
        apply elem_of_cons in Hin as [[= ->]|?]; [rewrite E; eauto | auto].
      * right. exists name. repeat split; [right; assumption | assumption].
    + right. exists name0. repeat split; [left | exact E].
Qed.

Lemma mapM_resolve_no_label labels ws :
  (forall name, WLabel name ∉ ws) -> mapM (resolve labels) ws = Ok ws.
Proof.
  induction ws as [|w ws IH]; intros H; [reflexivity|].
  change (mapM (resolve labels) (w :: ws))
    with (y ← resolve labels w; k ← mapM (resolve labels) ws; Ok (y :: k)).
  rewrite IH by (intros name Hin; apply (H name); right; exact Hin).
  destruct w; try reflexivity. exfalso. eapply H. left.
Qed.

(** The second pass over lines that fit: it succeeds when every label among
    the arguments is bound, and raises [KeyError] for an unbound one
    otherwise; nothing else is raised. *)
Lemma second_pass_outcome labels parsed :
  Forall fits parsed ->
  (exists ws, second_pass labels parsed = Ok ws /\
     forall l name, l ∈ parsed -> WLabel name ∈ produced_bytes l ->
       is_Some (labels !! name)) \/
  (exists l name, second_pass labels parsed = Raise (KeyError name) /\
     l ∈ parsed /\ WLabel name ∈ produced_bytes l /\ labels !! name = None).
Proof.
  unfold second_pass. induction 1 as [|l parsed Hl Hfits IH].
  - left. eexists. split; [reflexivity|]. intros l name H. inversion H.
  - match goal with |- context [mapM ?f (l :: parsed)] =>
      change (mapM f (l :: parsed)) with (y ← f l; k ← mapM f parsed; Ok (y :: k))
    end.
    cbv beta. rewrite (produce_bytes_padded_fits l Hl). cbn [mbind result_bind].
    destruct (mapM_resolve labels (padded_words l))
      as [(ws' & -> & Hall)|(name & -> & Hin & Hnone)]; cbn [mbind result_bind].
    + destruct IH as [(ws & E & Hall')|(l' & name & E & Hin & Hw & Hnone)].
      * destruct (mapM _ parsed) as [wss|e]; cbn [mbind result_bind] in *;
          [|discriminate].
        left. eexists. split; [reflexivity|]. intros l0 name H0 Hw.
        apply elem_of_cons in H0 as [->|H0]; [|eauto].
        apply Hall, elem_of_padded_words, Hw.
      * destruct (mapM _ parsed) as [wss|e]; cbn [mbind result_bind] in *;
          [discriminate|].
        right. exists l', name. repeat split; [exact E | right; exact Hin | exact Hw | exact Hnone].
    + right. exists l, name.
      repeat split; [left | apply elem_of_padded_words, Hin | exact Hnone].
Qed.

Lemma second_pass_no_label labels parsed :
  Forall fits parsed ->
  Forall (fun l => references_label l = false) parsed ->
  second_pass labels parsed = Ok (concat (padded_words <$> parsed)).
Proof.
  unfold second_pass. intros Hfits. induction Hfits as [|l parsed Hl Hfits IH];
    intros Hno; [reflexivity|].
  inversion Hno as [|? ? Hl0 Hno']; subst.
  match goal with |- context [mapM ?f (l :: parsed)] =>
    change (mapM f (l :: parsed)) with (y ← f l; k ← mapM f parsed; Ok (y :: k))
  end.
  cbv beta. rewrite (produce_bytes_padded_fits l Hl). cbn [mbind result_bind].
  rewrite mapM_resolve_no_label.
  - cbn [mbind result_bind]. specialize (IH Hno').
    destruct (mapM _ parsed) as [wss|e]; cbn [mbind result_bind] in *;
      [|discriminate].
    injection IH as IH.
    change (Ok (padded_words l ++ concat wss) =
            Ok (padded_words l ++ concat (padded_words <$> parsed))).
    rewrite IH. reflexivity.
  - intros name Hin. apply elem_of_padded_words in Hin.
    destruct l as [| | | |a i args]; cbn in Hin; try (inversion Hin; fail).
    + apply elem_of_cons in Hin as [?|Hin]; [discriminate|]. inversion Hin.
    + apply elem_of_cons in Hin as [?|Hin]; [discriminate|].
      cbn in Hl0. apply not_true_iff_false in Hl0. apply Hl0.
      apply existsb_exists. exists (WLabel name). split; [|reflexivity].
      apply list_elem_of_In, Hin.
Qed.

(** A label is bound by the first pass when some label line declares it. *)
Lemma label_table_lookup parsed name :
  is_Some (label_table parsed !! name) <-> exists a, LabelLine a name ∈ parsed.
Proof.
  unfold label_table.
  assert (G : forall (labels : gmap string Z),
            is_Some (foldl (fun labels l =>
               match l with
               | LabelLine address label => <[label := address]> labels
               | _ => labels
               end) labels parsed !! name) <->
            is_Some (labels !! name) \/ exists a, LabelLine a name ∈ parsed).
  { induction parsed as [|l parsed IH]; intros labels; cbn [foldl].
    - split; [auto|]. intros [H|[a H]]; [exact H | inversion H].
    - rewrite IH. split.
      + intros [H|[a H]].
        * destruct l as [| |a0 name0| |]; auto.
          destruct (decide (name0 = name)) as [->|Hne].
          -- right. exists a0. left.
          -- rewrite lookup_insert_ne in H by exact Hne. auto.
        * right. exists a. right. exact H.
      + intros [H|[a H]].
        * left. destruct l as [| |a0 name0| |]; auto.
          destruct (decide (name0 = name)) as [->|Hne].
          -- rewrite lookup_insert_eq. eauto.
          -- rewrite lookup_insert_ne by exact Hne. exact H.
        * apply elem_of_cons in H as [<-|H].
          -- left. rewrite lookup_insert_eq. eauto.
          -- right. exists a. exact H. }
  rewrite G. rewrite lookup_empty. split.
  - intros [[x H]|H]; [discriminate | exact H].
  - auto.
Qed.

End SecondPass.

(** ** Labels in [compile] *)

(** C9, as the code has it.  When the parser accepts the text and no
    argument of an instruction is a label, [compile] succeeds: its result is
    the words of the lines with their padding, in order.  Label lines may be
    present or not. *)
Theorem compile_without_label_arguments (M : Machine) (src : Source)
    (parsed : list Line) :
  parse src = (parsed, None) ->
  Forall (fun l => references_label l = false) parsed ->
  compile src = Ok (concat (padded_words <$> parsed)).
Proof.
  intros H Hno. unfold compile. rewrite H. cbn [list_of mbind result_bind].
  apply second_pass_no_label; [|exact Hno].
  unfold parse in H. eapply parse_loop_fits, H.
Qed.

Lemma compile_without_label_arguments_witness :
  compile (M := example_machine) (Text (unlines ["a:"; "ADD 1 0x2"; "-3"])) =
  Ok [WInstruction "ADD"; WAddress 1; WAddress 2; WNativeNumber (-3)].
Proof.
  apply (compile_without_label_arguments example_machine
           (Text (unlines ["a:"; "ADD 1 0x2"; "-3"]))
           [LabelLine 0 "a:"; InstructionLine 0 "ADD" [WAddress 1; WAddress 2];
            ValueLine 3 (-3)]).
  - reflexivity.
  - repeat constructor.
Defined.

(** C9 fails for a program without label lines whose instruction names a
    label: the text [JMP a:] is parsed, has no label line, and [compile]
    raises the [KeyError] of the label. *)
Lemma compile_label_argument_without_label_line :
  parse (M := example_machine) (Text "JMP a:") =
    ([InstructionLine 0 "JMP" [WLabel "a:"]], None) /\
  forallb (fun l => negb (is_LabelLine l)) [InstructionLine 0 "JMP" [WLabel "a:"]] = true /\
  compile (M := example_machine) (Text "JMP a:") = Raise (KeyError "a:").
Proof. repeat split; reflexivity. Qed.

(** C3: what the code does.  When the parser accepts the text, [compile]
    fails exactly when an argument is a label that no label line declares,
    and what it raises then is a [KeyError], never a [CompilationError].
    So does the text of the lines [a:], [JMP b:]. *)
Theorem undefined_label_raises_KeyError (M : Machine) (src : Source)
    (parsed : list Line) :
  parse src = (parsed, None) ->
  ((exists l name, l ∈ parsed /\ WLabel name ∈ produced_bytes l /\
      forall a, LabelLine a name ∉ parsed) ->
   exists name, compile src = Raise (KeyError name)) /\
  (forall e, compile src = Raise e ->
     exists l name, e = KeyError name /\ l ∈ parsed /\
       WLabel name ∈ produced_bytes l /\ forall a, LabelLine a name ∉ parsed) /\
  compile (M := example_machine) (Text (unlines ["a:"; "JMP b:"])) =
    Raise (KeyError "b:").
Proof.
  intros H.
  assert (Hfits : Forall fits parsed)
    by (unfold parse in H; eapply parse_loop_fits, H).
  assert (Hnone : forall name, label_table parsed !! name = None <->
                    forall a, LabelLine a name ∉ parsed).
  { intros name. rewrite eq_None_not_Some, label_table_lookup. split.
    - intros Hn a Ha. apply Hn. exists a. exact Ha.
    - intros Hn [a Ha]. exact (Hn a Ha). }
  unfold compile. rewrite H. cbn [list_of mbind result_bind].
  destruct (second_pass_outcome (label_table parsed) parsed Hfits)
    as [(ws & -> & Hall)|(l & name & -> & Hin & Hw & Hl)].
  - split; [|split; [discriminate | reflexivity]].
    intros (l & name & Hin & Hw & Hundef). exfalso.
    apply Hnone in Hundef. destruct (Hall l name Hin Hw) as [a Ha]. congruence.
  - split; [eauto|]. split; [|reflexivity].
    intros e [= <-]. exists l, name. repeat split; try assumption.
    apply Hnone, Hl.
Qed.

Lemma undefined_label_raises_KeyError_witness :
  exists name,
    compile (M := example_machine) (Text (unlines ["x:"; "ADD x: y:"])) =
    Raise (KeyError name).
Proof.
  apply (undefined_label_raises_KeyError example_machine
           (Text (unlines ["x:"; "ADD x: y:"]))
           [LabelLine 0 "x:"; InstructionLine 0 "ADD" [WLabel "x:"; WLabel "y:"]]
           eq_refl).
  exists (InstructionLine 0 "ADD" [WLabel "x:"; WLabel "y:"]), "y:".
  split; [right; left|]. split; [right; right; left|].
  intros a Ha. repeat (apply elem_of_cons in Ha as [Ha|Ha]; [discriminate|]).
  inversion Ha.
Defined.

(** C2: what the code does.  When the parser accepts the text, [compile]
    raises no [CompilationError], whatever labels are declared twice.  In
    the text of the lines [a:], [5], [a:], [JMP a:] the second declaration
    replaces the first: the jump goes to address 1. *)
Theorem duplicate_label_overwrites (M : Machine) (src : Source)
    (parsed : list Line) :
  parse src = (parsed, None) ->
  (forall message, compile src <> Raise (CompilationError message)) /\
  parse (M := example_machine) (Text (unlines ["a:"; "5"; "a:"; "JMP a:"])) =
    ([LabelLine 0 "a:"; ValueLine 0 5; LabelLine 1 "a:";
      InstructionLine 1 "JMP" [WLabel "a:"]], None) /\
  compile (M := example_machine) (Text (unlines ["a:"; "5"; "a:"; "JMP a:"])) =
    Ok [WNativeNumber 5; WInstruction "JMP"; WAddress 1].
Proof.
  intros H. split; [|split; reflexivity].
  assert (Hfits : Forall fits parsed)
    by (unfold parse in H; eapply parse_loop_fits, H).
  intros message. unfold compile. rewrite H. cbn [list_of mbind result_bind].
  destruct (second_pass_outcome (label_table parsed) parsed Hfits)
    as [(ws & -> & _)|(l & name & -> & _)]; discriminate.
Qed.

Lemma duplicate_label_overwrites_witness :
  parse (M := example_machine) (Text (unlines ["a:"; "a:"])) =
    ([LabelLine 0 "a:"; LabelLine 0 "a:"], None) /\
  compile (M := example_machine) (Text (unlines ["a:"; "a:"])) <>
    Raise (CompilationError "Label a: duplicated").
Proof.
  split; [reflexivity|].
  apply (duplicate_label_overwrites example_machine (Text (unlines ["a:"; "a:"]))
           [LabelLine 0 "a:"; LabelLine 0 "a:"] eq_refl).
Defined.

(** ** Literals through the parsers *)

(** The characters a digit of a base below 17 is written with. *)
Lemma digit_char_hex d :
  (digit d < 16)%nat ->
  In (digit_char d) (list_ascii_of_string "0123456789abcdefABCDEF").
Proof.
  destruct d as [n u]. cbn [digit]. intros H.
  do 16 (destruct n as [|n]; [destruct u; vm_compute; tauto|]). lia.
Qed.

Lemma digit_char_dec d :
  (digit d < 10)%nat ->
  In (digit_char d) (list_ascii_of_string "0123456789").
Proof.
  destruct d as [n u]. cbn [digit]. intros H.
  do 10 (destruct n as [|n]; [destruct u; vm_compute; tauto|]). lia.
Qed.

Lemma digit_value_digit_char d :
  (digit d < 16)%nat -> digit_value (digit_char d) = Some (Z.of_nat (digit d)).
Proof.
  destruct d as [n u]. cbn [digit]. intros H.
  do 16 (destruct n as [|n]; [destruct u; reflexivity|]). lia.
Qed.

(** A property of characters that holds of the 22 digit characters holds of
    the character of a digit. *)
Lemma digit_char_property (P : ascii -> bool) d :
  (digit d < 16)%nat ->
  forallb P (list_ascii_of_string "0123456789abcdefABCDEF") = true ->
  P (digit_char d) = true.
Proof.
  intros H HP. rewrite forallb_forall in HP. apply HP, digit_char_hex, H.
Qed.

Lemma digit_char_dec_property (P : ascii -> bool) d :
  (digit d < 10)%nat ->
  forallb P (list_ascii_of_string "0123456789") = true ->
  P (digit_char d) = true.
Proof.
  intros H HP. rewrite forallb_forall in HP. apply HP, digit_char_dec, H.
Qed.

(** [strip] leaves a text without white space as it is. *)
Lemma rstrip_no_space s :
  forallb (fun c => negb (is_py_space c)) (list_ascii_of_string s) = true ->
  rstrip s = s.
Proof.
  induction s as [|c s IH]; cbn [list_ascii_of_string forallb rstrip];
    [reflexivity|].
  intros H. apply andb_prop in H as [Hc Hs]. rewrite (IH Hs).
  destruct s; [|reflexivity].
  apply negb_true_iff in Hc. rewrite Hc. reflexivity.
Qed.

Lemma strip_no_space s :
  forallb (fun c => negb (is_py_space c)) (list_ascii_of_string s) = true ->
  strip s = s.
Proof.
  intros H. unfold strip.
  assert (L : lstrip s = s).
  { destruct s as [|c s]; [reflexivity|]. cbn in H.
    apply andb_prop in H as [Hc _]. apply negb_true_iff in Hc.
    cbn [lstrip]. rewrite Hc. reflexivity. }
  rewrite L. apply rstrip_no_space, H.
Qed.

Lemma digits_text_no_space r ds :
  r <= 16 -> digits_below r ds ->
  forallb (fun c => negb (is_py_space c)) (list_ascii_of_string (digits_text ds)) = true.
Proof.
  intros Hr. induction 1 as [|d ds Hd _ IH]; [reflexivity|].
  cbn [digits_text list_ascii_of_string forallb]. rewrite IH, andb_true_r.
  apply (digit_char_property (fun c => negb (is_py_space c))); [lia|reflexivity].
Qed.

Lemma literal_text_no_space l :
  digits_below (radix (lit_base l)) (lit_digits l) ->
  forallb (fun c => negb (is_py_space c)) (list_ascii_of_string (literal_text l)) = true.
Proof.
  intros H. unfold literal_text.
  pose proof (digits_text_no_space (radix (lit_base l)) (lit_digits l)
                ltac:(destruct (lit_base l); cbn; lia) H) as Hd.
  destruct (lit_sign l), (lit_base l); cbn; exact Hd.
Qed.

(** The digit loop of [int] on the text of digits. *)
Lemma int_digits_digits_text r ds : forall prev acc,
  r <= 16 -> digits_below r ds -> (ds <> [] \/ prev = true) ->
  int_digits r (digits_text ds) prev acc = Some (digits_value r acc ds).
Proof.
  induction ds as [|d ds IH]; intros prev acc Hr Hds Hne.
  - destruct Hne as [Hne| ->]; [congruence | reflexivity].
  - inversion Hds as [|? ? Hd Hds']; subst.
    cbn [digits_text int_digits digits_value].
    assert (Hu : Ascii.eqb (digit_char d) "_" = false).
    { apply negb_true_iff.
      apply (digit_char_property (fun c => negb (Ascii.eqb c "_")));
        [lia | reflexivity]. }
    rewrite Hu, digit_value_digit_char by lia.
    destruct (Z.ltb_spec (Z.of_nat (digit d)) r); [|lia].
    apply IH; auto.
Qed.

(** The white space of [int()] is white space for [str.strip()]. *)
Lemma is_int_space_py_space c : is_py_space c = false -> is_int_space c = false.
Proof.
  destruct c as [[] [] [] [] [] [] [] []]; intros H;
    try (vm_compute in H; discriminate H); reflexivity.
Qed.

Lemma int_strip_no_space s :
  forallb (fun c => negb (is_py_space c)) (list_ascii_of_string s) = true ->
  int_rstrip (int_lstrip s) = s.
Proof.
  intros H.
  assert (R : forall t,
            forallb (fun c => negb (is_py_space c)) (list_ascii_of_string t) = true ->
            int_rstrip t = t).
  { induction t as [|c t IH]; cbn [list_ascii_of_string forallb int_rstrip];
      [reflexivity|].
    intros Ht. apply andb_prop in Ht as [Hc Ht]. rewrite (IH Ht).
    destruct t; [|reflexivity].
    apply negb_true_iff, is_int_space_py_space in Hc. rewrite Hc. reflexivity. }
  assert (L : int_lstrip s = s).
  { destruct s as [|c s]; [reflexivity|]. cbn in H.
    apply andb_prop in H as [Hc _].
    apply negb_true_iff, is_int_space_py_space in Hc.
    cbn [int_lstrip]. rewrite Hc. reflexivity. }
  rewrite L. apply R, H.
Qed.

(** The text of digits has as many digits as the literal. *)
Lemma count_digits_digits_text r ds :
  r <= 16 -> digits_below r ds ->
  count_digits (digits_text ds) = Z.of_nat (length ds).
Proof.
  intros Hr. induction 1 as [|d ds Hd _ IH]; [reflexivity|].
  cbn [digits_text count_digits length]. rewrite IH.
  assert (Hu : Ascii.eqb (digit_char d) "_" = false).
  { apply negb_true_iff.
    apply (digit_char_property (fun c => negb (Ascii.eqb c "_")));
      [lia | reflexivity]. }
  rewrite Hu. lia.
Qed.

(** [int] on the text after the sign: the value of the digits, unless the
    base is 10 and the digits are more than the limit. *)
Lemma int_unsigned_body b ds :
  ds <> [] -> digits_below (radix b) ds ->
  int_unsigned (radix b) (with_prefix b (digits_text ds)) =
  if too_many_digits {| lit_sign := NoSign; lit_base := b; lit_digits := ds |}
  then None
  else Some (digits_value (radix b) 0 ds).
Proof.
  intros Hne Hds. unfold int_unsigned, too_many_digits. cbn [lit_base lit_digits].
  assert (Hr : radix b <= 16) by (destruct b; cbn; lia).
  destruct b; cbn [with_prefix radix] in *.
  - assert (P : int_prefix 10 (digits_text ds) = digits_text ds).
    { unfold int_prefix. destruct (digits_text ds) as [|c [|x s]]; try reflexivity.
      cbn [Z.eqb]. rewrite andb_false_r. reflexivity. }
    rewrite P, int_digits_digits_text by auto.
    rewrite (count_digits_digits_text 10 ds Hr Hds). reflexivity.
  - assert (P : int_prefix 16 (String "0" (String "x" (digits_text ds))) =
                digits_text ds).
    { destruct ds as [|d ds]; [congruence|].
      inversion Hds as [|? ? Hd _]; subst. cbn [digits_text int_prefix].
      assert (Hu : Ascii.eqb (digit_char d) "_" = false).
      { apply negb_true_iff.
        apply (digit_char_property (fun c => negb (Ascii.eqb c "_")));
          [lia | reflexivity]. }
      rewrite Hu. reflexivity. }
    rewrite P, int_digits_digits_text by auto. reflexivity.
Qed.

(** [int] on the text of a literal: its value, or the [ValueError] of the
    limit on the digits. *)
Lemma py_int_literal l :
  valid_literal l = true ->
  py_int (literal_text l) (radix (lit_base l)) =
  if too_many_digits l then Raise ValueError else Ok (literal_value l).
Proof.
  unfold valid_literal. intros Hv.
  assert (Hne : lit_digits l <> []) by (destruct (lit_digits l); congruence).
  assert (Hds : digits_below (radix (lit_base l)) (lit_digits l)).
  { destruct (lit_digits l) as [|d ds]; [discriminate|].
    apply Forall_forall. rewrite forallb_forall in Hv.
    intros x Hx. apply Z.ltb_lt, Hv, list_elem_of_In, Hx. }
  unfold py_int. rewrite (int_strip_no_space _ (literal_text_no_space l Hds)).
  pose proof (int_unsigned_body (lit_base l) (lit_digits l) Hne Hds) as Hb.
  change (too_many_digits {| lit_sign := NoSign; lit_base := lit_base l;
                             lit_digits := lit_digits l |})
    with (too_many_digits l) in Hb.
  unfold literal_text, literal_value.
  destruct (lit_sign l); cbn [with_sign].
  - (* no sign: the first character is a [0] or a digit *)
    destruct (with_prefix (lit_base l) (digits_text (lit_digits l)))
      as [|c s] eqn:E.
    { destruct (lit_base l), (lit_digits l); cbn in E; congruence. }
    assert (Hc : Ascii.eqb c "-" = false /\ Ascii.eqb c "+" = false).
    { destruct (lit_base l); cbn [with_prefix] in E.
      - destruct (lit_digits l) as [|d ds]; [congruence|].
        inversion Hds as [|? ? Hd _]; subst. cbn in E. injection E as <- _.
        split; apply negb_true_iff.
        + apply (digit_char_property (fun c => negb (Ascii.eqb c "-")));
            [cbn in Hd; lia | reflexivity].
        + apply (digit_char_property (fun c => negb (Ascii.eqb c "+")));
            [cbn in Hd; lia | reflexivity].
      - injection E as <- _. split; reflexivity. }
    destruct Hc as [-> ->]. rewrite Hb. destruct (too_many_digits l); reflexivity.
  - cbn. rewrite Hb. destruct (too_many_digits l); reflexivity.
  - cbn. rewrite Hb. destruct (too_many_digits l); reflexivity.
Qed.

(** ** The number patterns on the text of a literal *)

Section LiteralPatterns.

Lemma star_loop_total m fuel : forall rest caps k,
  (forall rest' caps', is_Some (k rest' caps')) ->
  is_Some (star_loop m fuel rest caps k).
Proof.
  destruct fuel as [|fuel]; intros rest caps k Hk; cbn [star_loop]; [apply Hk|].
  destruct (m rest caps _); [eauto | apply Hk].
Qed.

Lemma matches_intro r s : is_Some (re_match r s) -> matches r s = true.
Proof. unfold matches. intros [c ->]. reflexivity. Qed.

Lemma matches_None r s : re_match r s = None -> matches r s = false.
Proof. unfold matches. intros ->. reflexivity. Qed.

Lemma is_sign_digit_char d :
  (digit d < 16)%nat -> is_sign (digit_char d) = false.
Proof.
  intros H. apply negb_true_iff.
  apply (digit_char_property (fun c => negb (is_sign c))); [lia | reflexivity].
Qed.

Lemma x_digit_char d :
  (digit d < 16)%nat -> Ascii.eqb (digit_char d) "x" = false.
Proof.
  intros H. apply negb_true_iff.
  apply (digit_char_property (fun c => negb (Ascii.eqb c "x"))); [lia | reflexivity].
Qed.

(** Decides the tests on the characters that are known. *)
Ltac decide_test t :=
  let v := eval vm_compute in t in
  match v with
  | true => change t with true
  | false => change t with false
  end.

Ltac char_tests :=
  repeat (match goal with
          | |- context [Ascii.eqb ?a ?b] => decide_test (Ascii.eqb a b)
          | |- context [is_sign ?a] => decide_test (is_sign a)
          end; cbv iota).

Lemma is_Some_first {A} (x y : option A) :
  is_Some x -> is_Some (match x with Some c => Some c | None => y end).
Proof. intros [c ->]. eauto. Qed.

(** Closes a goal that the loop of a star, whose continuation accepts
    everything, finds a match. *)
Ltac star_loop_succeeds :=
  repeat apply is_Some_first; apply star_loop_total; eauto.

Lemma matches_HEX_hexadecimal sg ds :
  ds <> [] -> digits_below 16 ds ->
  matches HEX_NUMBER_PATTERN
    (with_sign sg (with_prefix Hexadecimal (digits_text ds))) = true.
Proof.
  intros Hne Hds. destruct ds as [|d ds]; [congruence|].
  inversion Hds as [|? ? Hd _]; subst.
  assert (Hh : is_hex_digit (digit_char d) = true)
    by (apply (digit_char_property is_hex_digit); [lia | reflexivity]).
  apply matches_intro. unfold re_match, HEX_NUMBER_PATTERN, Opt, Plus.
  destruct sg; cbn [with_sign with_prefix digits_text rmatch Lit];
    char_tests; rewrite Hh; star_loop_succeeds.
Qed.

Lemma matches_HEX_decimal sg ds :
  digits_below 10 ds ->
  matches HEX_NUMBER_PATTERN
    (with_sign sg (with_prefix Decimal (digits_text ds))) = false.
Proof.
  intros Hds. apply matches_None.
  unfold re_match, HEX_NUMBER_PATTERN, Opt, Plus.
  assert (G : forall s : string,
            match digits_text ds with
            | EmptyString => None
            | String c' rest' =>
                if Ascii.eqb c' "0" then
                  match rest' with
                  | EmptyString => None
                  | String c'' rest'' =>
                      if Ascii.eqb c'' "x" then Some s else None
                  end
                else None
            end = None).
  { intros s. destruct Hds as [|d ds Hd Hds]; [reflexivity|]. cbn [digits_text].
    destruct (Ascii.eqb (digit_char d) "0"); [|reflexivity].
    destruct Hds as [|d2 ds Hd2 Hds]; [reflexivity|]. cbn [digits_text].
    rewrite x_digit_char by lia. reflexivity. }
  destruct Hds as [|d ds Hd Hds].
  - destruct sg; reflexivity.
  - pose proof (is_sign_digit_char d ltac:(lia)) as Hs.
    destruct sg; cbn [with_sign with_prefix digits_text rmatch Lit];
      char_tests; rewrite ?Hs; cbv iota;
      (destruct (Ascii.eqb (digit_char d) "0"); [|reflexivity]);
      (destruct Hds as [|d2 ds Hd2 Hds]; [reflexivity|]); cbn [digits_text];
      rewrite x_digit_char by lia; reflexivity.
Qed.

Lemma matches_NUMBER_decimal sg ds :
  ds <> [] -> digits_below 10 ds ->
  matches NUMBER_PATTERN
    (with_sign sg (with_prefix Decimal (digits_text ds))) = true.
Proof.
  intros Hne Hds. destruct ds as [|d ds]; [congruence|].
  inversion Hds as [|? ? Hd _]; subst.
  assert (Hh : is_digit (digit_char d) = true)
    by (apply (digit_char_dec_property is_digit); [lia | reflexivity]).
  pose proof (is_sign_digit_char d ltac:(lia)) as Hs.
  apply matches_intro.
  unfold re_match, NUMBER_PATTERN, DEC_NUMBER_PATTERN, Opt, Plus.
  destruct sg; cbn [with_sign with_prefix digits_text rmatch Lit];
    char_tests; rewrite ?Hs, Hh; cbv iota.
  all: star_loop_succeeds.
Qed.

End LiteralPatterns.

Section LiteralParsers.

Context {M : Machine}.

Lemma valid_literal_digits l :
  valid_literal l = true ->
  lit_digits l <> [] /\ digits_below (radix (lit_base l)) (lit_digits l).
Proof.
  unfold valid_literal. intros Hv. split.
  - destruct (lit_digits l); congruence.
  - destruct (lit_digits l) as [|d ds]; [discriminate|].
    apply Forall_forall. rewrite forallb_forall in Hv.
    intros x Hx. apply Z.ltb_lt, Hv, list_elem_of_In, Hx.
Qed.

(** On the text of a literal both parsers reach the range check with the
    value of the literal, unless [int] refuses the digits. *)
Lemma parse_number_literal l :
  valid_literal l = true ->
  parse_number (literal_text l) =
  if too_many_digits l then Raise ValueError
  else int_to_native_number (literal_value l).
Proof.
  intros Hv. destruct (valid_literal_digits l Hv) as [Hne Hds].
  pose proof (py_int_literal l Hv) as Hint.
  unfold parse_number, literal_text in *.
  destruct (lit_base l); cbn [radix] in *.
  - rewrite matches_HEX_decimal, matches_NUMBER_decimal, Hint by assumption.
    destruct (too_many_digits l); reflexivity.
  - rewrite matches_HEX_hexadecimal, Hint by assumption.
    destruct (too_many_digits l); reflexivity.
Qed.

Lemma parse_address_literal_literal l :
  valid_literal l = true ->
  parse_address_literal (literal_text l) =
  if too_many_digits l then Raise ValueError
  else int_to_address (literal_value l).
Proof.
  intros Hv. destruct (valid_literal_digits l Hv) as [Hne Hds].
  pose proof (py_int_literal l Hv) as Hint.
  unfold parse_address_literal, literal_text in *.
  destruct (lit_base l); cbn [radix] in *.
  - rewrite matches_HEX_decimal, matches_NUMBER_decimal, Hint by assumption.
    destruct (too_many_digits l); reflexivity.
  - rewrite matches_HEX_hexadecimal, Hint by assumption.
    destruct (too_many_digits l); reflexivity.
Qed.

(** The value of [n] digits of the base [r] is below [r ^ n]. *)
Lemma digits_value_bound r ds : forall acc,
  0 < r -> digits_below r ds -> 0 <= acc ->
  0 <= digits_value r acc ds < (acc + 1) * r ^ Z.of_nat (length ds).
Proof.
  induction ds as [|d ds IH]; intros acc Hr Hds Hacc.
  - cbn [digits_value length]. change (r ^ Z.of_nat 0) with (r ^ 0).
    rewrite Z.pow_0_r. lia.
  - inversion Hds as [|? ? Hd Hds']; subst. cbn [digits_value length].
    rewrite Nat2Z.inj_succ, Z.pow_succ_r by lia.
    specialize (IH (acc * r + Z.of_nat (digit d)) Hr Hds' ltac:(nia)).
    assert (0 < r ^ Z.of_nat (length ds)) by (apply Z.pow_pos_nonneg; lia).
    nia.
Qed.

Lemma str_limit_pow : str_limit = 10 ^ 4300.
Proof. vm_compute. reflexivity. Qed.

(** A literal within the limit: [int] reads its digits, and its value can
    be printed. *)
Lemma within_limits_facts l :
  valid_literal l = true -> within_limits l = true ->
  too_many_digits l = false /\ Z.abs (literal_value l) < str_limit.
Proof.
  intros Hv Hl. destruct (valid_literal_digits l Hv) as [Hne Hds].
  unfold within_limits, too_many_digits, literal_value in *.
  destruct (lit_base l); cbn [radix] in *.
  - apply Z.leb_le in Hl. split; [apply Z.ltb_ge, Hl|].
    pose proof (digits_value_bound 10 (lit_digits l) 0 ltac:(lia) Hds ltac:(lia))
      as Hb.
    assert (Hp : 10 ^ Z.of_nat (length (lit_digits l)) <= str_limit).
    { rewrite str_limit_pow. apply Z.pow_le_mono_r; [lia|].
      exact Hl. }
    generalize dependent str_limit. intros limit Hp.
    destruct (lit_sign l); lia.
  - split; [reflexivity|]. apply Z.ltb_lt in Hl.
    unfold literal_value in Hl. cbn [radix] in Hl. exact Hl.
Qed.

End LiteralParsers.

(** C7, as the code has it.  Let the numbers that [NativeNumber] stores
    exactly be those from [nlo] to [nhi], and the addresses that [Address]
    stores exactly those from [alo] to [ahi].  For every literal (a sign or
    none, then decimal digits or [0x] and hexadecimal digits, at least one)
    within the limit on the digits, each parser returns the value of the
    literal when it lies in its range, and fails with the message of the
    value out of range when the value is one below the least or one above
    the greatest.  A decimal literal of more than 4300 digits is refused by
    [int] in both parsers, whatever its value. *)
Theorem literal_round_trip (M : Machine) (nlo nhi alo ahi : Z)
    (HN : forall v, NativeNumber_value v = v <-> nlo <= v <= nhi)
    (HA : forall v, Address_value v = v <-> alo <= v <= ahi)
    (l : Literal) (Hv : valid_literal l = true) :
  (within_limits l = true ->
   (nlo <= literal_value l <= nhi ->
    parse_number (literal_text l) = Ok (literal_value l)) /\
   (literal_value l = nlo - 1 \/ literal_value l = nhi + 1 ->
    parse_number (literal_text l) =
    Raise (CompilationError
      ("Value " +:+ str_of_Z (literal_value l) +:+ " is out of range"))) /\
   (alo <= literal_value l <= ahi ->
    parse_address_literal (literal_text l) = Ok (literal_value l)) /\
   (literal_value l = alo - 1 \/ literal_value l = ahi + 1 ->
    parse_address_literal (literal_text l) =
    Raise (CompilationError
      ("Value " +:+ str_of_Z (literal_value l) +:+ " is out of range")))) /\
  (lit_base l = Decimal ->
   max_str_digits < Z.of_nat (length (lit_digits l)) ->
   parse_number (literal_text l) = Raise ValueError /\
   parse_address_literal (literal_text l) = Raise ValueError).
Proof.
  rewrite (parse_number_literal l Hv), (parse_address_literal_literal l Hv).
  split.
  - intros Hl. destruct (within_limits_facts l Hv Hl) as [-> Hp].
    repeat split; intros H.
    + apply int_to_native_number_Ok, HN, H.
    + apply int_to_native_number_Raise; [rewrite HN; lia | exact Hp].
    + apply int_to_address_Ok, HA, H.
    + apply int_to_address_Raise; [rewrite HA; lia | exact Hp].
  - intros Hb Hd. unfold too_many_digits. rewrite Hb.
    rewrite (proj2 (Z.ltb_lt _ _) Hd). split; reflexivity.
Qed.

Lemma c_int8_value_range v : c_int8_value v = v <-> -128 <= v <= 127.
Proof.
  unfold c_int8_value. pose proof (Z.mod_pos_bound (v + 128) 256 ltac:(lia)).
  split; intros H0; [lia|]. rewrite Z.mod_small; lia.
Qed.

Lemma c_uint8_value_range v : c_uint8_value v = v <-> 0 <= v <= 255.
Proof.
  unfold c_uint8_value. pose proof (Z.mod_pos_bound v 256 ltac:(lia)).
  split; intros H0; [lia|]. rewrite Z.mod_small; lia.
Qed.

Lemma literal_round_trip_witness :
  parse_number (M := example_machine) "-0x80" = Ok (-128) /\
  parse_number (M := example_machine) "128" =
    Raise (CompilationError "Value 128 is out of range") /\
  parse_address_literal (M := example_machine) "+255" = Ok 255 /\
  parse_address_literal (M := example_machine) "-1" =
    Raise (CompilationError "Value -1 is out of range").
Proof.
  pose proof (fun l Hv Hl =>
                proj1 (literal_round_trip example_machine (-128) 127 0 255
                         c_int8_value_range c_uint8_value_range l Hv) Hl) as H.
  split; [|split; [|split]].
  - apply (H {| lit_sign := MinusSign; lit_base := Hexadecimal;
                lit_digits := [ {| digit := 8; upper := false |};
                                {| digit := 0; upper := false |} ] |}
             eq_refl eq_refl).
    cbn. lia.
  - apply (H {| lit_sign := NoSign; lit_base := Decimal;
                lit_digits := [ {| digit := 1; upper := false |};
                                {| digit := 2; upper := false |};
                                {| digit := 8; upper := false |} ] |}
             eq_refl eq_refl).
    right. reflexivity.
  - apply (H {| lit_sign := PlusSign; lit_base := Decimal;
                lit_digits := [ {| digit := 2; upper := false |};
                                {| digit := 5; upper := false |};
                                {| digit := 5; upper := false |} ] |}
             eq_refl eq_refl).
    cbn. lia.
  - apply (H {| lit_sign := MinusSign; lit_base := Decimal;
                lit_digits := [ {| digit := 1; upper := false |} ] |}
             eq_refl eq_refl).
    left. reflexivity.
Defined.

(** C7 fails for a literal longer than the limit: 4300 zeros and a 7 is a
    decimal literal of value 7, which the 8-bit numbers and addresses hold,
    and both parsers raise the [ValueError] of [int]. *)
Lemma literal_over_digit_limit :
  valid_literal zeros_and_seven = true /\ literal_value zeros_and_seven = 7 /\
  c_int8_value 7 = 7 /\ c_uint8_value 7 = 7 /\
  parse_number (M := example_machine) (literal_text zeros_and_seven) =
    Raise ValueError /\
  parse_number (M := example_machine) (literal_text zeros_and_seven) <> Ok 7 /\
  parse_address_literal (M := example_machine) (literal_text zeros_and_seven) =
    Raise ValueError.
Proof. vm_compute. repeat split; try reflexivity. discriminate. Qed.

(** ** The names of the instructions in the instruction pattern *)

Lemma rmatch_Lit subject p : forall rest caps k,
  rmatch subject (Lit p) rest caps k =
  match drop_prefix p rest with
  | Some rest' => k rest' caps
  | None => None
  end.
Proof.
  induction p as [|c p IH]; intros rest caps k; cbn [Lit rmatch drop_prefix].
  - reflexivity.
  - destruct rest as [|c' rest]; [reflexivity|].
    destruct (Ascii.eqb c' c); [apply IH | reflexivity].
Qed.

Lemma rmatch_Alts_cons subject r rs rest caps k :
  rs <> [] ->
  rmatch subject (Alts (r :: rs)) rest caps k =
  match rmatch subject r rest caps k with
  | Some c => Some c
  | None => rmatch subject (Alts rs) rest caps k
  end.
Proof. destruct rs; [congruence | reflexivity]. Qed.

Lemma ngroups_Lit s : ngroups (Lit s) = 0%nat.
Proof. induction s as [|c s IH]; cbn; [reflexivity | exact IH]. Qed.

Lemma ngroups_names names : ngroups (Alts (Lit <$> names)) = 0%nat.
Proof.
  induction names as [|n [|n' names] IH]; [reflexivity | apply ngroups_Lit |].
  change (ngroups (Alts (Lit <$> n :: n' :: names)))
    with (Nat.max (ngroups (Lit n)) (ngroups (Alts (Lit <$> n' :: names)))).
  rewrite ngroups_Lit, IH. reflexivity.
Qed.

Lemma is_identifier_chars n :
  is_identifier n = true ->
  n <> EmptyString /\
  forallb is_identifier_char (list_ascii_of_string n) = true.
Proof.
  destruct n as [|c n]; [discriminate|]. cbn [is_identifier list_ascii_of_string forallb].
  intros H. apply andb_prop in H as [Hc Hn]. split; [discriminate|].
  rewrite Hn, andb_true_r. unfold is_identifier_first in Hc.
  unfold is_identifier_char. rewrite Hc. reflexivity.
Qed.

(** An identifier that is a prefix of [rest] is among the splits. *)
Lemma drop_prefix_identifier_splits n : forall rest rest',
  n <> EmptyString ->
  forallb is_identifier_char (list_ascii_of_string n) = true ->
  drop_prefix n rest = Some rest' ->
  (n, rest') ∈ identifier_splits rest.
Proof.
  induction n as [|c n IH]; intros rest rest' Hne Hn Hd; [congruence|].
  cbn [list_ascii_of_string forallb] in Hn. apply andb_prop in Hn as [Hc Hn].
  cbn [drop_prefix] in Hd. destruct rest as [|c' rest]; [discriminate|].
  destruct (Ascii.eqb_spec c' c) as [->|]; [|discriminate].
  cbn [identifier_splits]. rewrite Hc.
  destruct n as [|c2 n].
  - cbn in Hd. injection Hd as <-. left.
  - right. apply (list_elem_of_fmap_2 (prod_map (String c) id) _ (String c2 n, rest')).
    apply IH; [discriminate | exact Hn | exact Hd].
Qed.

Section InstructionNames.

Variables (subject rest : string) (caps : captures) (k : cont).

(** No name matches with success when the continuation fails after every
    identifier that begins [rest]. *)
Lemma rmatch_names_None names :
  names <> [] ->
  Forall (fun n => is_identifier n = true) names ->
  (forall p r, (p, r) ∈ identifier_splits rest -> k r caps = None) ->
  rmatch subject (Alts (Lit <$> names)) rest caps k = None.
Proof.
  intros Hne Hid Hk.
  assert (Hhead : forall n, is_identifier n = true ->
            rmatch subject (Lit n) rest caps k = None).
  { intros n Hn. rewrite rmatch_Lit.
    destruct (drop_prefix n rest) as [r|] eqn:E; [|reflexivity].
    destruct (is_identifier_chars n Hn) as [Hn1 Hn2].
    apply (Hk n r), drop_prefix_identifier_splits; assumption. }
  induction Hid as [|n names Hn Hid IH]; [congruence|].
  destruct names as [|n' names].
  - apply (Hhead n Hn).
  - change (Lit <$> n :: n' :: names) with (Lit n :: (Lit <$> n' :: names)).
    rewrite rmatch_Alts_cons by discriminate.
    rewrite (Hhead n Hn). apply IH. discriminate.
Qed.

(** The name [target] matches with the result [x] when it is in the
    catalog and begins [rest], the continuation succeeds with [x] after it
    and fails after every other identifier that begins [rest]. *)
Lemma rmatch_names_Some names target r x :
  Forall (fun n => is_identifier n = true) names ->
  target ∈ names ->
  drop_prefix target rest = Some r ->
  k r caps = Some x ->
  (forall p r', (p, r') ∈ identifier_splits rest ->
     p = target \/ k r' caps = None) ->
  rmatch subject (Alts (Lit <$> names)) rest caps k = Some x.
Proof.
  intros Hid Hin Hd Hx Hk.
  assert (Htarget : rmatch subject (Lit target) rest caps k = Some x)
    by (rewrite rmatch_Lit, Hd; exact Hx).
  assert (Hhead : forall n, is_identifier n = true -> n <> target ->
            rmatch subject (Lit n) rest caps k = None).
  { intros n Hn Hneq. rewrite rmatch_Lit.
    destruct (drop_prefix n rest) as [r'|] eqn:E; [|reflexivity].
    destruct (is_identifier_chars n Hn) as [Hn1 Hn2].
    destruct (Hk n r') as [?|?];
      [apply drop_prefix_identifier_splits; assumption | congruence | assumption]. }
  induction Hid as [|n names Hn Hid IH]; [inversion Hin|].
  change (Lit <$> n :: names) with (Lit n :: (Lit <$> names)).
  destruct (decide (n = target)) as [->|Hneq].
  - destruct names as [|n' names]; [exact Htarget|].
    rewrite rmatch_Alts_cons by discriminate. rewrite Htarget. reflexivity.
  - apply elem_of_cons in Hin as [->|Hin]; [congruence|].
    rewrite rmatch_Alts_cons by (destruct names; [inversion Hin | discriminate]).
    rewrite (Hhead n Hn Hneq). apply IH, Hin.
Qed.

End InstructionNames.

(** ** A label as an argument *)

Section LabelArgument.

Context {M : Machine}.
Hypothesis names_identifiers : Forall (fun n => is_identifier n = true) Instructions.
Hypothesis ADD_declared : "ADD" ∈ Instructions.

(** The instruction pattern, the names apart. *)
Lemma re_match_instruction line :
  re_match (Pattern CInstructionLine) line =
  rmatch line INDENTATION_PATTERN line [None; None]
    (fun rest caps =>
       rmatch line (Alts (Lit <$> Instructions)) rest caps
         (fun rest' caps' =>
            rmatch line
              (Cat (Group 2 (Star (Cat (Plus (Char " ")) ADDRESS_PATTERN)))
                   LINE_END_PATTERN)
              rest'
              (<[0%nat := Some (take_string (String.length rest - String.length rest') rest)]> caps')
              (fun _ caps'' => Some caps''))).
Proof.
  unfold re_match.
  assert (G : ngroups (Pattern CInstructionLine) = 2%nat).
  { cbn [Pattern ngroups INDENTATION_PATTERN LINE_END_PATTERN Plus Opt
         SPACER_CHARACTER_PATTERN ADDRESS_PATTERN].
    unfold INSTRUCTION_NAME_PATTERN. rewrite ngroups_names. reflexivity. }
  rewrite G. reflexivity.
Qed.

Lemma Instructions_not_empty : Instructions <> [].
Proof. intros E. rewrite E in ADD_declared. inversion ADD_declared. Qed.

(** Decides a statement about every split of a known text. *)
Ltac by_splits :=
  let p := fresh "p" in let r := fresh "r" in let H := fresh "H" in
  intros p r H; vm_compute in H;
  repeat (apply elem_of_cons in H as [H|H];
          [injection H as -> ->; first [reflexivity | right; reflexivity | left; reflexivity]|]);
  inversion H.

Lemma instruction_pattern_label_line :
  re_match (Pattern CInstructionLine) "foo:" = None.
Proof.
  rewrite re_match_instruction.
  match goal with |- rmatch _ _ _ _ ?K = _ =>
    change (K "foo:" [None; None] = None) end.
  cbv beta.
  apply rmatch_names_None;
    [apply Instructions_not_empty | exact names_identifiers | by_splits].
Qed.

Lemma instruction_pattern_bare_identifier :
  re_match (Pattern CInstructionLine) "  ADD foo 0" = None.
Proof.
  rewrite re_match_instruction.
  match goal with |- rmatch _ _ _ _ ?K = _ =>
    change (match
              match K "ADD foo 0" [None; None] with
              | Some c => Some c
              | None => K " ADD foo 0" [None; None]
              end
            with
            | Some c => Some c
            | None => K "  ADD foo 0" [None; None]
            end = None)
  end.
  cbv beta.
  rewrite !rmatch_names_None;
    [reflexivity | ..];
    first [apply Instructions_not_empty | exact names_identifiers | by_splits].
Qed.

Lemma instruction_pattern_label_argument :
  re_match (Pattern CInstructionLine) "  ADD foo: 0" =
  Some [Some "ADD"; Some " foo: 0"].
Proof.
  rewrite re_match_instruction.
  match goal with |- rmatch _ _ _ _ ?K = _ =>
    change (match
              match K "ADD foo: 0" [None; None] with
              | Some c => Some c
              | None => K " ADD foo: 0" [None; None]
              end
            with
            | Some c => Some c
            | None => K "  ADD foo: 0" [None; None]
            end = Some [Some "ADD"; Some " foo: 0"])
  end.
  cbv beta.
  rewrite (rmatch_names_Some _ _ _ _ Instructions "ADD" " foo: 0"
             [Some "ADD"; Some " foo: 0"]);
    [reflexivity | exact names_identifiers | exact ADD_declared
    | reflexivity | reflexivity | by_splits].
Qed.

End LabelArgument.

(** C1, as the code has it.  Let the names of the instructions be
    identifiers, [ADD] be one of them with two arguments, and the address 0
    be stored exactly.  An argument that is a label is written with its
    colon: the text of the lines [foo:], [ADD foo: 0] compiles to the words
    [ADD], address 0, address 0.  The argument [foo] without the colon is
    not accepted: with [ADD foo 0] as second line, line 2 is refused as
    invalid syntax. *)
Theorem compile_label_argument (M : Machine)
    (A0 : Address_value 0 = 0)
    (Hnames : Forall (fun n => is_identifier n = true) Instructions)
    (HADD : "ADD" ∈ Instructions)
    (Hmeth : instruction_methods "ADD" = Some 2%nat) :
  compile (Text (unlines ["foo:"; "  ADD foo: 0"; ""])) =
    Ok [WInstruction "ADD"; WAddress 0; WAddress 0] /\
  compile (Text (unlines ["foo:"; "  ADD foo 0"; ""])) =
    Raise (CompilationError "Line 2: Invalid syntax").
Proof.
  assert (L1 : parse_line 0 "foo:" = Ok (LabelLine 0 "foo:")).
  { unfold parse_line.
    rewrite (first_match_intro [CEmptyLine; COffsetLine; CValueLine; CInstructionLine]
               CLabelLine [] "foo:" [Some "foo:"]).
    - rewrite A0. reflexivity.
    - reflexivity.
    - repeat constructor. apply instruction_pattern_label_line; assumption. }
  assert (Harg : parse_address "0" None = Ok (WAddress 0)).
  { unfold parse_address.
    change (parse_address_literal "0") with (int_to_address 0).
    rewrite (int_to_address_Ok 0 A0). reflexivity. }
  assert (L2 : parse_line 0 "  ADD foo: 0" =
               Ok (InstructionLine 0 "ADD" [WLabel "foo:"; WAddress 0])).
  { unfold parse_line.
    rewrite (first_match_intro [CEmptyLine; COffsetLine; CValueLine]
               CInstructionLine [CLabelLine] "  ADD foo: 0"
               [Some "ADD"; Some " foo: 0"]).
    - cbn [new_line]. unfold InstructionLine_init.
      rewrite (bool_decide_eq_true_2 _ HADD), Hmeth.
      cbv zeta.
      change (mapM (fun a => parse_address a None)
                (split_on " " (strip " foo: 0")))
        with (args ← (a ← parse_address "0" None; Ok [a]);
              Ok (WLabel "foo:" :: args)).
      rewrite Harg, A0. reflexivity.
    - apply instruction_pattern_label_argument; assumption.
    - repeat constructor. }
  assert (L2' : parse_line 0 "  ADD foo 0" =
                Raise (CompilationError "Invalid syntax")).
  { unfold parse_line.
    assert (E : first_match classes "  ADD foo 0" = None).
    { apply first_match_None. repeat constructor.
      apply instruction_pattern_bare_identifier; assumption. }
    rewrite E. reflexivity. }
  assert (L3 : parse_line 3 "" = Ok (EmptyLine (Address_value 3))) by reflexivity.
  split.
  - unfold compile, parse, source_lines.
    change (split_on newline (unlines ["foo:"; "  ADD foo: 0"; ""]))
      with ["foo:"; "  ADD foo: 0"; ""].
    rewrite (parse_loop_Ok _ _ _ _ _ L1).
    change (0 + produced_bytes_padded_num (LabelLine 0 "foo:")) with 0.
    rewrite (parse_loop_Ok _ _ _ _ _ L2).
    change (0 + produced_bytes_padded_num
                  (InstructionLine 0 "ADD" [WLabel "foo:"; WAddress 0])) with 3.
    rewrite (parse_loop_Ok _ _ _ _ _ L3).
    reflexivity.
  - unfold compile, parse, source_lines.
    change (split_on newline (unlines ["foo:"; "  ADD foo 0"; ""]))
      with ["foo:"; "  ADD foo 0"; ""].
    rewrite (parse_loop_Ok _ _ _ _ _ L1).
    change (0 + produced_bytes_padded_num (LabelLine 0 "foo:")) with 0.
    rewrite (parse_loop_Raise _ _ _ _ _ L2').
    reflexivity.
Qed.

Lemma compile_label_argument_witness :
  compile (M := example_machine) (Text (unlines ["foo:"; "  ADD foo: 0"; ""])) =
    Ok [WInstruction "ADD"; WAddress 0; WAddress 0] /\
  compile (M := example_machine) (Text (unlines ["foo:"; "  ADD foo 0"; ""])) =
    Raise (CompilationError "Line 2: Invalid syntax").
Proof.
  apply (compile_label_argument example_machine eq_refl).
  - repeat constructor.
  - left.
  - reflexivity.
Defined.

(** C1 fails: the argument [foo] has no colon, so the line [ADD foo 0]
    matches no pattern. *)
Lemma compile_bare_identifier_argument :
  instruction_methods (Machine := example_machine) "ADD" = Some 2%nat /\
  compile (M := example_machine) (Text (unlines ["foo:"; "  ADD foo 0"; ""])) =
    Raise (CompilationError "Line 2: Invalid syntax") /\
  compile (M := example_machine) (Text (unlines ["foo:"; "  ADD foo 0"; ""])) <>
    Ok [WInstruction "ADD"; WAddress 0; WAddress 0].
Proof. split; [reflexivity | split; [reflexivity | discriminate]]. Qed.

(** * Further properties of the code *)

(** ** Where [parse] stops *)

Section ParseErrors.

Context {M : Machine}.

Lemma parse_loop_error lines : forall n a ls e,
  parse_loop n a lines = (ls, Some e) ->
  exists line e0,
    lines !! length ls = Some line /\
    parse_line (a + padded_sum ls) line = Raise e0 /\
    e = annotate (n + length ls) e0 /\
    parse_loop n a (take (length ls) lines) = (ls, None).
Proof.
  induction lines as [|line lines IH]; intros n a ls e H; cbn [parse_loop] in H.
  - discriminate.
  - destruct (parse_line a line) as [l|e0] eqn:E.
    + destruct (parse_loop (S n) (a + produced_bytes_padded_num l) lines)
        as [ls' e'] eqn:E'.
      injection H as <- ->.
      destruct (IH _ _ _ _ E') as (line' & e0 & Hl & Hp & He & Ht).
      exists line', e0. cbn [length take lookup]. repeat split.
      * exact Hl.
      * rewrite padded_sum_cons, Z.add_assoc. exact Hp.
      * rewrite Nat.add_succ_r. exact He.
      * cbn [parse_loop]. rewrite E, Ht. reflexivity.
    + injection H as <- <-. exists line, e0. cbn [length take].
      change (padded_sum []) with 0. rewrite Z.add_0_r, Nat.add_0_r.
      repeat split. exact E.
Qed.

End ParseErrors.

(** X1.  When [parse] ends with an exception, the lines it has yielded are
    those of the text before the failing line, the exception is the one the
    failing line raises at the address counter reached, and when this is a
    [CompilationError] its message is prefixed with the number of the
    failing line, counted from 1. *)
Theorem parse_stops_at_first_error (M : Machine) (src : Source)
    (ls : list Line) (e : exn) :
  parse src = (ls, Some e) ->
  exists line e0,
    source_lines src !! length ls = Some line /\
    parse_line (padded_sum ls) line = Raise e0 /\
    parse (Lines (take (length ls) (source_lines src))) = (ls, None) /\
    e = match e0 with
        | CompilationError message =>
            CompilationError
              ("Line " +:+ str_of_nat (S (length ls)) +:+ ": " +:+ message)
        | _ => e0
        end.
Proof.
  intros H. unfold parse in H.
  destruct (parse_loop_error _ _ _ _ _ H) as (line & e0 & Hl & Hp & He & Ht).
  exists line, e0. repeat split; assumption.
Qed.

Lemma parse_stops_at_first_error_witness :
  exists line e0,
    ["5"; "Offset 0"; "7"] !! 1%nat = Some line /\
    parse_line (M := example_machine) 1 line = Raise e0 /\
    parse (M := example_machine) (Lines ["5"]) = ([ValueLine 0 5], None) /\
    CompilationError "Line 2: Inavalid offset 0 at 1" =
    match e0 with
    | CompilationError message =>
        CompilationError ("Line " +:+ str_of_nat 2 +:+ ": " +:+ message)
    | _ => e0
    end.
Proof.
  exact (parse_stops_at_first_error example_machine
           (Lines ["5"; "Offset 0"; "7"]) [ValueLine 0 5]
           (CompilationError "Line 2: Inavalid offset 0 at 1") eq_refl).
Defined.

(** ** What the constructors of the lines guarantee *)

Lemma mapM_Ok_Forall2 {A B} (f : A -> result B) xs : forall ys,
  mapM f xs = Ok ys -> Forall2 (fun x y => f x = Ok y) xs ys.
Proof.
  induction xs as [|x xs IH]; intros ys H.
  - injection H as <-. constructor.
  - change (mapM f (x :: xs)) with (y ← f x; k ← mapM f xs; Ok (y :: k)) in H.
    destruct (f x) as [y|] eqn:E; cbn [mbind result_bind] in H; [|discriminate].
    destruct (mapM f xs) as [k|]; cbn [mbind result_bind] in H; [|discriminate].
    injection H as <-. constructor; [exact E | apply IH; reflexivity].
Qed.

Section WellFormed.

Context {M : Machine}.

Lemma int_to_native_number_exact value v :
  int_to_native_number value = Ok v -> v = value /\ NativeNumber_value v = v.
Proof.
  unfold int_to_native_number.
  destruct (Z.eqb_spec value (NativeNumber_value value)) as [E|E];
    cbn [negb]; [|destruct (format_int value); discriminate].
  intros [= <-]. rewrite <- E. auto.
Qed.

Lemma int_to_address_exact value a :
  int_to_address value = Ok a -> a = value /\ Address_value a = a.
Proof.
  unfold int_to_address.
  destruct (Z.eqb_spec value (Address_value value)) as [E|E];
    cbn [negb]; [|destruct (format_int value); discriminate].
  intros [= <-]. rewrite <- E. auto.
Qed.

Lemma parse_number_exact s v :
  parse_number s = Ok v -> NativeNumber_value v = v.
Proof.
  unfold parse_number. intros H.
  destruct (matches HEX_NUMBER_PATTERN s);
    [|destruct (matches NUMBER_PATTERN s); [|discriminate]].
  all: destruct (py_int s _) as [n|]; cbn [mbind result_bind] in H;
    [|discriminate]; apply int_to_native_number_exact in H as [_ H]; exact H.
Qed.

Lemma parse_address_literal_exact s a :
  parse_address_literal s = Ok a -> Address_value a = a.
Proof.
  unfold parse_address_literal. intros H.
  destruct (matches HEX_NUMBER_PATTERN s);
    [|destruct (matches NUMBER_PATTERN s); [|discriminate]].
  all: destruct (py_int s _) as [n|]; cbn [mbind result_bind] in H;
    [|discriminate]; apply int_to_address_exact in H as [_ H]; exact H.
Qed.

Lemma Label_Ok s l : Label s = Ok l -> l = s /\ is_label_text s = true.
Proof.
  unfold Label, is_label_text.
  destruct (matches (Cat Bol (Cat LABEL_PATTERN Eol)) s); [|discriminate].
  intros [= <-]. auto.
Qed.

Lemma parse_address_None_well_formed s w :
  parse_address s None = Ok w -> well_formed_argument w.
Proof.
  unfold parse_address.
  destruct (parse_address_literal s) as [a|e] eqn:E.
  - intros [= <-]. cbn. apply (parse_address_literal_exact _ _ E).
  - destruct e; try discriminate.
    destruct (matches LABEL_PATTERN s); [|discriminate].
    destruct (Label s) as [l|] eqn:El; cbn [mbind result_bind]; [|discriminate].
    intros [= <-]. apply Label_Ok in El as [-> El]. exact El.
Qed.

Lemma new_line_well_formed cls a groups l :
  new_line cls a groups = Ok l -> well_formed_line l.
Proof.
  unfold new_line. intros H.
  destruct cls; destruct groups as [|[g1|] [|[g2|] [|]]]; try discriminate.
  - injection H as <-. exact I.
  - unfold OffsetLine_init in H.
    destruct (parse_address_literal g1) as [offset|] eqn:E;
      cbn [mbind result_bind] in H; [|discriminate].
    destruct (Z.ltb_spec offset a); [discriminate|]. injection H as <-.
    split; [apply (parse_address_literal_exact _ _ E) | assumption].
  - unfold LabelLine_init in H.
    destruct (Label g1) as [label|] eqn:E; cbn [mbind result_bind] in H;
      [|discriminate].
    injection H as <-. apply Label_Ok in E as [-> E]. exact E.
  - unfold ValueLine_init in H.
    destruct (parse_number g1) as [v|] eqn:E; cbn [mbind result_bind] in H;
      [|discriminate].
    injection H as <-. apply (parse_number_exact _ _ E).
  - unfold InstructionLine_init in H.
    destruct (bool_decide (g1 ∈ Instructions)) eqn:Hin; cbn [negb] in H;
      [|discriminate].
    apply bool_decide_eq_true_1 in Hin.
    destruct (instruction_methods g1) as [arg_num|] eqn:Hm; [|discriminate].
    destruct (Nat.eqb_spec arg_num
                (length match g2 with
                        | EmptyString => []
                        | String _ _ => split_on " " (strip g2)
                        end)) as [Hn|Hn]; cbn [negb] in H; [|discriminate].
    destruct (mapM _ _) as [args'|] eqn:Hargs; cbn [mbind result_bind] in H;
      [|discriminate].
    injection H as <-. apply mapM_Ok_Forall2 in Hargs.
    split; [exact Hin|]. split.
    + rewrite Hm, Hn. f_equal. eapply Forall2_length, Hargs.
    + clear Hn. induction Hargs as [|x y xs ys Hxy _ IH]; constructor.
      * apply (parse_address_None_well_formed _ _ Hxy).
      * exact IH.
Qed.

Lemma parse_loop_well_formed lines : forall n a ls e,
  parse_loop n a lines = (ls, e) -> Forall well_formed_line ls.
Proof.
  induction lines as [|line lines IH]; intros n a ls e H; cbn [parse_loop] in H.
  - injection H as <- <-. constructor.
  - destruct (parse_line a line) as [l|e0] eqn:E.
    + destruct (parse_loop (S n) (a + produced_bytes_padded_num l) lines)
        as [ls' e'] eqn:E'.
      injection H as <- <-. constructor; [|eapply IH, E'].
      unfold parse_line in E.
      destruct (first_match classes line) as [[cls groups]|]; [|discriminate].
      apply (new_line_well_formed _ _ _ _ E).
    + injection H as <- <-. constructor.
Qed.

End WellFormed.

(** X2.  What the parsers of literals return is stored exactly by its type:
    a number by [NativeNumber], an address by [Address].  And an argument
    that [parse_address] returns without a table of labels is such an
    address or a label of the form of a label. *)
Theorem parsers_return_exact_values (M : Machine) (s : string) :
  (forall v, parse_number s = Ok v -> NativeNumber_value v = v) /\
  (forall a, parse_address_literal s = Ok a -> Address_value a = a) /\
  (forall w, parse_address s None = Ok w ->
     match w with
     | WAddress a => Address_value a = a
     | WLabel l => is_label_text l = true
     | _ => False
     end).
Proof.
  split; [|split].
  - intros v. apply parse_number_exact.
  - intros a. apply parse_address_literal_exact.
  - intros w. apply parse_address_None_well_formed.
Qed.

Lemma parsers_return_exact_values_witness :
  c_int8_value (-128) = -128 /\ c_uint8_value 255 = 255.
Proof.
  destruct (parsers_return_exact_values example_machine "-0x80") as [H1 _].
  destruct (parsers_return_exact_values example_machine "0xFF") as (_ & H2 & _).
  split; [apply (H1 (-128)) | apply (H2 255)]; reflexivity.
Defined.

(** X3.  Every line [parse] yields, also before an error, is well formed:
    the value of a value line is stored exactly by [NativeNumber]; the
    offset of an offset line is stored exactly by [Address] and is not below
    the address of the line; the label of a label line has the form of a
    label; the instruction of an instruction line is in the catalog, the
    number of its arguments is the one the catalog gives, and each argument
    is an exact address or a label. *)
Theorem parse_yields_well_formed_lines (M : Machine) (src : Source)
    (ls : list Line) (e : option exn) :
  parse src = (ls, e) -> Forall well_formed_line ls.
Proof. unfold parse. apply parse_loop_well_formed. Qed.

Lemma parse_yields_well_formed_lines_witness :
  Forall (well_formed_line (M := example_machine))
    [LabelLine 0 "a:"; InstructionLine 0 "ADD" [WLabel "a:"; WAddress 7];
     OffsetLine 3 5].
Proof.
  exact (parse_yields_well_formed_lines example_machine
           (Lines ["a:"; "ADD a: 7"; "Offset 5"; "300"])
           [LabelLine 0 "a:"; InstructionLine 0 "ADD" [WLabel "a:"; WAddress 7];
            OffsetLine 3 5]
           (Some (CompilationError "Line 4: Value 300 is out of range"))
           eq_refl).
Defined.

(** ** The output of [compile] *)

Section Output.

Context {M : Machine}.

Lemma resolve_Ok labels w w' :
  resolve labels w = Ok w' ->
  is_Label w' = false /\
  match w with
  | WLabel name => exists a, labels !! name = Some a /\ w' = WAddress a
  | _ => w' = w
  end.
Proof.
  destruct w as [i|v|v|name]; cbn [resolve].
  1-3: intros [= <-]; split; reflexivity.
  destruct (labels !! name) as [a|]; [|discriminate].
  intros [= <-]. split; [reflexivity | eauto].
Qed.

Lemma mapM_resolve_Ok labels ws ws' :
  mapM (resolve labels) ws = Ok ws' ->
  length ws' = length ws /\ Forall (fun w => is_Label w = false) ws'.
Proof.
  intros H. apply mapM_Ok_Forall2 in H. split.
  - symmetry. eapply Forall2_length, H.
  - induction H as [|w w' ws ws' Hw _ IH]; constructor; [|exact IH].
    apply (resolve_Ok _ _ _ Hw).
Qed.

Lemma second_pass_cons labels l parsed :
  second_pass labels (l :: parsed) =
  (bytes ← produce_bytes_padded l;
   ws ← mapM (resolve labels) bytes;
   wss ← second_pass labels parsed;
   Ok (ws ++ wss)).
Proof.
  unfold second_pass.
  match goal with |- context [mapM ?f (l :: parsed)] =>
    change (mapM f (l :: parsed)) with (y ← f l; k ← mapM f parsed; Ok (y :: k))
  end.
  cbv beta. destruct (produce_bytes_padded l) as [bytes|];
    cbn [mbind result_bind]; [|reflexivity].
  destruct (mapM (resolve labels) bytes) as [ws|]; cbn [mbind result_bind];
    [|reflexivity].
  destruct (mapM _ parsed) as [wss|]; reflexivity.
Qed.

Lemma second_pass_app labels xs : forall ys ws,
  second_pass labels (xs ++ ys) = Ok ws ->
  exists ws1 ws2,
    second_pass labels xs = Ok ws1 /\ second_pass labels ys = Ok ws2 /\
    ws = ws1 ++ ws2.
Proof.
  induction xs as [|l xs IH]; intros ys ws H.
  - exists [], ws. auto.
  - cbn [app] in H. rewrite second_pass_cons in H. rewrite second_pass_cons.
    destruct (produce_bytes_padded l) as [bytes|]; cbn [mbind result_bind] in *;
      [|discriminate].
    destruct (mapM (resolve labels) bytes) as [w|];
      cbn [mbind result_bind] in *; [|discriminate].
    destruct (second_pass labels (xs ++ ys)) as [wss|] eqn:E;
      cbn [mbind result_bind] in H; [|discriminate].
    injection H as <-.
    destruct (IH _ _ E) as (ws1 & ws2 & -> & -> & ->).
    cbn [mbind result_bind]. exists (w ++ ws1), ws2.
    rewrite app_assoc. auto.
Qed.

Lemma length_padded_words l :
  fits l -> Z.of_nat (length (padded_words l)) = produced_bytes_padded_num l.
Proof.
  unfold fits, padded_words. intros H.
  rewrite length_app, length_replicate. lia.
Qed.

Lemma second_pass_Ok labels parsed : forall ws,
  Forall fits parsed ->
  second_pass labels parsed = Ok ws ->
  Z.of_nat (length ws) = padded_sum parsed /\
  Forall (fun w => is_Label w = false) ws.
Proof.
  induction parsed as [|l parsed IH]; intros ws Hfits H.
  - injection H as <-. split; [reflexivity | constructor].
  - inversion Hfits as [|? ? Hl Hfits']; subst.
    rewrite second_pass_cons, (produce_bytes_padded_fits l Hl) in H.
    cbn [mbind result_bind] in H.
    destruct (mapM (resolve labels) (padded_words l)) as [w|] eqn:E;
      cbn [mbind result_bind] in H; [|discriminate].
    destruct (second_pass labels parsed) as [wss|] eqn:E';
      cbn [mbind result_bind] in H; [|discriminate].
    injection H as <-.
    destruct (mapM_resolve_Ok _ _ _ E) as [Hlen Hno].
    destruct (IH wss Hfits' eq_refl) as [Hlen' Hno'].
    split.
    + rewrite length_app, padded_sum_cons, Nat2Z.inj_add, Hlen, Hlen'.
      rewrite (length_padded_words l Hl). reflexivity.
    + apply Forall_app. split; assumption.
Qed.

(** The first pass: the last label line of a name gives its address. *)
Lemma label_table_app_last before a name after :
  (forall a', LabelLine a' name ∉ after) ->
  label_table (before ++ LabelLine a name :: after) !! name = Some a.
Proof.
  intros Hafter. unfold label_table. rewrite foldl_app. cbn [foldl].
  match goal with |- foldl ?f (<[name:=a]> ?m) after !! name = _ =>
    assert (E : <[name:=a]> m !! name = Some a) by apply lookup_insert_eq;
    generalize dependent (<[name:=a]> m); set (step := f)
  end.
  induction after as [|l after IH]; intros labels0 H0; cbn [foldl]; [exact H0|].
  apply IH.
  - intros a' Hin. apply (Hafter a'). right. exact Hin.
  - subst step. destruct l as [| |a0 name0| |]; try exact H0.
    rewrite lookup_insert_ne; [exact H0|].
    intros ->. apply (Hafter a0). left.
Qed.

End Output.



(** X5.  The layout of the output.  When [compile] succeeds, the number of
    words it returns is the sum of the padded word counts of the lines.
    And for every line whose counter [Address] stores exactly, the address
    of the line is the number of words the lines before it give: the output
    is these words followed by the words of the line and of the lines after
    it. *)
Theorem compile_layout (M : Machine) (src : Source) (parsed : list Line)
    (ws : list Word) :
  parse src = (parsed, None) ->
  compile src = Ok ws ->
  Z.of_nat (length ws) = padded_sum parsed /\
  forall before l after,
    parsed = before ++ l :: after ->
    Address_value (padded_sum before) = padded_sum before ->
    exists ws1 ws2,
      ws = ws1 ++ ws2 /\
      second_pass (label_table parsed) before = Ok ws1 /\
      second_pass (label_table parsed) (l :: after) = Ok ws2 /\
      Z.of_nat (length ws1) = line_address_of l.
Proof.
  intros P H. unfold compile in H. rewrite P in H.
  cbn [list_of mbind result_bind] in H.
  assert (Hfits : Forall fits parsed)
    by (unfold parse in P; eapply parse_loop_fits, P).
  split; [apply (second_pass_Ok _ _ _ Hfits H)|].
  intros before l after -> Hexact.
  destruct (second_pass_app _ _ _ _ H) as (ws1 & ws2 & H1 & H2 & ->).
  exists ws1, ws2. repeat split; try assumption.
  apply Forall_app in Hfits as [Hb _].
  rewrite (proj1 (second_pass_Ok _ _ _ Hb H1)).
  unfold parse in P.
  rewrite (parse_loop_addresses _ _ _ _ _ P (length before) l).
  - rewrite take_app_length. rewrite Z.add_0_l. symmetry. exact Hexact.
  - rewrite list_lookup_middle; reflexivity.
Qed.

Lemma compile_layout_witness :
  exists ws1 ws2,
    [WInstruction "JMP"; WAddress 2; WNativeNumber 5] = ws1 ++ ws2 /\
    second_pass (M := example_machine) {["a:" := 2]} [InstructionLine 0 "JMP" [WLabel "a:"]] = Ok ws1 /\
    second_pass (M := example_machine) {["a:" := 2]} [LabelLine 2 "a:"; ValueLine 2 5] = Ok ws2 /\
    Z.of_nat (length ws1) = 2.
Proof.
  refine (proj2 (compile_layout example_machine (Lines ["JMP a:"; "a:"; "5"])
            [InstructionLine 0 "JMP" [WLabel "a:"]; LabelLine 2 "a:"; ValueLine 2 5]
            [WInstruction "JMP"; WAddress 2; WNativeNumber 5] eq_refl eq_refl)
          [InstructionLine 0 "JMP" [WLabel "a:"]] (LabelLine 2 "a:")
          [ValueLine 2 5] eq_refl eq_refl).
Defined.

(** X6.  The table of the first pass binds a label to the address of the
    last label line that declares it, and the second pass replaces the
    label by this address. *)
Theorem label_table_last_declaration (before after : list Line)
    (a : Z) (name : string) :
  (forall a', LabelLine a' name ∉ after) ->
  label_table (before ++ LabelLine a name :: after) !! name = Some a /\
  resolve (label_table (before ++ LabelLine a name :: after)) (WLabel name) =
    Ok (WAddress a).
Proof.
  intros H. pose proof (label_table_app_last before a name after H) as E.
  split; [exact E|]. cbn [resolve]. rewrite E. reflexivity.
Qed.

Lemma label_table_last_declaration_witness :
  resolve
    (label_table [LabelLine 0 "a:"; ValueLine 0 5; LabelLine 1 "a:"; LabelLine 1 "b:"])
    (WLabel "a:") = Ok (WAddress 1).
Proof.
  apply (label_table_last_declaration
           [LabelLine 0 "a:"; ValueLine 0 5] [LabelLine 1 "b:"] 1 "a:").
  intros a' H. apply elem_of_cons in H as [H|H]; [discriminate | inversion H].
Defined.

(** ** The matcher finds only matches of the pattern *)

Lemma star_loop_sound r m :
  (forall rest caps k x, m rest caps k = Some x ->
     exists rest', consumes r rest rest' /\ k rest' caps = Some x) ->
  forall fuel rest caps k x,
    star_loop m fuel rest caps k = Some x ->
    exists rest', consumes (Star r) rest rest' /\ k rest' caps = Some x.
Proof.
  intros Hm. induction fuel as [|fuel IH]; intros rest caps k x H;
    cbn [star_loop] in H.
  - exists rest. split; [constructor | exact H].
  - destruct (m rest caps _) as [c|] eqn:E.
    + injection H as ->. apply Hm in E as (rest1 & H1 & E).
      destruct (String.length rest1 <? String.length rest)%nat; [|discriminate].
      apply IH in E as (rest2 & H2 & E).
      exists rest2. split; [econstructor; eassumption | exact E].
    + exists rest. split; [constructor | exact H].
Qed.

(** A pattern without groups leaves the captures as they are, and what it
    has matched is a prefix the pattern consumes. *)
Lemma rmatch_sound subject r : group_free r = true ->
  forall rest caps k x,
    rmatch subject r rest caps k = Some x ->
    exists rest', consumes r rest rest' /\ k rest' caps = Some x.
Proof.
  induction r as [| c | p | | r1 IH1 r2 IH2 | r1 IH1 r2 IH2 | r IH | i r IH | |];
    cbn [group_free]; intros G rest caps k x H; cbn [rmatch] in H.
  - exists rest. split; [constructor | exact H].
  - destruct rest as [|c' rest]; [discriminate|].
    destruct (Ascii.eqb_spec c' c) as [->|]; [|discriminate].
    exists rest. split; [constructor | exact H].
  - destruct rest as [|c' rest]; [discriminate|].
    destruct (p c') eqn:E; [|discriminate].
    exists rest. split; [constructor; exact E | exact H].
  - destruct rest as [|c' rest]; [discriminate|].
    destruct (Ascii.eqb_spec c' newline) as [|Hne]; [discriminate|].
    exists rest. split; [constructor; exact Hne | exact H].
  - apply andb_prop in G as [G1 G2].
    apply (IH1 G1) in H as (rest1 & H1 & H).
    apply (IH2 G2) in H as (rest2 & H2 & H).
    exists rest2. split; [econstructor; eassumption | exact H].
  - apply andb_prop in G as [G1 G2].
    destruct (rmatch subject r1 rest caps k) as [c|] eqn:E.
    + injection H as ->. apply (IH1 G1) in E as (rest1 & H1 & E).
      exists rest1. split; [apply consumes_Alt_l, H1 | exact E].
    + apply (IH2 G2) in H as (rest2 & H2 & H).
      exists rest2. split; [apply consumes_Alt_r, H2 | exact H].
  - eapply star_loop_sound; [|exact H]. intros. eapply IH; eassumption.
  - discriminate.
  - destruct (_ =? _)%nat; [|discriminate].
    exists rest. split; [constructor | exact H].
  - exists rest. split; [|destruct rest as [|c [|c' rest]]; try discriminate;
                          [exact H | destruct (Ascii.eqb c newline); [exact H | discriminate]]].
    constructor. destruct rest as [|c [|c' rest]]; try discriminate;
      [reflexivity | cbn; destruct (Ascii.eqb c newline); [reflexivity | discriminate]].
Qed.

Lemma ngroups_group_free r : group_free r = true -> ngroups r = 0%nat.
Proof.
  induction r; cbn; intros G; try reflexivity; try discriminate.
  - apply andb_prop in G as [G1 G2]. rewrite IHr1, IHr2 by assumption. reflexivity.
  - apply andb_prop in G as [G1 G2]. rewrite IHr1, IHr2 by assumption. reflexivity.
  - auto.
Qed.

(** *** Texts and their lengths *)

Lemma append_cons c s t : String c s +:+ t = String c (s +:+ t).
Proof. reflexivity. Qed.

Lemma append_nil_l t : "" +:+ t = t.
Proof. reflexivity. Qed.

Lemma append_nil_r s : s +:+ "" = s.
Proof. induction s as [|c s IH]; [reflexivity|]. rewrite append_cons, IH. reflexivity. Qed.

Lemma append_assoc s t u : (s +:+ t) +:+ u = s +:+ (t +:+ u).
Proof.
  induction s as [|c s IH]; [reflexivity|]. rewrite !append_cons, IH. reflexivity.
Qed.

Lemma length_append s t :
  String.length (s +:+ t) = (String.length s + String.length t)%nat.
Proof.
  induction s as [|c s IH]; [reflexivity|].
  rewrite append_cons. cbn [String.length]. rewrite IH. reflexivity.
Qed.

Lemma take_string_append s t :
  take_string (String.length (s +:+ t) - String.length t) (s +:+ t) = s.
Proof.
  rewrite length_append.
  replace (String.length s + String.length t - String.length t)%nat
    with (String.length s) by lia.
  induction s as [|c s IH].
  - destruct t; reflexivity.
  - rewrite append_cons. cbn [String.length take_string]. rewrite IH. reflexivity.
Qed.

Lemma all_chars_cons p c s : all_chars p (String c s) = p c && all_chars p s.
Proof. reflexivity. Qed.

Lemma all_chars_append p s t :
  all_chars p (s +:+ t) = all_chars p s && all_chars p t.
Proof.
  induction s as [|c s IH]; [reflexivity|].
  rewrite append_cons, !all_chars_cons, IH, andb_assoc. reflexivity.
Qed.

(** What is consumed is a prefix of the text. *)
Lemma consumes_prefix r s s' : consumes r s s' -> exists w, s = w +:+ s'.
Proof.
  induction 1 as [s | c s | p c s Hp | c s Hc
                 | r1 r2 s s' s'' _ [w1 ->] _ [w2 ->]
                 | r1 r2 s s' _ IH | r1 r2 s s' _ IH
                 | r s | r s s' s'' _ [w1 ->] _ [w2 ->]
                 | i r s s' _ IH | s | s Hs];
    try (exists ""; reflexivity); try exact IH.
  - exists (String c ""). reflexivity.
  - exists (String c ""). reflexivity.
  - exists (String c ""). reflexivity.
  - exists (w1 +:+ w2). rewrite append_assoc. reflexivity.
  - exists (w1 +:+ w2). rewrite append_assoc. reflexivity.
Qed.

Lemma append_inv_r w1 w2 s : w1 +:+ s = w2 +:+ s -> w1 = w2.
Proof.
  intros H.
  rewrite <- (take_string_append w1 s), <- (take_string_append w2 s), H.
  reflexivity.
Qed.

(** *** What the patterns of the grammar consume *)

Lemma consumes_Star_Class p s s' :
  consumes (Star (Class p)) s s' ->
  exists w, s = w +:+ s' /\ all_chars p w = true.
Proof.
  intros H. remember (Star (Class p)) as r eqn:Er.
  induction H as [| | | | | | | r s | r s s' s'' H1 _ H2 IH | | |];
    try discriminate; injection Er as ->.
  - exists "". auto.
  - destruct (IH eq_refl) as (w & -> & Hw).
    inversion H1; subst.
    exists (String c w). split; [reflexivity|].
    rewrite all_chars_cons, Hw, andb_true_r. assumption.
Qed.

Lemma consumes_Lit t s s' : consumes (Lit t) s s' -> s = t +:+ s'.
Proof.
  revert s. induction t as [|c t IH]; intros s H; cbn [Lit] in H.
  - inversion H; subst. reflexivity.
  - inversion H as [| | | |? ? ? s1 ? H1 H2| | | | | | |]; subst.
    inversion H1; subst. rewrite append_cons, (IH _ H2). reflexivity.
Qed.

Lemma consumes_Plus_Class p s s' :
  consumes (Plus (Class p)) s s' ->
  exists c w, s = String c (w +:+ s') /\ p c = true /\ all_chars p w = true.
Proof.
  unfold Plus. intros H.
  inversion H as [| | | |? ? ? s1 ? H1 H2| | | | | | |]; subst.
  inversion H1; subst.
  apply consumes_Star_Class in H2 as (w & -> & Hw).
  eauto.
Qed.

Lemma consumes_Opt_sign s s' :
  consumes (Opt (Class is_sign)) s s' ->
  exists sg, s = with_sign sg s'.
Proof.
  unfold Opt. intros H. inversion H as [| | | | |? ? ? ? H1|? ? ? ? H1| | | | |]; subst.
  - inversion H1 as [| |? c ? Hc| | | | | | | | |]; subst.
    unfold is_sign in Hc. apply orb_prop in Hc as [Hc|Hc];
      apply Ascii.eqb_eq in Hc; subst;
      [exists MinusSign | exists PlusSign]; reflexivity.
  - inversion H1; subst. exists NoSign. reflexivity.
Qed.

(** *** Digits and literals, from their characters *)

Lemma digit_of_char_hex c :
  is_hex_digit c = true ->
  (digit (digit_of_char c) < 16)%nat /\ digit_char (digit_of_char c) = c.
Proof.
  destruct c as [[] [] [] [] [] [] [] []]; intros H;
    try (vm_compute in H; discriminate H);
    (split; [vm_compute; lia | reflexivity]).
Qed.

Lemma digit_of_char_dec c :
  is_digit c = true ->
  (digit (digit_of_char c) < 10)%nat /\ digit_char (digit_of_char c) = c.
Proof.
  destruct c as [[] [] [] [] [] [] [] []]; intros H;
    try (vm_compute in H; discriminate H);
    (split; [vm_compute; lia | reflexivity]).
Qed.

Lemma digits_of_chars r (p : ascii -> bool) w :
  (forall c, p c = true ->
     Z.of_nat (digit (digit_of_char c)) < r /\ digit_char (digit_of_char c) = c) ->
  all_chars p w = true ->
  digits_text (digit_of_char <$> list_ascii_of_string w) = w /\
  forallb (fun d => Z.of_nat (digit d) <? r)
    (digit_of_char <$> list_ascii_of_string w) = true.
Proof.
  intros Hp. induction w as [|c w IH]; intros Hw; [split; reflexivity|].
  rewrite all_chars_cons in Hw. apply andb_prop in Hw as [Hc Hw].
  destruct (IH Hw) as [IH1 IH2]. destruct (Hp c Hc) as [Hd1 Hd2].
  cbn [list_ascii_of_string fmap list_fmap digits_text forallb].
  change (list_fmap ascii Digit digit_of_char (list_ascii_of_string w))
    with (digit_of_char <$> list_ascii_of_string w).
  rewrite IH1, IH2, Hd2. split; [reflexivity|].
  rewrite andb_true_r. apply Z.ltb_lt, Hd1.
Qed.

Lemma with_sign_append sg s t : with_sign sg s +:+ t = with_sign sg (s +:+ t).
Proof. destruct sg; reflexivity. Qed.

(** What the number pattern consumes is the text of a literal. *)
Lemma consumes_NUMBER s s' :
  consumes NUMBER_PATTERN s s' ->
  exists l, valid_literal l = true /\ s = literal_text l +:+ s'.
Proof.
  unfold NUMBER_PATTERN, DEC_NUMBER_PATTERN, HEX_NUMBER_PATTERN.
  intros H. inversion H as [| | | | |? ? ? ? H1|? ? ? ? H1| | | | |]; subst.
  - inversion H1 as [| | | |? ? ? s1 ? Hs Hd| | | | | | |]; subst.
    apply consumes_Opt_sign in Hs as [sg ->].
    apply consumes_Plus_Class in Hd as (c & w & -> & Hc & Hw).
    destruct (digits_of_chars 10 is_digit (String c w)) as [Ht Hv].
    { intros x Hx. destruct (digit_of_char_dec x Hx). split; [lia | assumption]. }
    { rewrite all_chars_cons, Hc, Hw. reflexivity. }
    exists {| lit_sign := sg; lit_base := Decimal;
              lit_digits := digit_of_char <$> list_ascii_of_string (String c w) |}.
    split; [exact Hv|].
    unfold literal_text. cbn [lit_sign lit_base lit_digits with_prefix].
    rewrite Ht, with_sign_append. reflexivity.
  - inversion H1 as [| | | |? ? ? s1 ? Hs Hd| | | | | | |]; subst.
    apply consumes_Opt_sign in Hs as [sg ->].
    inversion Hd as [| | | |? ? ? s2 ? Hx Hh| | | | | | |]; subst.
    apply (consumes_Lit "0x") in Hx as ->.
    apply consumes_Plus_Class in Hh as (c & w & -> & Hc & Hw).
    destruct (digits_of_chars 16 is_hex_digit (String c w)) as [Ht Hv].
    { intros x Hx. destruct (digit_of_char_hex x Hx). split; [lia | assumption]. }
    { rewrite all_chars_cons, Hc, Hw. reflexivity. }
    exists {| lit_sign := sg; lit_base := Hexadecimal;
              lit_digits := digit_of_char <$> list_ascii_of_string (String c w) |}.
    split; [exact Hv|].
    unfold literal_text. cbn [lit_sign lit_base lit_digits with_prefix].
    rewrite Ht, with_sign_append. reflexivity.
Qed.

(** What the label pattern consumes is an identifier and a colon. *)
Lemma consumes_LABEL s s' :
  consumes LABEL_PATTERN s s' ->
  exists c w, s = String c (w +:+ ":") +:+ s' /\
    is_identifier_first c = true /\ all_chars is_identifier_char w = true.
Proof.
  unfold LABEL_PATTERN, IDENTIFIER_FIRST_CHARACTER_PATTERN,
    IDENTIFIER_CHARACTER_PATTERN.
  intros H. inversion H as [| | | |? ? ? s1 ? Hc Hr| | | | | | |]; subst.
  inversion Hc; subst.
  inversion Hr as [| | | |? ? ? s2 ? Hw Hcolon| | | | | | |]; subst.
  apply consumes_Star_Class in Hw as (w & -> & Hw).
  inversion Hcolon; subst.
  exists c, w. split; [|auto].
  rewrite append_cons, append_assoc. reflexivity.
Qed.

Lemma consumes_ADDRESS s s' :
  consumes ADDRESS_PATTERN s s' -> exists tok, is_token tok /\ s = tok +:+ s'.
Proof.
  unfold ADDRESS_PATTERN, ADDRESS_LITERAL_PATTERN. intros H.
  inversion H as [| | | | |? ? ? ? H1|? ? ? ? H1| | | | |]; subst.
  - apply consumes_NUMBER in H1 as (l & Hl & ->).
    exists (literal_text l). split; [left; eauto | reflexivity].
  - apply consumes_LABEL in H1 as (c & w & -> & Hc & Hw).
    exists (String c (w +:+ ":")). split; [right; eauto | reflexivity].
Qed.

(** What the pattern of the arguments consumes. *)
Lemma consumes_arguments s s' :
  consumes (Star (Cat (Plus (Char " ")) ADDRESS_PATTERN)) s s' ->
  exists w, s = w +:+ s' /\ args_text w.
Proof.
  intros H. remember (Star (Cat (Plus (Char " ")) ADDRESS_PATTERN)) as r eqn:Er.
  induction H as [| | | | | | | r s | r s s' s'' H1 _ H2 IH | | |];
    try discriminate; injection Er as ->.
  - exists "". split; [reflexivity | constructor].
  - destruct (IH eq_refl) as (w & -> & Hw).
    inversion H1 as [| | | |? ? ? s1 ? Hsp Hadr| | | | | | |]; subst.
    apply consumes_ADDRESS in Hadr as (tok & Htok & ->).
    unfold Plus in Hsp.
    inversion Hsp as [| | | |? ? ? s2 ? Hc Hstar| | | | | | |]; subst.
    inversion Hc; subst.
    assert (Hsp' : exists sp, s2 = sp +:+ (tok +:+ w +:+ s'') /\
                     all_chars (fun x => Ascii.eqb x " ") sp = true).
    { clear -Hstar. remember (Star (Char " ")) as r eqn:Er.
      induction Hstar as [| | | | | | | r s | r s s1 s2 H1 _ H2 IH | | |];
        try discriminate; injection Er as ->.
      - exists "". auto.
      - destruct (IH eq_refl) as (sp & -> & Hsp). inversion H1; subst.
        exists (String " " sp). split; [reflexivity|].
        rewrite all_chars_cons, Hsp. reflexivity. }
    destruct Hsp' as (sp & -> & Hspaces).
    exists (String " " sp +:+ tok +:+ w). split.
    + rewrite !append_cons, !append_assoc. reflexivity.
    + constructor; [|assumption..]. rewrite all_chars_cons, Hspaces. reflexivity.
Qed.

(** *** The groups of the patterns of the lines *)

Section Groups.

Context {M : Machine}.

Lemma group_free_LINE_END : group_free LINE_END_PATTERN = true.
Proof. reflexivity. Qed.

Lemma group_free_INDENTATION : group_free INDENTATION_PATTERN = true.
Proof. reflexivity. Qed.

Lemma group_free_NUMBER : group_free NUMBER_PATTERN = true.
Proof. reflexivity. Qed.

Lemma group_free_LABEL : group_free LABEL_PATTERN = true.
Proof. reflexivity. Qed.

Lemma group_free_Lit s : group_free (Lit s) = true.
Proof. induction s as [|c s IH]; [reflexivity | exact IH]. Qed.

Lemma group_free_names names : group_free (Alts (Lit <$> names)) = true.
Proof.
  induction names as [|n [|n' names] IH]; [reflexivity | apply group_free_Lit |].
  change (group_free (Alts (Lit <$> n :: n' :: names)))
    with (group_free (Lit n) && group_free (Alts (Lit <$> n' :: names))).
  rewrite group_free_Lit, IH. reflexivity.
Qed.

(** The final continuation of [re_match] after a pattern without groups. *)
Lemma rmatch_sound_end subject r rest caps x :
  group_free r = true ->
  rmatch subject r rest caps (fun _ caps' => Some caps') = Some x ->
  x = caps /\ exists rest', consumes r rest rest'.
Proof.
  intros G H. apply (rmatch_sound _ _ G) in H as (rest' & H' & [= <-]). eauto.
Qed.

Lemma empty_line_groups line groups :
  re_match (Pattern CEmptyLine) line = Some groups -> groups = [].
Proof.
  unfold re_match. intros H.
  apply rmatch_sound_end in H as [-> _]; reflexivity.
Qed.

Lemma value_line_groups line groups :
  re_match (Pattern CValueLine) line = Some groups ->
  exists l, valid_literal l = true /\ groups = [Some (literal_text l)].
Proof.
  unfold re_match.
  change (replicate (ngroups (Pattern CValueLine)) None)
    with [@None string].
  cbn [Pattern rmatch]. intros H.
  apply (rmatch_sound _ _ group_free_INDENTATION) in H as (s1 & _ & H).
  apply (rmatch_sound _ _ group_free_NUMBER) in H as (s2 & H2 & H).
  apply (rmatch_sound_end _ _ _ _ _ group_free_LINE_END) in H as [-> _].
  apply consumes_NUMBER in H2 as (l & Hl & ->).
  exists l. split; [exact Hl|]. rewrite take_string_append. reflexivity.
Qed.

Lemma offset_line_groups line groups :
  re_match (Pattern COffsetLine) line = Some groups ->
  exists l, valid_literal l = true /\ groups = [Some (literal_text l)].
Proof.
  unfold re_match.
  change (replicate (ngroups (Pattern COffsetLine)) None)
    with [@None string].
  cbn [Pattern rmatch]. intros H.
  apply (rmatch_sound _ _ group_free_INDENTATION) in H as (s1 & _ & H).
  apply (rmatch_sound _ (Lit "Offset") (group_free_Lit _)) in H as (s2 & _ & H).
  apply (rmatch_sound _ (Plus SPACER_CHARACTER_PATTERN) eq_refl) in H
    as (s3 & _ & H).
  apply (rmatch_sound _ ADDRESS_LITERAL_PATTERN group_free_NUMBER) in H
    as (s4 & H4 & H).
  apply (rmatch_sound_end _ _ _ _ _ group_free_LINE_END) in H as [-> _].
  apply consumes_NUMBER in H4 as (l & Hl & ->).
  exists l. split; [exact Hl|]. rewrite take_string_append. reflexivity.
Qed.

Lemma label_line_groups line groups :
  re_match (Pattern CLabelLine) line = Some groups ->
  exists c w, groups = [Some (String c (w +:+ ":"))] /\
    is_identifier_first c = true /\ all_chars is_identifier_char w = true.
Proof.
  unfold re_match.
  change (replicate (ngroups (Pattern CLabelLine)) None)
    with [@None string].
  cbn [Pattern rmatch]. intros H.
  apply (rmatch_sound _ _ group_free_INDENTATION) in H as (s1 & _ & H).
  apply (rmatch_sound _ _ group_free_LABEL) in H as (s2 & H2 & H).
  apply (rmatch_sound_end _ _ _ _ _ group_free_LINE_END) in H as [-> _].
  apply consumes_LABEL in H2 as (c & w & -> & Hc & Hw).
  exists c, w. split; [|auto]. rewrite take_string_append. reflexivity.
Qed.

Lemma instruction_line_groups line groups :
  re_match (Pattern CInstructionLine) line = Some groups ->
  exists name args_str,
    groups = [Some name; Some args_str] /\ args_text args_str.
Proof.
  unfold re_match.
  assert (G : ngroups (Pattern CInstructionLine) = 2%nat).
  { cbn [Pattern ngroups INDENTATION_PATTERN LINE_END_PATTERN Plus Opt
         SPACER_CHARACTER_PATTERN ADDRESS_PATTERN].
    unfold INSTRUCTION_NAME_PATTERN. rewrite ngroups_names. reflexivity. }
  rewrite G. change (replicate 2 None) with [@None string; None].
  cbn [Pattern rmatch]. intros H.
  apply (rmatch_sound _ _ group_free_INDENTATION) in H as (s1 & _ & H).
  apply (rmatch_sound _ INSTRUCTION_NAME_PATTERN (group_free_names _)) in H
    as (s2 & H2 & H).
  apply (rmatch_sound line (Star (Cat (Plus (Char " ")) ADDRESS_PATTERN))
           eq_refl) in H as (s3 & H3 & H).
  apply (rmatch_sound_end _ _ _ _ _ group_free_LINE_END) in H as [-> _].
  apply consumes_arguments in H3 as (w & -> & Hw).
  eexists _, w. split; [|exact Hw].
  rewrite take_string_append. reflexivity.
Qed.

End Groups.

(** *** The tokens of the arguments *)

Lemma identifier_char_facts c :
  is_identifier_char c = true ->
  is_py_space c = false /\ Ascii.eqb c " " = false.
Proof.
  destruct c as [[] [] [] [] [] [] [] []]; intros H;
    try (vm_compute in H; discriminate H); split; reflexivity.
Qed.

Lemma identifier_first_facts c :
  is_identifier_first c = true ->
  is_identifier_char c = true /\ is_sign c = false /\ is_digit c = false.
Proof.
  destruct c as [[] [] [] [] [] [] [] []]; intros H;
    try (vm_compute in H; discriminate H); repeat split; reflexivity.
Qed.

Lemma all_chars_impl (p q : ascii -> bool) s :
  (forall c, p c = true -> q c = true) ->
  all_chars p s = true -> all_chars q s = true.
Proof.
  intros Hpq. induction s as [|c s IH]; [reflexivity|].
  rewrite !all_chars_cons. intros H. apply andb_prop in H as [Hc Hs].
  rewrite (Hpq c Hc), (IH Hs). reflexivity.
Qed.

(** A token is not empty and has no white space in it. *)
Lemma token_no_space t :
  is_token t ->
  t <> "" /\ all_chars (fun c => negb (is_py_space c)) t = true.
Proof.
  intros [(l & Hl & ->)|(c & w & -> & Hc & Hw)].
  - destruct (valid_literal_digits l Hl) as [Hne Hds]. split.
    + unfold literal_text. destruct (lit_sign l), (lit_base l);
        cbn [with_sign with_prefix]; try discriminate;
        destruct (lit_digits l); try congruence; discriminate.
    + apply (literal_text_no_space l Hds).
  - split; [discriminate|].
    destruct (identifier_first_facts c Hc) as (Hc' & _ & _).
    rewrite all_chars_cons, all_chars_append.
    destruct (identifier_char_facts c Hc') as [-> _]. cbn [negb andb].
    rewrite andb_true_r.
    apply (all_chars_impl is_identifier_char); [|exact Hw].
    intros x Hx. destruct (identifier_char_facts x Hx) as [-> _]. reflexivity.
Qed.

Lemma no_space_not_blank c : is_py_space c = false -> Ascii.eqb c " " = false.
Proof.
  intros H. destruct (Ascii.eqb_spec c " ") as [->|]; [discriminate H | reflexivity].
Qed.

Lemma lstrip_spaces sp s :
  all_chars (fun x => Ascii.eqb x " ") sp = true -> lstrip (sp +:+ s) = lstrip s.
Proof.
  induction sp as [|c sp IH]; [reflexivity|].
  rewrite all_chars_cons. intros H. apply andb_prop in H as [Hc Hsp].
  apply Ascii.eqb_eq in Hc as ->. rewrite append_cons. cbn [lstrip].
  change (is_py_space " ") with true. cbv iota. apply IH, Hsp.
Qed.

Lemma rstrip_append a b :
  b <> "" -> rstrip b = b -> rstrip (a +:+ b) = a +:+ b.
Proof.
  intros Hne Hb. induction a as [|c a IH]; [exact Hb|].
  rewrite append_cons. cbn [rstrip]. rewrite IH.
  destruct (a +:+ b) eqn:E; [|reflexivity].
  destruct a; [rewrite append_nil_l in E; congruence | discriminate E].
Qed.

Lemma strip_token_start t s :
  is_token t -> (s = "" \/ (s <> "" /\ rstrip s = s)) ->
  strip (t +:+ s) = t +:+ s.
Proof.
  intros Ht Hs. destruct (token_no_space t Ht) as [Hne Hsp].
  unfold strip.
  assert (L : lstrip (t +:+ s) = t +:+ s).
  { destruct t as [|c t]; [congruence|]. rewrite all_chars_cons in Hsp.
    apply andb_prop in Hsp as [Hc _]. apply negb_true_iff in Hc.
    rewrite append_cons. cbn [lstrip]. rewrite Hc. reflexivity. }
  rewrite L. destruct Hs as [->|[Hs1 Hs2]].
  - rewrite append_nil_r. apply rstrip_no_space, Hsp.
  - apply rstrip_append; assumption.
Qed.

Lemma args_text_rstrip w :
  args_text w -> w = "" \/ (w <> "" /\ rstrip w = w).
Proof.
  induction 1 as [|c sp tok rest Hsp Htok _ IH]; [left; reflexivity|].
  right. split; [rewrite append_cons; discriminate|].
  destruct (token_no_space tok Htok) as [Hne Hns].
  destruct IH as [->|[Hr1 Hr2]].
  - rewrite append_nil_r. apply rstrip_append; [exact Hne|].
    apply rstrip_no_space, Hns.
  - rewrite <- append_assoc. apply rstrip_append; assumption.
Qed.

Lemma split_on_spaces sp s :
  all_chars (fun x => Ascii.eqb x " ") sp = true ->
  split_on " " (sp +:+ s) = replicate (String.length sp) "" ++ split_on " " s.
Proof.
  induction sp as [|c sp IH]; [reflexivity|].
  rewrite all_chars_cons. intros H. apply andb_prop in H as [Hc Hsp].
  rewrite append_cons. cbn [split_on String.length replicate app].
  rewrite Hc, (IH Hsp). reflexivity.
Qed.

Lemma split_on_not_nil sep s : split_on sep s <> [].
Proof.
  destruct s as [|c s]; cbn [split_on]; [discriminate|].
  destruct (Ascii.eqb c sep); [discriminate|].
  destruct (split_on sep s); discriminate.
Qed.

Lemma split_on_token t s :
  all_chars (fun c => negb (is_py_space c)) t = true ->
  split_on " " (t +:+ s) =
  match split_on " " s with
  | h :: r => (t +:+ h) :: r
  | [] => [t]
  end.
Proof.
  induction t as [|c t IH]; intros H.
  - rewrite append_nil_l. destruct (split_on " " s) eqn:E; [|reflexivity].
    exfalso. eapply split_on_not_nil, E.
  - rewrite all_chars_cons in H. apply andb_prop in H as [Hc Ht].
    apply negb_true_iff, no_space_not_blank in Hc.
    rewrite append_cons. cbn [split_on]. rewrite Hc, (IH Ht).
    destruct (split_on " " s); reflexivity.
Qed.

Lemma split_on_args rest : args_text rest ->
  forall t, is_token t ->
  Forall (fun x => x = "" \/ is_token x) (split_on " " (t +:+ rest)).
Proof.
  induction 1 as [|c sp tok rest Hsp Htok _ IH]; intros t Ht;
    destruct (token_no_space t Ht) as [_ Hns]; rewrite (split_on_token _ _ Hns).
  - cbn [split_on]. rewrite append_nil_r.
    constructor; [right; exact Ht | constructor].
  - rewrite (split_on_spaces _ _ Hsp). cbn [String.length replicate app].
    rewrite append_nil_r. constructor; [right; exact Ht|].
    apply Forall_app. split; [|apply IH, Htok].
    apply Forall_forall. intros x Hx. apply elem_of_replicate in Hx as [-> _].
    left. reflexivity.
Qed.

(** The arguments [InstructionLine] cuts the second group into. *)
Lemma args_tokens w :
  args_text w ->
  Forall (fun x => x = "" \/ is_token x)
    match w with
    | EmptyString => []
    | String _ _ => split_on " " (strip w)
    end.
Proof.
  intros H. destruct H as [|c sp tok rest Hsp Htok Hrest]; [constructor|].
  assert (E : strip (String c sp +:+ tok +:+ rest) = tok +:+ rest).
  { unfold strip. rewrite (lstrip_spaces _ _ Hsp).
    apply (strip_token_start tok rest Htok).
    destruct (args_text_rstrip rest Hrest) as [|[? ?]]; auto. }
  rewrite append_cons. rewrite append_cons in E. rewrite E.
  apply split_on_args; assumption.
Qed.

(** ** The exceptions of the range checks *)

Section RangeChecks.

Context {M : Machine}.

(** The range checks raise the compilation error of the value out of
    range, or, for a number too long to be printed in the message, the
    [ValueError] of the conversion. *)
Lemma int_to_native_number_raises v e :
  int_to_native_number v = Raise e ->
  (exists m, e = CompilationError m) \/ (e = ValueError /\ str_limit <= Z.abs v).
Proof.
  unfold int_to_native_number, format_int.
  destruct (negb (v =? NativeNumber_value v)); [|discriminate].
  destruct (Z.leb_spec str_limit (Z.abs v)); cbn [mbind result_bind];
    intros [= <-]; eauto.
Qed.

Lemma int_to_address_raises v e :
  int_to_address v = Raise e ->
  (exists m, e = CompilationError m) \/ (e = ValueError /\ str_limit <= Z.abs v).
Proof.
  unfold int_to_address, format_int.
  destruct (negb (v =? Address_value v)); [|discriminate].
  destruct (Z.leb_spec str_limit (Z.abs v)); cbn [mbind result_bind];
    intros [= <-]; eauto.
Qed.

(** A text that begins with neither a sign nor a digit matches no number
    pattern. *)
Lemma matches_number_other c s :
  is_sign c = false -> is_digit c = false ->
  matches HEX_NUMBER_PATTERN (String c s) = false /\
  matches NUMBER_PATTERN (String c s) = false.
Proof.
  intros Hs Hd.
  assert (H0 : Ascii.eqb c "0" = false).
  { destruct (Ascii.eqb_spec c "0") as [->|]; [discriminate Hd | reflexivity]. }
  split; apply matches_None;
    unfold re_match, NUMBER_PATTERN, DEC_NUMBER_PATTERN, HEX_NUMBER_PATTERN,
      Opt, Plus;
    cbn [rmatch Lit]; rewrite ?Hs, ?Hd, ?H0; reflexivity.
Qed.

Lemma mapM_raises {A B} (f : A -> result B) (P : exn -> Prop) xs :
  Forall (fun x => forall e, f x = Raise e -> P e) xs ->
  forall e, mapM f xs = Raise e -> P e.
Proof.
  induction 1 as [|x xs Hx _ IH]; intros e H; [discriminate|].
  change (mapM f (x :: xs)) with (y ← f x; k ← mapM f xs; Ok (y :: k)) in H.
  destruct (f x) as [y|e0] eqn:E; cbn [mbind result_bind] in H.
  - destruct (mapM f xs) as [k|e1]; cbn [mbind result_bind] in H;
      [discriminate|]. injection H as <-. apply IH. reflexivity.
  - injection H as <-. apply Hx. reflexivity.
Qed.

End RangeChecks.

(** ** What a line of each class is made of *)

Lemma consumes_INDENTATION s s' :
  consumes INDENTATION_PATTERN s s' ->
  exists indent, s = indent +:+ s' /\ all_chars is_spacer indent = true.
Proof.
  unfold INDENTATION_PATTERN, SPACER_CHARACTER_PATTERN. intros H.
  inversion H as [| | | |? ? ? s1 ? Hb Hs| | | | | | |]; subst.
  inversion Hb; subst. apply consumes_Star_Class, Hs.
Qed.

Lemma consumes_Star_Dot s s' :
  consumes (Star Dot) s s' ->
  exists w, s = w +:+ s' /\
    all_chars (fun x => negb (Ascii.eqb x newline)) w = true.
Proof.
  intros H. remember (Star Dot) as r eqn:Er.
  induction H as [| | | | | | | r s | r s s' s'' H1 _ H2 IH | | |];
    try discriminate; injection Er as ->.
  - exists "". auto.
  - destruct (IH eq_refl) as (w & -> & Hw).
    inversion H1 as [| | |c ? Hc| | | | | | | |]; subst.
    exists (String c w). split; [reflexivity|].
    rewrite all_chars_cons, Hw, andb_true_r.
    apply negb_true_iff. destruct (Ascii.eqb_spec c newline); congruence.
Qed.

Lemma consumes_LINE_END s s' : consumes LINE_END_PATTERN s s' -> line_end s.
Proof.
  unfold LINE_END_PATTERN, SPACER_CHARACTER_PATTERN, Opt. intros H.
  inversion H as [| | | |? ? ? s1 ? Hsp Hrest| | | | | | |]; subst.
  apply consumes_Star_Class in Hsp as (sp & -> & Hsp).
  inversion Hrest as [| | | |? ? ? s2 ? Hc He| | | | | | |]; subst.
  inversion He as [| | | | | | | | | | |? Hend]; subst.
  inversion Hc as [| | | | |? ? ? ? H1|? ? ? ? H1| | | | |]; subst.
  - inversion H1 as [| | | |? ? ? s3 ? Hh Hd| | | | | | |]; subst.
    inversion Hh; subst. apply consumes_Star_Dot in Hd as (c & -> & Hc').
    exists sp, (String "#" c), s'. repeat split; eauto.
  - inversion H1; subst. exists sp, "", s'. repeat split; auto.
Qed.

Section LineTexts.

Context {M : Machine}.

(** The line that the pattern of a value line matches. *)
Lemma value_line_text line groups :
  re_match (Pattern CValueLine) line = Some groups ->
  exists indent l tail,
    line = indent +:+ literal_text l +:+ tail /\
    all_chars is_spacer indent = true /\ valid_literal l = true /\
    line_end tail /\ groups = [Some (literal_text l)].
Proof.
  unfold re_match.
  change (replicate (ngroups (Pattern CValueLine)) None) with [@None string].
  cbn [Pattern rmatch]. intros H.
  apply (rmatch_sound _ _ group_free_INDENTATION) in H as (s1 & H1 & H).
  apply (rmatch_sound _ _ group_free_NUMBER) in H as (s2 & H2 & H).
  apply (rmatch_sound_end _ _ _ _ _ group_free_LINE_END) in H as [-> [s3 H3]].
  apply consumes_INDENTATION in H1 as (indent & -> & Hi).
  apply consumes_NUMBER in H2 as (l & Hl & ->).
  apply consumes_LINE_END in H3.
  exists indent, l, s2. rewrite take_string_append. auto.
Qed.

Lemma consumes_spacers s s' :
  consumes (Plus SPACER_CHARACTER_PATTERN) s s' ->
  exists sp, s = sp +:+ s' /\ sp <> "" /\ all_chars is_spacer sp = true.
Proof.
  intros H. apply consumes_Plus_Class in H as (c & w & -> & Hc & Hw).
  exists (String c w). repeat split; [discriminate|].
  rewrite all_chars_cons, Hc, Hw. reflexivity.
Qed.

(** The line that the pattern of an offset line matches. *)
Lemma offset_line_text line groups :
  re_match (Pattern COffsetLine) line = Some groups ->
  exists indent sp l tail,
    line = indent +:+ "Offset" +:+ sp +:+ literal_text l +:+ tail /\
    all_chars is_spacer indent = true /\
    sp <> "" /\ all_chars is_spacer sp = true /\
    valid_literal l = true /\ line_end tail /\
    groups = [Some (literal_text l)].
Proof.
  unfold re_match.
  change (replicate (ngroups (Pattern COffsetLine)) None) with [@None string].
  cbn [Pattern rmatch]. intros H.
  apply (rmatch_sound _ _ group_free_INDENTATION) in H as (s1 & H1 & H).
  apply (rmatch_sound _ (Lit "Offset") (group_free_Lit _)) in H as (s2 & H2 & H).
  apply (rmatch_sound _ (Plus SPACER_CHARACTER_PATTERN) eq_refl) in H
    as (s3 & H3 & H).
  apply (rmatch_sound _ ADDRESS_LITERAL_PATTERN group_free_NUMBER) in H
    as (s4 & H4 & H).
  apply (rmatch_sound_end _ _ _ _ _ group_free_LINE_END) in H as [-> [s5 H5]].
  apply consumes_INDENTATION in H1 as (indent & -> & Hi).
  apply (consumes_Lit "Offset") in H2 as ->.
  apply consumes_spacers in H3 as (sp & -> & Hne & Hsp).
  apply consumes_NUMBER in H4 as (l & Hl & ->).
  apply consumes_LINE_END in H5.
  exists indent, sp, l, s4. rewrite take_string_append. repeat split; auto.
Qed.

(** Which class has built a line. *)
Lemma new_line_class cls a groups l :
  new_line cls a groups = Ok l -> class_of l = cls.
Proof.
  unfold new_line, OffsetLine_init, LabelLine_init, ValueLine_init,
    InstructionLine_init.
  intros H.
  repeat match type of H with
  | context [match ?x with _ => _ end] => destruct x eqn:?; try discriminate
  | context [mbind _ ?x] => destruct x eqn:?; cbn [mbind result_bind] in H;
                            try discriminate
  end; injection H as <-; reflexivity.
Qed.

Lemma parse_line_Ok a line l :
  parse_line a line = Ok l ->
  exists groups,
    re_match (Pattern (class_of l)) line = Some groups /\
    new_line (class_of l) (Address_value a) groups = Ok l.
Proof.
  unfold parse_line.
  destruct (first_match classes line) as [[cls groups]|] eqn:E; [|discriminate].
  intros H. apply first_match_Some in E as (_ & _ & _ & Hm & _).
  rewrite (new_line_class _ _ _ _ H). eauto.
Qed.

End LineTexts.

(** X8.  On a line of ASCII characters, the number of a value line and
    the offset of an offset line are the values of literals written on the
    line: a value line is an indentation, a literal and the end of a line,
    and its number is the value of the literal; an offset line is an
    indentation, the word [Offset], spaces or tabs, a literal and the end
    of a line, and its offset is the value of the literal.  The literal is
    one [int] reads: a decimal one has no more than 4300 digits. *)
Theorem parse_line_number_of_literal (M : Machine) (a : Z) (line : string)
    (l : Line) :
  ascii_text line = true ->
  parse_line a line = Ok l ->
  match l with
  | ValueLine address value =>
      exists indent lit tail,
        line = indent +:+ literal_text lit +:+ tail /\
        all_chars is_spacer indent = true /\ valid_literal lit = true /\
        too_many_digits lit = false /\ line_end tail /\
        value = literal_value lit /\ address = Address_value a
  | OffsetLine address offset =>
      exists indent sp lit tail,
        line = indent +:+ "Offset" +:+ sp +:+ literal_text lit +:+ tail /\
        all_chars is_spacer indent = true /\
        sp <> "" /\ all_chars is_spacer sp = true /\
        valid_literal lit = true /\ too_many_digits lit = false /\
        line_end tail /\
        offset = literal_value lit /\ address = Address_value a
  | _ => True
  end.
Proof.
  intros _ H. destruct (parse_line_Ok _ _ _ H) as (groups & Hm & Hn).
  destruct l as [|address offset| |address value|]; try exact I;
    cbn [class_of] in Hm, Hn.
  - apply offset_line_text in Hm
      as (indent & sp & lit & tail & -> & Hi & Hne & Hsp & Hl & Ht & ->).
    cbn [new_line] in Hn. unfold OffsetLine_init in Hn.
    rewrite (parse_address_literal_literal lit Hl) in Hn.
    destruct (too_many_digits lit) eqn:Et; [discriminate|].
    destruct (int_to_address (literal_value lit)) as [o|] eqn:E;
      cbn [mbind result_bind] in Hn; [|discriminate].
    destruct (o <? Address_value a); [discriminate|]. injection Hn as <- <-.
    apply int_to_address_exact in E as [-> _].
    exists indent, sp, lit, tail. repeat split; auto.
  - apply value_line_text in Hm as (indent & lit & tail & -> & Hi & Hl & Ht & ->).
    cbn [new_line] in Hn. unfold ValueLine_init in Hn.
    rewrite (parse_number_literal lit Hl) in Hn.
    destruct (too_many_digits lit) eqn:Et; [discriminate|].
    destruct (int_to_native_number (literal_value lit)) as [v|] eqn:E;
      cbn [mbind result_bind] in Hn; [|discriminate].
    injection Hn as <- <-.
    apply int_to_native_number_exact in E as [-> _].
    exists indent, lit, tail. repeat split; auto.
Qed.

Lemma parse_line_number_of_literal_witness :
  exists indent lit tail,
    "  -0x10 # sixteen" = indent +:+ literal_text lit +:+ tail /\
    all_chars is_spacer indent = true /\ valid_literal lit = true /\
    too_many_digits lit = false /\ line_end tail /\
    -16 = literal_value lit /\
    4 = Address_value (Machine := example_machine) 4.
Proof.
  exact (parse_line_number_of_literal example_machine 4 "  -0x10 # sixteen"
           (ValueLine 4 (-16)) eq_refl eq_refl).
Defined.

Section LineTexts2.

Context {M : Machine}.

Lemma matches_LABEL_other c s :
  is_identifier_first c = false -> matches LABEL_PATTERN (String c s) = false.
Proof.
  intros H. apply matches_None.
  unfold re_match, LABEL_PATTERN, IDENTIFIER_FIRST_CHARACTER_PATTERN.
  cbn [rmatch]. rewrite H. reflexivity.
Qed.

(** The text of a literal begins with a sign or a digit. *)
Lemma literal_text_first l :
  valid_literal l = true ->
  exists c s, literal_text l = String c s /\ is_identifier_first c = false.
Proof.
  intros Hl. destruct (valid_literal_digits l Hl) as [Hne Hds].
  unfold literal_text. destruct (lit_sign l); cbn [with_sign];
    [|eexists _, _; split; reflexivity..].
  destruct (lit_base l); cbn [with_prefix];
    [|eexists _, _; split; reflexivity].
  destruct (lit_digits l) as [|d ds]; [congruence|].
  inversion Hds as [|? ? Hd _]; subst. cbn [digits_text radix] in *.
  eexists _, _. split; [reflexivity|].
  apply negb_true_iff.
  apply (digit_char_dec_property (fun c => negb (is_identifier_first c)));
    [lia | reflexivity].
Qed.

Lemma parse_address_token t w :
  t = "" \/ is_token t ->
  parse_address t None = Ok w -> argument_of_token t w.
Proof.
  intros [->|[(l & Hl & ->)|(c & s & -> & Hc & Hs)]].
  - discriminate.
  - unfold parse_address. rewrite (parse_address_literal_literal l Hl).
    destruct (too_many_digits l); [discriminate|].
    destruct (int_to_address (literal_value l)) as [a|e] eqn:E.
    + intros [= <-]. apply int_to_address_exact in E as [-> _].
      left. exists l. auto.
    + apply int_to_address_raises in E as [[m ->]|[-> _]]; [|discriminate].
      destruct (literal_text_first l Hl) as (c & s & -> & Hc).
      rewrite (matches_LABEL_other c s Hc). discriminate.
  - unfold parse_address.
    destruct (parse_address_literal _) as [a|e] eqn:E.
    + destruct (identifier_first_facts c Hc) as (_ & Hsg & Hd).
      destruct (matches_number_other c (s +:+ ":") Hsg Hd) as [H1 H2].
      unfold parse_address_literal in E. rewrite H1, H2 in E. discriminate.
    + destruct e; try discriminate.
      destruct (matches LABEL_PATTERN _); [|discriminate].
      destruct (Label _) as [l|] eqn:El; cbn [mbind result_bind];
        [|discriminate].
      intros [= <-]. apply Label_Ok in El as [-> _].
      right. exists c, s. auto.
Qed.

Lemma label_line_text line groups :
  re_match (Pattern CLabelLine) line = Some groups ->
  exists indent c w tail,
    line = indent +:+ String c (w +:+ ":") +:+ tail /\
    all_chars is_spacer indent = true /\
    is_identifier_first c = true /\ all_chars is_identifier_char w = true /\
    line_end tail /\ groups = [Some (String c (w +:+ ":"))].
Proof.
  unfold re_match.
  change (replicate (ngroups (Pattern CLabelLine)) None) with [@None string].
  cbn [Pattern rmatch]. intros H.
  apply (rmatch_sound _ _ group_free_INDENTATION) in H as (s1 & H1 & H).
  apply (rmatch_sound _ _ group_free_LABEL) in H as (s2 & H2 & H).
  apply (rmatch_sound_end _ _ _ _ _ group_free_LINE_END) in H as [-> [s3 H3]].
  apply consumes_INDENTATION in H1 as (indent & -> & Hi).
  apply consumes_LABEL in H2 as (c & w & -> & Hc & Hw).
  apply consumes_LINE_END in H3.
  exists indent, c, w, s2. rewrite take_string_append. repeat split; auto.
Qed.

Lemma empty_line_text line groups :
  re_match (Pattern CEmptyLine) line = Some groups ->
  exists indent tail,
    line = indent +:+ tail /\ all_chars is_spacer indent = true /\ line_end tail.
Proof.
  unfold re_match. cbn [Pattern rmatch]. intros H.
  apply (rmatch_sound _ _ group_free_INDENTATION) in H as (s1 & H1 & H).
  apply (rmatch_sound_end _ _ _ _ _ group_free_LINE_END) in H as [_ [s3 H3]].
  apply consumes_INDENTATION in H1 as (indent & -> & Hi).
  apply consumes_LINE_END in H3. eauto.
Qed.

Lemma instruction_line_text line groups :
  re_match (Pattern CInstructionLine) line = Some groups ->
  exists indent name args_str tail,
    line = indent +:+ name +:+ args_str +:+ tail /\
    all_chars is_spacer indent = true /\ args_text args_str /\
    line_end tail /\ groups = [Some name; Some args_str].
Proof.
  unfold re_match.
  assert (G : ngroups (Pattern CInstructionLine) = 2%nat).
  { cbn [Pattern ngroups INDENTATION_PATTERN LINE_END_PATTERN Plus Opt
         SPACER_CHARACTER_PATTERN ADDRESS_PATTERN].
    unfold INSTRUCTION_NAME_PATTERN. rewrite ngroups_names. reflexivity. }
  rewrite G. change (replicate 2 None) with [@None string; None].
  cbn [Pattern rmatch]. intros H.
  apply (rmatch_sound _ _ group_free_INDENTATION) in H as (s1 & H1 & H).
  apply (rmatch_sound _ INSTRUCTION_NAME_PATTERN (group_free_names _)) in H
    as (s2 & H2 & H).
  apply (rmatch_sound line (Star (Cat (Plus (Char " ")) ADDRESS_PATTERN))
           eq_refl) in H as (s3 & H3 & H).
  apply (rmatch_sound_end _ _ _ _ _ group_free_LINE_END) in H as [-> [s4 H4]].
  apply consumes_INDENTATION in H1 as (indent & -> & Hi).
  apply consumes_prefix in H2 as [name ->].
  apply consumes_arguments in H3 as (w & -> & Hw).
  apply consumes_LINE_END in H4.
  exists indent, name, w, s3. rewrite !take_string_append. repeat split; auto.
Qed.

End LineTexts2.

(** X9.  The lines of the other classes and their text.  An empty line is
    an indentation and the end of a line.  A label line is an indentation,
    an identifier with its colon, which is the label, and the end of a
    line.  An instruction line of ASCII characters is an indentation, the
    name of the instruction, which is in the catalog, the text of the
    arguments and the end of a line; the arguments are as many as the
    catalog says and, one for one, what the tokens of that text write: the
    address of a literal, or the token itself as a label. *)
Theorem parse_line_text_of_line (M : Machine) (a : Z) (line : string)
    (l : Line) :
  parse_line a line = Ok l ->
  match l with
  | EmptyLine address =>
      exists indent tail,
        line = indent +:+ tail /\ all_chars is_spacer indent = true /\
        line_end tail /\ address = Address_value a
  | LabelLine address label =>
      exists indent c w tail,
        line = indent +:+ label +:+ tail /\ label = String c (w +:+ ":") /\
        all_chars is_spacer indent = true /\
        is_identifier_first c = true /\ all_chars is_identifier_char w = true /\
        line_end tail /\ address = Address_value a
  | InstructionLine address instruction args =>
      ascii_text line = true ->
      exists indent args_str tail,
        line = indent +:+ instruction +:+ args_str +:+ tail /\
        all_chars is_spacer indent = true /\ args_text args_str /\
        line_end tail /\ address = Address_value a /\
        instruction ∈ Instructions /\
        instruction_methods instruction = Some (length args) /\
        Forall2 argument_of_token (argument_tokens args_str) args
  | _ => True
  end.
Proof.
  intros H. destruct (parse_line_Ok _ _ _ H) as (groups & Hm & Hn).
  destruct l as [address| |address label| |address instruction args];
    try exact I; cbn [class_of] in Hm, Hn.
  - apply empty_line_text in Hm as Ht.
    apply empty_line_groups in Hm as ->. injection Hn as <-.
    destruct Ht as (indent & tail & -> & Hi & Ht). eauto 10.
  - apply label_line_text in Hm as (indent & c & w & tail & -> & Hi & Hc & Hw & Ht & ->).
    cbn [new_line] in Hn. unfold LabelLine_init in Hn.
    destruct (Label _) as [lab|] eqn:E; cbn [mbind result_bind] in Hn;
      [|discriminate].
    injection Hn as <- <-. apply Label_Ok in E as [-> _].
    exists indent, c, w, tail. repeat split; auto.
  - intros _. apply instruction_line_text in Hm
      as (indent & name & args_str & tail & -> & Hi & Hargs & Ht & ->).
    pose proof (new_line_well_formed _ _ _ _ Hn) as (Hin & Hmeth & _).
    cbn [new_line] in Hn. unfold InstructionLine_init in Hn.
    destruct (negb (bool_decide (name ∈ Instructions))); [discriminate|].
    destruct (instruction_methods name) as [arg_num|]; [|discriminate].
    destruct (negb _); [discriminate|].
    fold (argument_tokens args_str) in Hn.
    destruct (mapM _ (argument_tokens args_str)) as [args'|] eqn:E;
      cbn [mbind result_bind] in Hn; [|discriminate].
    injection Hn as <- <- <-.
    exists indent, args_str, tail. repeat split; auto.
    apply mapM_Ok_Forall2 in E. pose proof (args_tokens _ Hargs) as Htok.
    fold (argument_tokens args_str) in Htok.
    clear -E Htok. induction E as [|t w ts ws Htw _ IH]; constructor.
    + inversion Htok; subst. apply parse_address_token; assumption.
    + apply IH. inversion Htok; assumption.
Qed.

Lemma parse_line_text_of_line_witness :
  exists indent args_str tail,
    " ADD  a: 0x7 # add" = indent +:+ "ADD" +:+ args_str +:+ tail /\
    all_chars is_spacer indent = true /\ args_text args_str /\
    line_end tail /\ 3 = Address_value (Machine := example_machine) 3 /\
    "ADD" ∈ Instructions (Machine := example_machine) /\
    instruction_methods (Machine := example_machine) "ADD" = Some 2%nat /\
    Forall2 argument_of_token (argument_tokens args_str) [WLabel "a:"; WAddress 7].
Proof.
  exact (parse_line_text_of_line example_machine 3 " ADD  a: 0x7 # add"
           (InstructionLine 3 "ADD" [WLabel "a:"; WAddress 7]) eq_refl eq_refl).
Defined.

(** ** The exceptions of [parse] and [compile] *)

Section Exceptions.

Context {M : Machine}.

(** A number of 3571 hexadecimal digits can be printed. *)
Lemma hex_digits_limit : 16 ^ 3571 < str_limit.
Proof. apply Z.ltb_lt. vm_compute. reflexivity. Qed.

Lemma literal_value_bound l :
  valid_literal l = true ->
  Z.abs (literal_value l) < 16 ^ Z.of_nat (length (lit_digits l)).
Proof.
  intros Hv. destruct (valid_literal_digits l Hv) as [_ Hds].
  pose proof (digits_value_bound (radix (lit_base l)) (lit_digits l) 0
                ltac:(destruct (lit_base l); cbn; lia) Hds ltac:(lia)) as Hb.
  assert (Hp : radix (lit_base l) ^ Z.of_nat (length (lit_digits l))
               <= 16 ^ Z.of_nat (length (lit_digits l))).
  { apply Z.pow_le_mono_l. destruct (lit_base l); cbn; lia. }
  unfold literal_value. destruct (lit_sign l); lia.
Qed.

(** A literal that [int] refuses, or whose value cannot be printed, has
    3572 digits or more. *)
Lemma literal_beyond_limits l :
  valid_literal l = true ->
  too_many_digits l = true \/ str_limit <= Z.abs (literal_value l) ->
  3572 <= Z.of_nat (length (lit_digits l)).
Proof.
  intros Hv [H|H].
  - unfold too_many_digits, max_str_digits in H.
    destruct (lit_base l); [|discriminate]. apply Z.ltb_lt in H. lia.
  - destruct (Z.le_gt_cases 3572 (Z.of_nat (length (lit_digits l))))
      as [Hle|Hgt]; [exact Hle | exfalso].
    pose proof (literal_value_bound l Hv) as Hb.
    assert (Hp : 16 ^ Z.of_nat (length (lit_digits l)) <= 16 ^ 3571)
      by (apply Z.pow_le_mono_r; lia).
    pose proof hex_digits_limit as Hlim.
    generalize dependent str_limit. intros limit H Hlim.
    generalize dependent (16 ^ 3571). intros p Hp Hlim. lia.
Qed.

Lemma length_digits_text ds : String.length (digits_text ds) = length ds.
Proof. induction ds as [|d ds IH]; cbn [digits_text String.length length]; auto. Qed.

Lemma length_literal_text l :
  (length (lit_digits l) <= String.length (literal_text l))%nat.
Proof.
  unfold literal_text.
  destruct (lit_sign l), (lit_base l);
    cbn [with_sign with_prefix String.length]; rewrite length_digits_text; lia.
Qed.

(** The exceptions of the parsers of numbers on the text of a literal. *)
Lemma parse_number_literal_raises l e :
  valid_literal l = true ->
  parse_number (literal_text l) = Raise e ->
  parser_exception (String.length (literal_text l)) e.
Proof.
  intros Hv. rewrite (parse_number_literal l Hv).
  pose proof (length_literal_text l) as Hlen.
  destruct (too_many_digits l) eqn:Et.
  - intros [= <-]. cbn [parser_exception].
    pose proof (literal_beyond_limits l Hv (or_introl Et)). lia.
  - intros H. apply int_to_native_number_raises in H as [[m ->]|[-> H]];
      [exact I|]. cbn [parser_exception].
    pose proof (literal_beyond_limits l Hv (or_intror H)). lia.
Qed.

Lemma parse_address_literal_literal_raises l e :
  valid_literal l = true ->
  parse_address_literal (literal_text l) = Raise e ->
  parser_exception (String.length (literal_text l)) e.
Proof.
  intros Hv. rewrite (parse_address_literal_literal l Hv).
  pose proof (length_literal_text l) as Hlen.
  destruct (too_many_digits l) eqn:Et.
  - intros [= <-]. cbn [parser_exception].
    pose proof (literal_beyond_limits l Hv (or_introl Et)). lia.
  - intros H. apply int_to_address_raises in H as [[m ->]|[-> H]];
      [exact I|]. cbn [parser_exception].
    pose proof (literal_beyond_limits l Hv (or_intror H)). lia.
Qed.

Lemma parser_exception_mono (n m : nat) e :
  (n <= m)%nat -> parser_exception n e -> parser_exception m e.
Proof. intros H. destruct e; cbn [parser_exception]; auto. lia. Qed.

Lemma parse_address_literal_token t e :
  t = "" \/ is_token t ->
  parse_address_literal t = Raise e -> parser_exception (String.length t) e.
Proof.
  intros [->|[(l & Hl & ->)|(c & w & -> & Hc & Hw)]].
  - intros [= <-]. exact I.
  - apply parse_address_literal_literal_raises, Hl.
  - destruct (identifier_first_facts c Hc) as (_ & Hs & Hd).
    destruct (matches_number_other c (w +:+ ":") Hs Hd) as [H1 H2].
    unfold parse_address_literal. rewrite H1, H2. intros [= <-]. exact I.
Qed.

Lemma parse_address_raises s labels n :
  (forall e, parse_address_literal s = Raise e -> parser_exception n e) ->
  forall e, parse_address s labels = Raise e -> parser_exception n e.
Proof.
  intros Hlit e. unfold parse_address.
  destruct (parse_address_literal s) as [a|e0] eqn:E; [discriminate|].
  pose proof (Hlit e0 eq_refl) as H0.
  destruct e0 as [m| |name| |]; try (intros [= <-]; exact H0).
  destruct (matches LABEL_PATTERN s); [|intros [= <-]; exact I].
  destruct labels as [labels|].
  - destruct (labels !! s); [discriminate | intros [= <-]; exact I].
  - unfold Label. destruct (matches _ s); cbn [mbind result_bind];
      [discriminate | intros [= <-]; exact I].
Qed.

(** The tokens are not longer than the text they are cut from. *)
Lemma length_lstrip s : (String.length (lstrip s) <= String.length s)%nat.
Proof.
  induction s as [|c s IH]; cbn [lstrip String.length]; [lia|].
  destruct (is_py_space c); cbn [String.length]; lia.
Qed.

Lemma length_rstrip s : (String.length (rstrip s) <= String.length s)%nat.
Proof.
  induction s as [|c s IH]; cbn [rstrip String.length]; [lia|].
  destruct (rstrip s); [destruct (is_py_space c)|]; cbn [String.length] in *; lia.
Qed.

Lemma length_split_on sep s :
  Forall (fun t => (String.length t <= String.length s)%nat) (split_on sep s).
Proof.
  induction s as [|c s IH]; cbn [split_on String.length].
  - constructor; [apply Nat.le_refl | constructor].
  - destruct (Ascii.eqb c sep).
    + constructor; [cbn; lia|].
      eapply Forall_impl; [exact IH|]. cbn beta. intros t Ht. lia.
    + destruct (split_on sep s) as [|w ws];
        [constructor; [cbn [String.length]; lia | constructor]|].
      inversion IH as [|? ? Hw Hws]; subst. constructor.
      * cbn [String.length]. lia.
      * eapply Forall_impl; [exact Hws|]. cbn beta. intros t Ht. lia.
Qed.

Lemma length_argument_tokens s :
  Forall (fun t => (String.length t <= String.length s)%nat) (argument_tokens s).
Proof.
  destruct s as [|c s]; [constructor|]. cbn [argument_tokens].
  eapply Forall_impl; [apply length_split_on|]. cbn beta. intros t Ht.
  unfold strip in Ht.
  pose proof (length_rstrip (lstrip (String c s))).
  pose proof (length_lstrip (String c s)). lia.
Qed.

Lemma InstructionLine_init_raises a name args_str e :
  args_text args_str ->
  InstructionLine_init a name args_str = Raise e ->
  parser_exception (String.length args_str) e.
Proof.
  intros Hargs. unfold InstructionLine_init.
  destruct (bool_decide (name ∈ Instructions)) eqn:Hin; cbn [negb];
    [|intros [= <-]; exact I].
  apply bool_decide_eq_true_1 in Hin.
  destruct (instruction_methods name) as [arg_num|] eqn:Hm;
    [|intros [= <-]; split; assumption].
  destruct (negb _); [intros [= <-]; exact I|].
  destruct (mapM _ _) as [args'|e0] eqn:E; cbn [mbind result_bind];
    [discriminate|].
  intros [= <-].
  eapply (mapM_raises _ (parser_exception (String.length args_str)));
    [|exact E].
  fold (argument_tokens args_str).
  pose proof (args_tokens _ Hargs) as Htok.
  fold (argument_tokens args_str) in Htok.
  pose proof (length_argument_tokens args_str) as Hlen.
  rewrite Forall_forall in Htok, Hlen. apply Forall_forall.
  intros t Hin' e1. apply parse_address_raises. intros e2 He2.
  apply (parser_exception_mono (String.length t)); [apply Hlen, Hin'|].
  apply (parse_address_literal_token t e2 (Htok t Hin') He2).
Qed.

Lemma new_line_raises cls a line groups e :
  re_match (Pattern cls) line = Some groups ->
  new_line cls a groups = Raise e ->
  parser_exception (String.length line) e.
Proof.
  intros Hm. destruct cls.
  - apply empty_line_groups in Hm as ->. discriminate.
  - apply offset_line_text in Hm
      as (indent & sp & l & tail & -> & _ & _ & _ & Hl & _ & ->).
    cbn [new_line]. unfold OffsetLine_init.
    destruct (parse_address_literal (literal_text l)) as [o|e0] eqn:E;
      cbn [mbind result_bind].
    + destruct (o <? a); [intros [= <-]; exact I | discriminate].
    + intros [= <-].
      apply (parser_exception_mono (String.length (literal_text l)));
        [rewrite !length_append; lia|].
      apply (parse_address_literal_literal_raises l e0 Hl E).
  - apply label_line_groups in Hm as (c & w & -> & _).
    cbn [new_line]. unfold LabelLine_init, Label.
    destruct (matches _ _); cbn [mbind result_bind];
      [discriminate | intros [= <-]; exact I].
  - apply value_line_text in Hm as (indent & l & tail & -> & _ & Hl & _ & ->).
    cbn [new_line]. unfold ValueLine_init.
    destruct (parse_number (literal_text l)) as [v|e0] eqn:E;
      cbn [mbind result_bind]; [discriminate|].
    intros [= <-].
    apply (parser_exception_mono (String.length (literal_text l)));
      [rewrite !length_append; lia|].
    apply (parse_number_literal_raises l e0 Hl E).
  - apply instruction_line_text in Hm
      as (indent & name & args_str & tail & -> & _ & Hargs & _ & ->).
    cbn [new_line]. intros H.
    apply (parser_exception_mono (String.length args_str));
      [rewrite !length_append; lia|].
    apply (InstructionLine_init_raises _ _ _ _ Hargs H).
Qed.

Lemma parse_line_raises a line e :
  parse_line a line = Raise e -> parser_exception (String.length line) e.
Proof.
  unfold parse_line.
  destruct (first_match classes line) as [[cls groups]|] eqn:E.
  - apply first_match_Some in E as (before & after & _ & Hm & _).
    apply (new_line_raises _ _ _ _ _ Hm).
  - intros [= <-]. exact I.
Qed.

End Exceptions.

(** X7.  [parse] raises a [CompilationError] whose message begins with the
    number of the failing line, the [KeyError] of an instruction of the
    catalog that [instruction_methods] lacks, or the [ValueError] of the
    limit on the digits, and this one only on a line of 3572 characters or
    more: a number that [int] refuses or that the message of the value out
    of range cannot print is that long.  [compile] raises these and the
    [KeyError] of a label without a label line, nothing else: a
    [TypeError] or the [RuntimeError] of the padding cannot come out of
    it. *)
Theorem compile_raises_only (M : Machine) (src : Source) (e : exn) :
  compile src = Raise e ->
  (exists n message,
     (1 <= n <= length (source_lines src))%nat /\
     e = CompilationError ("Line " +:+ str_of_nat n +:+ ": " +:+ message)) \/
  (exists name, e = KeyError name /\ name ∈ Instructions /\
     instruction_methods name = None) \/
  (exists parsed l name,
     parse src = (parsed, None) /\ e = KeyError name /\ l ∈ parsed /\
     WLabel name ∈ produced_bytes l /\ label_table parsed !! name = None) \/
  (e = ValueError /\
   exists line, line ∈ source_lines src /\
     3572 <= Z.of_nat (String.length line)).
Proof.
  unfold compile. destruct (parse src) as [parsed [e0|]] eqn:P;
    cbn [list_of mbind result_bind].
  - intros [= <-]. unfold parse in P.
    destruct (parse_loop_error _ _ _ _ _ P) as (line & e1 & Hl & Hp & -> & _).
    apply parse_line_raises in Hp.
    destruct e1 as [m| |name| |]; cbn [parser_exception] in Hp; try contradiction.
    + left. exists (1 + length parsed)%nat, m. split; [|reflexivity].
      apply lookup_lt_Some in Hl. lia.
    + right. right. right. split; [reflexivity|]. exists line.
      split; [|exact Hp]. apply (list_elem_of_lookup_2 _ _ _ Hl).
    + right. left. exists name. cbn [annotate]. tauto.
  - intros H. right. right. left.
    assert (Hfits : Forall fits parsed)
      by (unfold parse in P; eapply parse_loop_fits, P).
    destruct (second_pass_outcome (label_table parsed) parsed Hfits)
      as [(ws & E & _)|(l & name & E & Hin & Hw & Hnone)];
      rewrite E in H; [discriminate|].
    injection H as <-. exists parsed, l, name. auto.
Qed.

Lemma compile_raises_only_witness :
  (exists n message,
     (1 <= n <= 2)%nat /\
     CompilationError "Line 2: Value 300 is out of range" =
     CompilationError ("Line " +:+ str_of_nat n +:+ ": " +:+ message)) \/
  (exists name, CompilationError "Line 2: Value 300 is out of range" = KeyError name /\
     name ∈ Instructions (Machine := example_machine) /\
     instruction_methods (Machine := example_machine) name = None) \/
  (exists parsed l name,
     parse (M := example_machine) (Lines ["5"; "300"]) = (parsed, None) /\
     CompilationError "Line 2: Value 300 is out of range" = KeyError name /\
     l ∈ parsed /\
     WLabel name ∈ produced_bytes l /\ label_table parsed !! name = None) \/
  (CompilationError "Line 2: Value 300 is out of range" = ValueError /\
   exists line, line ∈ ["5"; "300"] /\ 3572 <= Z.of_nat (String.length line)).
Proof.
  exact (compile_raises_only example_machine (Lines ["5"; "300"])
           (CompilationError "Line 2: Value 300 is out of range") eq_refl).
Defined.

(** ** The matcher on the lines the grammar describes *)

Section Greedy.

Variable subject : string.

(** A star over single characters takes all of them when the continuation
    accepts what follows. *)
Lemma star_loop_greedy (m : string -> captures -> cont -> option captures)
    (q : ascii -> bool) :
  (forall c r caps k, m (String c r) caps k = if q c then k r caps else None) ->
  (forall caps k, m "" caps k = None) ->
  forall w rest caps k x,
    all_chars q w = true -> begins_with q rest = false ->
    k rest caps = Some x ->
    star_loop m (String.length (w +:+ rest)) (w +:+ rest) caps k = Some x.
Proof.
  intros Hm Hm0 w rest caps k x Hw Hrest Hk. induction w as [|c w IH].
  - rewrite append_nil_l. destruct rest as [|c r]; cbn [String.length star_loop].
    + exact Hk.
    + rewrite Hm. cbn [begins_with] in Hrest. rewrite Hrest. exact Hk.
  - rewrite all_chars_cons in Hw. apply andb_prop in Hw as [Hc Hw].
    rewrite append_cons. cbn [String.length star_loop]. rewrite Hm, Hc.
    rewrite (proj2 (Nat.ltb_lt _ _) (Nat.lt_succ_diag_r _)).
    rewrite (IH Hw). reflexivity.
Qed.

Lemma rmatch_Star_Class_greedy p w rest caps k x :
  all_chars p w = true -> begins_with p rest = false ->
  k rest caps = Some x ->
  rmatch subject (Star (Class p)) (w +:+ rest) caps k = Some x.
Proof.
  intros. cbn [rmatch]. apply (star_loop_greedy _ p); auto.
Qed.

Lemma rmatch_Star_Dot_greedy w rest caps k x :
  all_chars (fun c => negb (Ascii.eqb c newline)) w = true ->
  at_end rest = true ->
  k rest caps = Some x ->
  rmatch subject (Star Dot) (w +:+ rest) caps k = Some x.
Proof.
  intros Hw Hrest Hk. cbn [rmatch].
  apply (star_loop_greedy _ (fun c => negb (Ascii.eqb c newline))); auto.
  - intros c r caps' k'. cbn [rmatch]. destruct (Ascii.eqb c newline); reflexivity.
  - destruct rest as [|c [|c' r]]; cbn [at_end begins_with] in *;
      [reflexivity | rewrite Hrest; reflexivity | discriminate].
Qed.

(** The pattern of the end of a line on the end of a line. *)
Lemma rmatch_LINE_END sp comment last caps k x :
  all_chars is_spacer sp = true ->
  (comment = "" \/
   exists c, comment = String "#" c /\
     all_chars (fun x => negb (Ascii.eqb x newline)) c = true) ->
  at_end last = true ->
  k last caps = Some x ->
  rmatch subject LINE_END_PATTERN (sp +:+ comment +:+ last) caps k = Some x.
Proof.
  intros Hsp Hc Hlast Hk.
  assert (Hl : last = "" \/ last = String newline "").
  { destruct last as [|c [|c' r]]; [auto | | discriminate].
    cbn in Hlast. apply Ascii.eqb_eq in Hlast as ->. auto. }
  unfold LINE_END_PATTERN, SPACER_CHARACTER_PATTERN, Opt.
  change (rmatch subject (Cat (Star (Class is_spacer)) ?r) ?s ?c ?k0)
    with (rmatch subject (Star (Class is_spacer)) s c
            (fun rest' caps' => rmatch subject r rest' caps' k0)).
  apply rmatch_Star_Class_greedy; [exact Hsp | |].
  - destruct Hc as [->|(c & -> & _)]; [|reflexivity].
    rewrite append_nil_l. destruct Hl as [->| ->]; reflexivity.
  - destruct Hc as [->|(c & -> & Hc)].
    + rewrite append_nil_l. destruct Hl as [->| ->]; cbn; exact Hk.
    + rewrite append_cons. cbn [rmatch]. change (Ascii.eqb "#" "#") with true.
      cbv iota.
      assert (E : star_loop (rmatch subject Dot) (String.length (c +:+ last))
                    (c +:+ last) caps
                    (fun rest' caps' => rmatch subject Eol rest' caps' k) = Some x).
      { apply (rmatch_Star_Dot_greedy c last caps
                 (fun rest' caps' => rmatch subject Eol rest' caps' k) x Hc Hlast).
        destruct Hl as [->| ->]; cbn; exact Hk. }
      cbn [rmatch] in E. rewrite E. reflexivity.
Qed.

(** The end of a line does not begin with a character of a token. *)
Lemma rmatch_LINE_END_fails c s caps k :
  is_spacer c = false -> Ascii.eqb c "#" = false ->
  at_end (String c s) = false ->
  rmatch subject LINE_END_PATTERN (String c s) caps k = None.
Proof.
  intros Hsp Hh Hend.
  unfold LINE_END_PATTERN, SPACER_CHARACTER_PATTERN, Opt.
  cbn [rmatch String.length star_loop]. rewrite Hsp, Hh.
  destruct s as [|c' s]; [|reflexivity].
  cbn [at_end] in Hend. rewrite Hend. reflexivity.
Qed.

End Greedy.

(** *** Where a line begins *)

Lemma skip_spacers_append sp s :
  all_chars is_spacer sp = true -> begins_with is_spacer s = false ->
  skip_spacers (sp +:+ s) = s.
Proof.
  intros Hsp Hs. induction sp as [|c sp IH].
  - rewrite append_nil_l. destruct s as [|c s]; [reflexivity|].
    cbn [begins_with] in Hs. cbn [skip_spacers]. rewrite Hs. reflexivity.
  - rewrite all_chars_cons in Hsp. apply andb_prop in Hsp as [Hc Hsp].
    rewrite append_cons. cbn [skip_spacers]. rewrite Hc. apply IH, Hsp.
Qed.

(** After its spaces the end of a line is at its comment or at its end. *)
Lemma line_end_skip_spacers tail :
  line_end tail ->
  at_end (skip_spacers tail) = true \/ begins_with (fun c => Ascii.eqb c "#") (skip_spacers tail) = true.
Proof.
  intros (sp & comment & last & -> & Hsp & Hc & Hlast).
  assert (Hl : last = "" \/ last = String newline "").
  { destruct last as [|c [|c' r]]; [auto | | discriminate].
    cbn in Hlast. apply Ascii.eqb_eq in Hlast as ->. auto. }
  rewrite skip_spacers_append; [| exact Hsp |].
  - destruct Hc as [->|(c & -> & _)]; [left | right; reflexivity].
    rewrite append_nil_l. exact Hlast.
  - destruct Hc as [->|(c & -> & _)]; [|reflexivity].
    rewrite append_nil_l. destruct Hl as [->| ->]; reflexivity.
Qed.

Lemma line_end_begins p tail :
  line_end tail ->
  p " "%char = false -> p tab = false -> p "#"%char = false -> p newline = false ->
  begins_with p tail = false.
Proof.
  intros (sp & comment & last & -> & Hsp & Hc & Hlast) H1 H2 H3 H4.
  destruct sp as [|c sp].
  - rewrite append_nil_l. destruct Hc as [->|(c & -> & _)]; [|exact H3].
    rewrite append_nil_l. destruct last as [|c [|c' r]];
      [reflexivity | | discriminate].
    cbn in Hlast. apply Ascii.eqb_eq in Hlast as ->. exact H4.
  - rewrite all_chars_cons in Hsp. apply andb_prop in Hsp as [Hc' _].
    unfold is_spacer in Hc'. apply orb_prop in Hc' as [Hc'|Hc'];
      apply Ascii.eqb_eq in Hc' as ->; assumption.
Qed.

Lemma line_end_indent indent tail :
  all_chars is_spacer indent = true -> line_end tail -> line_end (indent +:+ tail).
Proof.
  intros Hi (sp & comment & last & -> & Hsp & Hc & Hlast).
  exists (indent +:+ sp), comment, last. rewrite append_assoc.
  repeat split; auto. rewrite all_chars_append, Hi, Hsp. reflexivity.
Qed.

Section LineForms.

Context {M : Machine}.

Lemma rmatch_INDENTATION indent rest caps k x :
  all_chars is_spacer indent = true -> begins_with is_spacer rest = false ->
  k rest caps = Some x ->
  rmatch (indent +:+ rest) INDENTATION_PATTERN (indent +:+ rest) caps k = Some x.
Proof.
  intros Hi Hr Hk. unfold INDENTATION_PATTERN, SPACER_CHARACTER_PATTERN.
  change (rmatch ?s (Cat Bol ?r) ?t ?c ?k0)
    with (if (String.length t =? String.length s)%nat
          then rmatch s r t c k0 else None).
  rewrite Nat.eqb_refl. apply rmatch_Star_Class_greedy; assumption.
Qed.

Lemma re_match_empty_line line :
  line_end line -> re_match (Pattern CEmptyLine) line = Some [].
Proof.
  intros (sp & comment & last & -> & Hsp & Hc & Hlast).
  unfold re_match. cbn [Pattern].
  change (rmatch ?s (Cat INDENTATION_PATTERN ?r) ?t ?c ?k0)
    with (rmatch s INDENTATION_PATTERN t c
            (fun rest' caps' => rmatch s r rest' caps' k0)).
  apply rmatch_INDENTATION; [exact Hsp | |].
  - destruct Hc as [->|(c & -> & _)]; [|reflexivity].
    rewrite append_nil_l. destruct last as [|c [|c' r]];
      [reflexivity | | discriminate].
    cbn in Hlast. apply Ascii.eqb_eq in Hlast as ->. reflexivity.
  - apply (rmatch_LINE_END _ "" comment last); auto.
Qed.

Lemma parse_line_empty a line :
  line_end line -> parse_line a line = Ok (EmptyLine (Address_value a)).
Proof.
  intros H. unfold parse_line.
  change classes
    with ([] ++ CEmptyLine :: [COffsetLine; CValueLine; CInstructionLine; CLabelLine]).
  rewrite (first_match_intro [] CEmptyLine _ line [] (re_match_empty_line line H));
    [reflexivity | constructor].
Qed.

Lemma parse_loop_empty_lines lines : forall n a,
  Forall line_end lines ->
  parse_loop n a lines = ((fun _ => EmptyLine (Address_value a)) <$> lines, None).
Proof.
  induction lines as [|line lines IH]; intros n a H; [reflexivity|].
  inversion H as [|? ? Hl Hls]; subst.
  rewrite (parse_loop_Ok _ _ _ _ _ (parse_line_empty a line Hl)).
  cbn [produced_bytes_padded_num]. rewrite Z.add_0_r, (IH _ _ Hls). reflexivity.
Qed.

End LineForms.

(** X10.  A line is parsed into an empty line exactly when it is the end of
    a line: spaces and tabs, then nothing or a comment.  And a text all of
    whose lines are so, the empty list of lines among them, compiles to no
    word at all. *)
Theorem blank_and_comment_lines (M : Machine) :
  (forall a line,
     parse_line a line = Ok (EmptyLine (Address_value a)) <-> line_end line) /\
  (forall lines, Forall line_end lines -> compile (Lines lines) = Ok []).
Proof.
  split.
  - intros a line. split; [|apply parse_line_empty].
    intros H. destruct (parse_line_Ok _ _ _ H) as (groups & Hm & _).
    apply empty_line_text in Hm as (indent & tail & -> & Hi & Ht).
    apply line_end_indent; assumption.
  - intros lines H. unfold compile, parse. cbn [source_lines].
    rewrite (parse_loop_empty_lines _ _ _ H). cbn [list_of mbind result_bind].
    generalize (label_table ((fun _ => EmptyLine (Address_value 0)) <$> lines)).
    intros labels. clear H. induction lines as [|line lines IH]; [reflexivity|].
    rewrite fmap_cons, second_pass_cons, IH. reflexivity.
Qed.

Lemma blank_and_comment_lines_witness :
  parse_line (M := example_machine) 7 "   # a comment" = Ok (EmptyLine 7) /\
  compile (M := example_machine) (Lines ["# program"; ""; "  "]) = Ok [].
Proof.
  destruct (blank_and_comment_lines example_machine) as [H1 H2].
  assert (L : forall c, all_chars (fun x => negb (Ascii.eqb x newline)) c = true ->
                line_end (String "#" c)).
  { intros c Hc. exists "", (String "#" c), "". rewrite append_nil_r.
    repeat split; eauto. }
  split.
  - apply (H1 7 "   # a comment").
    exists "   ", "# a comment", "".
    repeat split; right; eexists; split; reflexivity.
  - apply H2. repeat constructor.
    + apply L. reflexivity.
    + exists "", "", "". repeat split; auto.
    + exists "  ", "", "". repeat split; auto.
Defined.

(** *** The number pattern on a literal *)

Section NumberForms.

Variable subject : string.

Lemma rmatch_Cat r1 r2 t c k :
  rmatch subject (Cat r1 r2) t c k =
  rmatch subject r1 t c (fun t' c' => rmatch subject r2 t' c' k).
Proof. reflexivity. Qed.

Lemma rmatch_Alt r1 r2 t c k :
  rmatch subject (Alt r1 r2) t c k =
  match rmatch subject r1 t c k with
  | Some x => Some x
  | None => rmatch subject r2 t c k
  end.
Proof. reflexivity. Qed.

Lemma rmatch_Class_cons p a t c k :
  rmatch subject (Class p) (String a t) c k = if p a then k t c else None.
Proof. reflexivity. Qed.

Lemma rmatch_Char_cons b a t c k :
  rmatch subject (Char b) (String a t) c k =
  if Ascii.eqb a b then k t c else None.
Proof. reflexivity. Qed.

Lemma rmatch_Empty t c k : rmatch subject Empty t c k = k t c.
Proof. reflexivity. Qed.

(** The optional sign before a text that begins with no sign. *)
Lemma rmatch_Opt_sign sg a body caps k :
  is_sign a = false ->
  rmatch subject (Opt (Class is_sign)) (with_sign sg (String a body)) caps k =
  match sg with
  | NoSign => k (String a body) caps
  | PlusSign =>
      match k (String a body) caps with
      | Some x => Some x
      | None => k (String "+" (String a body)) caps
      end
  | MinusSign =>
      match k (String a body) caps with
      | Some x => Some x
      | None => k (String "-" (String a body)) caps
      end
  end.
Proof.
  intros Ha. unfold Opt. rewrite rmatch_Alt, rmatch_Empty.
  destruct sg; cbn [with_sign]; rewrite rmatch_Class_cons.
  - rewrite Ha. reflexivity.
  - reflexivity.
  - reflexivity.
Qed.

Lemma all_chars_digits_text p r ds :
  (forall d, Z.of_nat (digit d) < r -> p (digit_char d) = true) ->
  digits_below r ds -> all_chars p (digits_text ds) = true.
Proof.
  intros Hp. induction 1 as [|d ds Hd _ IH]; [reflexivity|].
  cbn [digits_text]. rewrite all_chars_cons, (Hp d Hd), IH. reflexivity.
Qed.

Lemma is_digit_digit_char d :
  Z.of_nat (digit d) < 10 -> is_digit (digit_char d) = true.
Proof. intros H. apply digit_char_dec_property; [lia | reflexivity]. Qed.

Lemma is_hex_digit_digit_char d :
  Z.of_nat (digit d) < 16 -> is_hex_digit (digit_char d) = true.
Proof. intros H. apply digit_char_property; [lia | reflexivity]. Qed.

Lemma begins_with_impl (p q : ascii -> bool) s :
  (forall c, p c = true -> q c = true) ->
  begins_with q s = false -> begins_with p s = false.
Proof.
  intros Hpq. destruct s as [|c s]; [reflexivity|]. cbn [begins_with].
  intros Hq. destruct (p c) eqn:E; [|reflexivity].
  rewrite (Hpq c E) in Hq. discriminate.
Qed.

Lemma is_digit_is_hex_digit c : is_digit c = true -> is_hex_digit c = true.
Proof. unfold is_digit, is_hex_digit. intros ->. reflexivity. Qed.

(** One digit or more, then a text that begins with no digit. *)
Lemma rmatch_Plus_digits p r d ds tail caps k x :
  (forall d, Z.of_nat (digit d) < r -> p (digit_char d) = true) ->
  digits_below r (d :: ds) -> begins_with p tail = false ->
  k tail caps = Some x ->
  rmatch subject (Plus (Class p)) (digits_text (d :: ds) +:+ tail) caps k = Some x.
Proof.
  intros Hp Hds Htail Hk. inversion Hds as [|? ? Hd Hds']; subst.
  unfold Plus. cbn [digits_text]. rewrite append_cons, rmatch_Cat.
  rewrite rmatch_Class_cons, (Hp d Hd).
  apply rmatch_Star_Class_greedy; [|assumption..].
  apply (all_chars_digits_text p r); assumption.
Qed.

(** The number pattern on the text of a literal: the continuation is given
    what follows the literal, when it refuses what follows a lone [0]
    before the [x] of a hexadecimal literal. *)
Lemma rmatch_NUMBER_literal l tail caps k x :
  valid_literal l = true ->
  begins_with is_hex_digit tail = false ->
  (forall s c, k (String "x" s) c = None) ->
  k tail caps = Some x ->
  rmatch subject NUMBER_PATTERN (literal_text l +:+ tail) caps k = Some x.
Proof.
  intros Hl Htail Hx Hk. destruct (valid_literal_digits l Hl) as [Hne Hds].
  unfold NUMBER_PATTERN, literal_text. rewrite with_sign_append, rmatch_Alt.
  destruct (lit_digits l) as [|d ds] eqn:Ed; [congruence|].
  destruct (lit_base l); cbn [with_prefix radix] in *.
  - (* decimal: the first alternative *)
    assert (E : rmatch subject DEC_NUMBER_PATTERN
                  (with_sign (lit_sign l) (digits_text (d :: ds) +:+ tail))
                  caps k = Some x).
    { unfold DEC_NUMBER_PATTERN. rewrite rmatch_Cat.
      assert (P : rmatch subject (Plus (Class is_digit))
                    (digits_text (d :: ds) +:+ tail) caps k = Some x).
      { apply (rmatch_Plus_digits is_digit 10); auto using is_digit_digit_char.
        apply (begins_with_impl _ is_hex_digit);
          auto using is_digit_is_hex_digit. }
      inversion Hds as [|? ? Hd _]; subst.
      cbn [digits_text] in *. rewrite append_cons in *.
      rewrite rmatch_Opt_sign by (apply is_sign_digit_char; lia).
      destruct (lit_sign l); rewrite P; reflexivity. }
    rewrite E. reflexivity.
  - (* hexadecimal: the first alternative fails after the [0] *)
    assert (D : rmatch subject DEC_NUMBER_PATTERN
                  (with_sign (lit_sign l)
                     (String "0" (String "x" (digits_text (d :: ds))) +:+ tail))
                  caps k = None).
    { unfold DEC_NUMBER_PATTERN. rewrite rmatch_Cat, !append_cons.
      assert (P : forall c0,
                rmatch subject (Plus (Class is_digit))
                  (String "0" (String "x" (digits_text (d :: ds) +:+ tail)))
                  c0 k = None).
      { intros c0. unfold Plus. rewrite rmatch_Cat, rmatch_Class_cons.
        change (is_digit "0") with true. cbv iota.
        cbn [rmatch String.length star_loop]. change (is_digit "x") with false.
        cbv iota. apply Hx. }
      rewrite rmatch_Opt_sign by reflexivity.
      destruct (lit_sign l); rewrite ?P; try reflexivity.
      all: unfold Plus; rewrite rmatch_Cat, rmatch_Class_cons; reflexivity. }
    rewrite D.
    unfold HEX_NUMBER_PATTERN. rewrite rmatch_Cat, !append_cons.
    assert (P : rmatch subject (Cat (Lit "0x") (Plus (Class is_hex_digit)))
                  (String "0" (String "x" (digits_text (d :: ds) +:+ tail)))
                  caps k = Some x).
    { rewrite rmatch_Cat. cbn [Lit]. rewrite rmatch_Cat, rmatch_Char_cons.
      change (Ascii.eqb "0" "0") with true. cbv iota.
      rewrite rmatch_Cat, rmatch_Char_cons.
      change (Ascii.eqb "x" "x") with true. cbv iota. rewrite rmatch_Empty.
      apply (rmatch_Plus_digits is_hex_digit 16);
        auto using is_hex_digit_digit_char. }
    rewrite rmatch_Opt_sign by reflexivity.
    destruct (lit_sign l); rewrite P; reflexivity.
Qed.

End NumberForms.

Section NumberLines.

Context {M : Machine}.

Lemma rmatch_Group subject i r t c k :
  rmatch subject (Group i r) t c k =
  rmatch subject r t c (fun t' c' =>
    k t' (<[pred i := Some (take_string (String.length t - String.length t') t)]> c')).
Proof. reflexivity. Qed.

(** The text of a literal begins with a sign or a digit. *)
Lemma literal_text_head l :
  valid_literal l = true ->
  exists c s, literal_text l = String c s /\ (is_sign c || is_digit c) = true.
Proof.
  intros Hl. destruct (valid_literal_digits l Hl) as [Hne Hds].
  unfold literal_text. destruct (lit_sign l); cbn [with_sign];
    [|eexists _, _; split; reflexivity..].
  destruct (lit_base l); cbn [with_prefix];
    [|eexists _, _; split; reflexivity].
  destruct (lit_digits l) as [|d ds]; [congruence|].
  inversion Hds as [|? ? Hd _]; subst. cbn [digits_text radix] in *.
  eexists _, _. split; [reflexivity|].
  rewrite (is_digit_digit_char d Hd). apply orb_true_r.
Qed.

Lemma literal_begins (p : ascii -> bool) l tail :
  valid_literal l = true ->
  (forall c, (is_sign c || is_digit c) = true -> p c = false) ->
  begins_with p (literal_text l +:+ tail) = false.
Proof.
  intros Hl Hp. destruct (literal_text_head l Hl) as (c & s & -> & Hc).
  rewrite append_cons. apply Hp, Hc.
Qed.

Lemma sign_or_digit_cases (p : ascii -> bool) :
  forallb (fun c => negb (p c)) (list_ascii_of_string "-+0123456789") = true ->
  forall c, (is_sign c || is_digit c) = true -> p c = false.
Proof.
  intros H c. destruct c as [[] [] [] [] [] [] [] []]; intros Hc;
    try (vm_compute in Hc; discriminate Hc);
    rewrite forallb_forall in H; apply negb_true_iff, H; vm_compute; tauto.
Qed.

(** The group of a number, then the end of the line. *)
Lemma rmatch_number_group subject l tail :
  valid_literal l = true -> line_end tail ->
  rmatch subject (Cat (Group 1 NUMBER_PATTERN) LINE_END_PATTERN)
    (literal_text l +:+ tail) [None] (fun _ caps => Some caps) =
  Some [Some (literal_text l)].
Proof.
  intros Hl Ht. rewrite rmatch_Cat, rmatch_Group.
  apply rmatch_NUMBER_literal; [exact Hl | | |].
  - apply line_end_begins; [exact Ht | reflexivity..].
  - intros s c. apply rmatch_LINE_END_fails; try reflexivity.
    destruct s; reflexivity.
  - rewrite take_string_append.
    destruct Ht as (sp & comment & last & -> & Hsp & Hc & Hlast).
    apply rmatch_LINE_END; auto.
Qed.

Lemma re_match_value_line indent l tail :
  all_chars is_spacer indent = true -> valid_literal l = true ->
  line_end tail ->
  re_match (Pattern CValueLine) (indent +:+ literal_text l +:+ tail) =
  Some [Some (literal_text l)].
Proof.
  intros Hi Hl Ht. unfold re_match.
  change (replicate (ngroups (Pattern CValueLine)) None) with [@None string].
  cbn [Pattern]. rewrite rmatch_Cat.
  apply rmatch_INDENTATION; [exact Hi | |].
  - apply literal_begins; [exact Hl|]. apply sign_or_digit_cases. reflexivity.
  - apply rmatch_number_group; assumption.
Qed.

Lemma re_match_offset_line indent sp l tail :
  all_chars is_spacer indent = true ->
  sp <> "" -> all_chars is_spacer sp = true ->
  valid_literal l = true -> line_end tail ->
  re_match (Pattern COffsetLine)
    (indent +:+ "Offset" +:+ sp +:+ literal_text l +:+ tail) =
  Some [Some (literal_text l)].
Proof.
  intros Hi Hne Hsp Hl Ht. unfold re_match.
  change (replicate (ngroups (Pattern COffsetLine)) None) with [@None string].
  cbn [Pattern]. rewrite rmatch_Cat.
  apply rmatch_INDENTATION; [exact Hi | reflexivity |].
  rewrite rmatch_Cat, rmatch_Lit.
  change (drop_prefix "Offset" ("Offset" +:+ sp +:+ literal_text l +:+ tail))
    with (Some (sp +:+ literal_text l +:+ tail)).
  cbv iota beta. rewrite rmatch_Cat.
  destruct sp as [|c sp]; [congruence|].
  rewrite all_chars_cons in Hsp. apply andb_prop in Hsp as [Hc Hsp].
  unfold Plus, SPACER_CHARACTER_PATTERN.
  rewrite (append_cons c sp), rmatch_Cat, rmatch_Class_cons, Hc.
  apply rmatch_Star_Class_greedy; [exact Hsp | |].
  - apply literal_begins; [exact Hl|]. apply sign_or_digit_cases. reflexivity.
  - apply rmatch_number_group; assumption.
Qed.

(** A line that begins, after its indentation, with a sign or a digit is
    not an empty line, and not an offset line. *)
Lemma re_match_empty_line_None indent c s :
  all_chars is_spacer indent = true ->
  is_spacer c = false -> Ascii.eqb c "#" = false -> Ascii.eqb c newline = false ->
  re_match (Pattern CEmptyLine) (indent +:+ String c s) = None.
Proof.
  intros Hi Hsp Hh Hn.
  destruct (re_match _ _) as [groups|] eqn:E; [exfalso|reflexivity].
  apply empty_line_text in E as (indent' & tail' & E & Hi' & Ht').
  pose proof (line_end_indent _ _ Hi' Ht') as Hle. rewrite <- E in Hle.
  apply line_end_skip_spacers in Hle.
  rewrite skip_spacers_append in Hle by assumption.
  cbn [begins_with at_end] in Hle. rewrite Hh in Hle.
  destruct Hle as [Hle|Hle]; [|discriminate].
  destruct s; [congruence | discriminate].
Qed.

Lemma re_match_offset_line_None indent c s :
  all_chars is_spacer indent = true ->
  is_spacer c = false -> Ascii.eqb c "O" = false ->
  re_match (Pattern COffsetLine) (indent +:+ String c s) = None.
Proof.
  intros Hi Hsp HO.
  destruct (re_match _ _) as [groups|] eqn:E; [exfalso|reflexivity].
  apply offset_line_text in E
    as (indent' & sp & l & tail & E & Hi' & _).
  apply (f_equal skip_spacers) in E.
  rewrite !skip_spacers_append in E by (assumption || reflexivity).
  injection E as -> _. discriminate.
Qed.

End NumberLines.

(** X11.  A line made of an indentation, a literal and the end of a line is
    a value line.  For a literal within the limit on the digits, its number
    is the value of the literal when [NativeNumber] stores it exactly, and
    otherwise the line is refused with the message of the value out of
    range.  For a decimal literal of more than 4300 digits the line ends
    with the [ValueError] of [int]. *)
Theorem value_line_of_literal (M : Machine) (a : Z) (indent : string)
    (l : Literal) (tail : string) :
  all_chars is_spacer indent = true -> valid_literal l = true ->
  line_end tail ->
  (within_limits l = true ->
   NativeNumber_value (literal_value l) = literal_value l ->
   parse_line a (indent +:+ literal_text l +:+ tail) =
   Ok (ValueLine (Address_value a) (literal_value l))) /\
  (within_limits l = true ->
   NativeNumber_value (literal_value l) <> literal_value l ->
   parse_line a (indent +:+ literal_text l +:+ tail) =
   Raise (CompilationError
     ("Value " +:+ str_of_Z (literal_value l) +:+ " is out of range"))) /\
  (too_many_digits l = true ->
   parse_line a (indent +:+ literal_text l +:+ tail) = Raise ValueError).
Proof.
  intros Hi Hl Ht.
  destruct (literal_text_head l Hl) as (c & s & Ec & Hc).
  assert (P : parse_line a (indent +:+ literal_text l +:+ tail) =
              (v ← (if too_many_digits l then Raise ValueError
                    else int_to_native_number (literal_value l));
               Ok (ValueLine (Address_value a) v))).
  { unfold parse_line.
    rewrite (first_match_intro [CEmptyLine; COffsetLine] CValueLine
               [CInstructionLine; CLabelLine] _ [Some (literal_text l)]).
    - cbn [new_line]. unfold ValueLine_init.
      rewrite (parse_number_literal l Hl). reflexivity.
    - apply re_match_value_line; assumption.
    - rewrite Ec, append_cons. repeat constructor.
      + apply re_match_empty_line_None; [exact Hi | ..].
        * apply (sign_or_digit_cases is_spacer eq_refl c Hc).
        * apply (sign_or_digit_cases (fun x => Ascii.eqb x "#") eq_refl c Hc).
        * apply (sign_or_digit_cases (fun x => Ascii.eqb x newline) eq_refl c Hc).
      + apply re_match_offset_line_None; [exact Hi | ..].
        * apply (sign_or_digit_cases is_spacer eq_refl c Hc).
        * apply (sign_or_digit_cases (fun x => Ascii.eqb x "O") eq_refl c Hc). }
  rewrite P. split; [|split].
  - intros Hw H. destruct (within_limits_facts l Hl Hw) as [-> _].
    rewrite (int_to_native_number_Ok _ H). reflexivity.
  - intros Hw H. destruct (within_limits_facts l Hl Hw) as [-> Hp].
    rewrite (int_to_native_number_Raise _ H Hp). reflexivity.
  - intros ->. reflexivity.
Qed.

Lemma value_line_of_literal_witness :
  parse_line (M := example_machine) 2 ("  " +:+ "-0x7F" +:+ " # least but one") =
    Ok (ValueLine 2 (-127)) /\
  parse_line (M := example_machine) 2 ("" +:+ "200" +:+ "") =
    Raise (CompilationError "Value 200 is out of range").
Proof.
  split.
  - apply (value_line_of_literal example_machine 2 "  "
             {| lit_sign := MinusSign; lit_base := Hexadecimal;
                lit_digits := [ {| digit := 7; upper := false |};
                                {| digit := 15; upper := true |} ] |}
             " # least but one"); try reflexivity.
    exists " ", "# least but one", "".
    repeat split; right; eexists; split; reflexivity.
  - apply (value_line_of_literal example_machine 2 ""
             {| lit_sign := NoSign; lit_base := Decimal;
                lit_digits := [ {| digit := 2; upper := false |};
                                {| digit := 0; upper := false |};
                                {| digit := 0; upper := false |} ] |}
             ""); try reflexivity.
    + exists "", "", "". repeat split; left; reflexivity.
    + discriminate.
Defined.

(** X12.  A line made of an indentation, the word [Offset], spaces or tabs,
    a literal and the end of a line is an offset line.  For a literal
    within the limit on the digits, it is refused with the message of the
    value out of range when [Address] does not store the value of the
    literal exactly, with the message of the invalid offset when the value
    is below the address of the line, and otherwise its offset is the value
    of the literal.  For a decimal literal of more than 4300 digits the
    line ends with the [ValueError] of [int]. *)
Theorem offset_line_of_literal (M : Machine) (a : Z) (indent sp : string)
    (l : Literal) (tail : string) :
  all_chars is_spacer indent = true ->
  sp <> "" -> all_chars is_spacer sp = true ->
  valid_literal l = true -> line_end tail ->
  (within_limits l = true ->
   parse_line a (indent +:+ "Offset" +:+ sp +:+ literal_text l +:+ tail) =
   if decide (Address_value (literal_value l) = literal_value l)
   then
     if decide (literal_value l < Address_value a)
     then Raise (CompilationError
            ("Inavalid offset " +:+ str_of_Z (literal_value l) +:+ " at "
             +:+ str_of_Z (Address_value a)))
     else Ok (OffsetLine (Address_value a) (literal_value l))
   else Raise (CompilationError
          ("Value " +:+ str_of_Z (literal_value l) +:+ " is out of range"))) /\
  (too_many_digits l = true ->
   parse_line a (indent +:+ "Offset" +:+ sp +:+ literal_text l +:+ tail) =
   Raise ValueError).
Proof.
  intros Hi Hne Hsp Hl Ht.
  assert (P : parse_line a
                (indent +:+ "Offset" +:+ sp +:+ literal_text l +:+ tail) =
              OffsetLine_init (Address_value a) (literal_text l)).
  { unfold parse_line.
    rewrite (first_match_intro [CEmptyLine] COffsetLine
               [CValueLine; CInstructionLine; CLabelLine] _
               [Some (literal_text l)]).
    - reflexivity.
    - apply re_match_offset_line; assumption.
    - repeat constructor.
      apply (re_match_empty_line_None indent "O"); [exact Hi | reflexivity..]. }
  rewrite P. unfold OffsetLine_init.
  rewrite (parse_address_literal_literal l Hl). split.
  - intros Hw. destruct (within_limits_facts l Hl Hw) as [-> Hp].
    destruct (decide (Address_value (literal_value l) = literal_value l)) as [E|E].
    + rewrite (int_to_address_Ok _ E). cbn [mbind result_bind].
      destruct (Z.ltb_spec (literal_value l) (Address_value a));
        destruct (decide (literal_value l < Address_value a)); try lia;
        reflexivity.
    + rewrite (int_to_address_Raise _ E Hp). reflexivity.
  - intros ->. reflexivity.
Qed.

Lemma offset_line_of_literal_witness :
  parse_line (M := example_machine) 4 (" " +:+ "Offset" +:+ "  " +:+ "0x10" +:+ "") =
    Ok (OffsetLine 4 16) /\
  parse_line (M := example_machine) 4 ("" +:+ "Offset" +:+ " " +:+ "3" +:+ " # back") =
    Raise (CompilationError "Inavalid offset 3 at 4").
Proof.
  split.
  - apply (offset_line_of_literal example_machine 4 " " "  "
             {| lit_sign := NoSign; lit_base := Hexadecimal;
                lit_digits := [ {| digit := 1; upper := false |};
                                {| digit := 0; upper := false |} ] |}
             ""); try reflexivity; [discriminate|].
    exists "", "", "". repeat split; left; reflexivity.
  - apply (offset_line_of_literal example_machine 4 "" " "
             {| lit_sign := NoSign; lit_base := Decimal;
                lit_digits := [ {| digit := 3; upper := false |} ] |}
             " # back"); try reflexivity; [discriminate|].
    exists " ", "# back", "".
    repeat split; right; eexists; split; reflexivity.
Defined.

(** ** Labels *)

Section Labels.

Variable subject : string.

(** The label pattern on an identifier and its colon. *)
Lemma rmatch_LABEL c w rest caps k x :
  is_identifier_first c = true -> all_chars is_identifier_char w = true ->
  k rest caps = Some x ->
  rmatch subject LABEL_PATTERN (String c (w +:+ ":") +:+ rest) caps k = Some x.
Proof.
  intros Hc Hw Hk.
  unfold LABEL_PATTERN, IDENTIFIER_FIRST_CHARACTER_PATTERN,
    IDENTIFIER_CHARACTER_PATTERN.
  rewrite append_cons, append_assoc, rmatch_Cat, rmatch_Class_cons, Hc.
  rewrite rmatch_Cat.
  apply rmatch_Star_Class_greedy; [exact Hw | reflexivity |].
  rewrite append_cons, rmatch_Char_cons. exact Hk.
Qed.

End Labels.

Lemma matches_LABEL_label c w :
  is_identifier_first c = true -> all_chars is_identifier_char w = true ->
  matches LABEL_PATTERN (String c (w +:+ ":")) = true.
Proof.
  intros Hc Hw. apply matches_intro. unfold re_match.
  rewrite <- (append_nil_r (String c (w +:+ ":"))) at 2.
  erewrite rmatch_LABEL; eauto.
Qed.

Lemma is_label_text_label c w last :
  is_identifier_first c = true -> all_chars is_identifier_char w = true ->
  at_end last = true ->
  is_label_text (String c (w +:+ ":") +:+ last) = true.
Proof.
  intros Hc Hw Hlast. unfold is_label_text. apply matches_intro.
  unfold re_match.
  change (rmatch ?s (Cat Bol ?r) ?t ?c0 ?k0)
    with (if (String.length t =? String.length s)%nat
          then rmatch s r t c0 k0 else None).
  rewrite Nat.eqb_refl, rmatch_Cat.
  erewrite rmatch_LABEL; eauto.
  destruct last as [|a [|a' r]]; [reflexivity | | discriminate].
  cbn [at_end] in Hlast. cbn [rmatch]. rewrite Hlast. reflexivity.
Qed.

(** X13.  [Label] accepts a text exactly when it is an identifier and a
    colon, up to one final newline, which the anchor [$] lets through; it
    returns the text as it is, and refuses every other text as an invalid
    label. *)
Theorem Label_accepts_identifier_colon (s : string) :
  ((exists c w last,
      s = String c (w +:+ ":") +:+ last /\
      is_identifier_first c = true /\ all_chars is_identifier_char w = true /\
      at_end last = true) ->
   Label s = Ok s) /\
  (forall l, Label s = Ok l ->
     l = s /\
     exists c w last,
       s = String c (w +:+ ":") +:+ last /\
       is_identifier_first c = true /\ all_chars is_identifier_char w = true /\
       at_end last = true) /\
  (forall e, Label s = Raise e -> e = CompilationError "Invalid label").
Proof.
  split; [|split].
  - intros (c & w & last & -> & Hc & Hw & Hlast). unfold Label.
    fold (is_label_text (String c (w +:+ ":") +:+ last)).
    rewrite is_label_text_label by assumption. reflexivity.
  - intros l H. apply Label_Ok in H as [-> H]. split; [reflexivity|].
    unfold is_label_text, matches in H.
    destruct (re_match _ s) as [groups|] eqn:E; [|discriminate].
    unfold re_match in E.
    apply rmatch_sound_end in E as [_ [rest' E]]; [|reflexivity].
    inversion E as [| | | |? ? ? s1 ? Hb Hr| | | | | | |]; subst.
    inversion Hb; subst.
    inversion Hr as [| | | |? ? ? s2 ? Hl He| | | | | | |]; subst.
    inversion He as [| | | | | | | | | | |? Hend]; subst.
    apply consumes_LABEL in Hl as (c & w & -> & Hc & Hw).
    exists c, w, rest'. auto.
  - intros e. unfold Label. destruct (matches _ s); [discriminate|].
    intros [= <-]. reflexivity.
Qed.

Lemma Label_accepts_identifier_colon_witness :
  Label "loop_1:" = Ok "loop_1:".
Proof.
  apply (Label_accepts_identifier_colon "loop_1:").
  exists "l"%char, "oop_1", "". repeat split; reflexivity.
Defined.

(** ** The arguments of an instruction, one by one *)

Section Arguments.

Context {M : Machine}.

Lemma parse_address_of_literal l labels :
  valid_literal l = true -> within_limits l = true ->
  parse_address (literal_text l) labels =
  if decide (Address_value (literal_value l) = literal_value l)
  then Ok (WAddress (literal_value l))
  else Raise (CompilationError ("Invalid address value " +:+ literal_text l)).
Proof.
  intros Hl Hw. unfold parse_address.
  rewrite (parse_address_literal_literal l Hl).
  destruct (within_limits_facts l Hl Hw) as [-> Hp].
  destruct (decide (Address_value (literal_value l) = literal_value l)) as [E|E].
  - rewrite (int_to_address_Ok _ E). reflexivity.
  - rewrite (int_to_address_Raise _ E Hp).
    destruct (literal_text_first l Hl) as (c & s & -> & Hc).
    rewrite (matches_LABEL_other c s Hc). reflexivity.
Qed.

(** The [ValueError] of the limit on the digits is no compilation error:
    [parse_address] lets it through. *)
Lemma parse_address_of_long_literal l labels :
  valid_literal l = true ->
  too_many_digits l = true \/
  (Address_value (literal_value l) <> literal_value l /\
   str_limit <= Z.abs (literal_value l)) ->
  parse_address (literal_text l) labels = Raise ValueError.
Proof.
  intros Hl H. unfold parse_address.
  rewrite (parse_address_literal_literal l Hl).
  destruct (too_many_digits l); [reflexivity|].
  destruct H as [H|[E Hp]]; [discriminate|].
  rewrite (int_to_address_ValueError _ E Hp). reflexivity.
Qed.

Lemma parse_address_of_label c w labels :
  is_identifier_first c = true -> all_chars is_identifier_char w = true ->
  parse_address (String c (w +:+ ":")) labels =
  match labels with
  | None => Ok (WLabel (String c (w +:+ ":")))
  | Some table =>
      match table !! String c (w +:+ ":") with
      | Some a => Ok (WAddress a)
      | None => Raise (CompilationError ("Invalid label " +:+ String c (w +:+ ":")))
      end
  end.
Proof.
  intros Hc Hw. unfold parse_address.
  destruct (identifier_first_facts c Hc) as (_ & Hs & Hd).
  destruct (matches_number_other c (w +:+ ":") Hs Hd) as [H1 H2].
  unfold parse_address_literal. rewrite H1, H2.
  rewrite (matches_LABEL_label c w Hc Hw).
  destruct labels as [table|]; [reflexivity|].
  unfold Label. fold (is_label_text (String c (w +:+ ":"))).
  rewrite <- (append_nil_r (String c (w +:+ ":"))) at 1.
  rewrite is_label_text_label by auto. reflexivity.
Qed.

End Arguments.

(** X14.  [parse_address] on the two forms of an argument, with a table of
    labels or without one.  A literal within the limit on the digits gives
    the address of its value, whatever the table holds; when [Address]
    does not store the value exactly, the message of the value out of range
    is dropped and the text is refused as an invalid address value.  A
    literal beyond the limit, which [int] refuses or whose value the
    dropped message cannot print, ends the call with a [ValueError], which
    is not caught.  An identifier and its colon gives, without a table,
    itself as a label; with a table, the address the table holds for it,
    colon included, and the message of the invalid label when the table
    has none. *)
Theorem parse_address_of_argument (M : Machine)
    (labels : option (gmap string Z)) :
  (forall l, valid_literal l = true -> within_limits l = true ->
     parse_address (literal_text l) labels =
     if decide (Address_value (literal_value l) = literal_value l)
     then Ok (WAddress (literal_value l))
     else Raise (CompilationError ("Invalid address value " +:+ literal_text l))) /\
  (forall l, valid_literal l = true ->
     too_many_digits l = true \/
     (Address_value (literal_value l) <> literal_value l /\
      str_limit <= Z.abs (literal_value l)) ->
     parse_address (literal_text l) labels = Raise ValueError) /\
  (forall c w,
     is_identifier_first c = true -> all_chars is_identifier_char w = true ->
     parse_address (String c (w +:+ ":")) labels =
     match labels with
     | None => Ok (WLabel (String c (w +:+ ":")))
     | Some table =>
         match table !! String c (w +:+ ":") with
         | Some a => Ok (WAddress a)
         | None =>
             Raise (CompilationError ("Invalid label " +:+ String c (w +:+ ":")))
         end
     end).
Proof.
  split; [|split].
  - intros l. apply parse_address_of_literal.
  - intros l. apply parse_address_of_long_literal.
  - intros c w. apply parse_address_of_label.
Qed.

Lemma parse_address_of_argument_witness :
  parse_address (M := example_machine) "0x100" (Some {["0x100" := 3]}) =
    Raise (CompilationError "Invalid address value 0x100") /\
  parse_address (M := example_machine) "end:" (Some {["end:" := 7]}) =
    Ok (WAddress 7).
Proof.
  destruct (parse_address_of_argument example_machine (Some {["0x100" := 3]}))
    as [H1 _].
  destruct (parse_address_of_argument example_machine (Some {["end:" := 7]}))
    as (_ & _ & H2).
  split.
  - exact (H1 {| lit_sign := NoSign; lit_base := Hexadecimal;
                 lit_digits := [{| digit := 1; upper := false |};
                                {| digit := 0; upper := false |};
                                {| digit := 0; upper := false |}] |}
             eq_refl eq_refl).
  - exact (H2 "e"%char "nd" eq_refl eq_refl).
Defined.

(** ** Label lines *)

Section LabelLines.

Context {M : Machine}.

(** What the pattern of the names consumes is one of the names. *)
Lemma consumes_names names s s' :
  consumes (Alts (Lit <$> names)) s s' ->
  (names = [] /\ s = s') \/ exists n, n ∈ names /\ s = n +:+ s'.
Proof.
  induction names as [|n [|n' names] IH]; intros H.
  - inversion H; subst. left. auto.
  - right. exists n. split; [apply list_elem_of_here|].
    apply (consumes_Lit n), H.
  - right.
    change (Alts (Lit <$> n :: n' :: names))
      with (Alt (Lit n) (Alts (Lit <$> n' :: names))) in H.
    inversion H as [| | | | |? ? ? ? H1|? ? ? ? H1| | | | |]; subst.
    + exists n. split; [apply list_elem_of_here|]. apply (consumes_Lit n), H1.
    + destruct (IH H1) as [[? _]|(m & Hm & ->)]; [discriminate|].
      exists m. split; [apply list_elem_of_further, Hm | reflexivity].
Qed.

Lemma instruction_line_name line groups :
  re_match (Pattern CInstructionLine) line = Some groups ->
  exists indent name args_str tail,
    line = indent +:+ name +:+ args_str +:+ tail /\
    all_chars is_spacer indent = true /\
    ((Instructions = [] /\ name = "") \/ name ∈ Instructions) /\
    args_text args_str /\ line_end tail.
Proof.
  unfold re_match.
  assert (G : ngroups (Pattern CInstructionLine) = 2%nat).
  { cbn [Pattern ngroups INDENTATION_PATTERN LINE_END_PATTERN Plus Opt
         SPACER_CHARACTER_PATTERN ADDRESS_PATTERN].
    unfold INSTRUCTION_NAME_PATTERN. rewrite ngroups_names. reflexivity. }
  rewrite G. change (replicate 2 None) with [@None string; None].
  cbn [Pattern rmatch]. intros H.
  apply (rmatch_sound _ _ group_free_INDENTATION) in H as (s1 & H1 & H).
  apply (rmatch_sound _ INSTRUCTION_NAME_PATTERN (group_free_names _)) in H
    as (s2 & H2 & H).
  apply (rmatch_sound line (Star (Cat (Plus (Char " ")) ADDRESS_PATTERN))
           eq_refl) in H as (s3 & H3 & H).
  apply (rmatch_sound_end _ _ _ _ _ group_free_LINE_END) in H as [-> [s4 H4]].
  apply consumes_INDENTATION in H1 as (indent & -> & Hi).
  apply consumes_names in H2.
  apply consumes_arguments in H3 as (w & -> & Hw).
  apply consumes_LINE_END in H4.
  destruct H2 as [[E ->]|(name & Hn & ->)].
  - exists indent, "", w, s3. rewrite append_nil_l. auto 10.
  - exists indent, name, w, s3. auto 10.
Qed.

Lemma begins_with_label_char w t :
  all_chars is_identifier_char w = true ->
  begins_with label_char (w +:+ String ":" t) = true.
Proof.
  intros Hw. destruct w as [|c w].
  - reflexivity.
  - rewrite all_chars_cons in Hw. apply andb_prop in Hw as [Hc _].
    rewrite append_cons. cbn [begins_with]. unfold label_char.
    rewrite Hc. reflexivity.
Qed.

Lemma is_spacer_facts c :
  is_spacer c = true -> label_char c = false.
Proof.
  destruct c as [[] [] [] [] [] [] [] []]; intros H;
    try (vm_compute in H; discriminate H); reflexivity.
Qed.

Lemma identifier_char_not_spacer c :
  is_identifier_char c = true ->
  is_spacer c = false /\ Ascii.eqb c ":" = false /\ Ascii.eqb c "#" = false /\
  Ascii.eqb c newline = false.
Proof.
  destruct c as [[] [] [] [] [] [] [] []]; intros H;
    try (vm_compute in H; discriminate H); repeat split; reflexivity.
Qed.

(** A text of identifier characters at the head of an identifier and its
    colon is a part of the identifier. *)
Lemma identifier_prefix name : forall x w t,
  all_chars is_identifier_char name = true ->
  all_chars is_identifier_char w = true ->
  name +:+ x = w +:+ String ":" t ->
  exists w2, all_chars is_identifier_char w2 = true /\ x = w2 +:+ String ":" t.
Proof.
  induction name as [|n name IH]; intros x w t Hn Hw E.
  - rewrite append_nil_l in E. eauto.
  - rewrite all_chars_cons in Hn. apply andb_prop in Hn as [Hn0 Hn].
    rewrite append_cons in E. destruct w as [|c w].
    + rewrite append_nil_l in E. injection E as -> _.
      apply identifier_char_not_spacer in Hn0 as (_ & Hn0 & _). discriminate.
    + rewrite all_chars_cons in Hw. apply andb_prop in Hw as [_ Hw].
      rewrite append_cons in E. injection E as _ E. eauto.
Qed.

Lemma label_text_split c w tail :
  String c (w +:+ ":") +:+ tail = String c w +:+ String ":" tail.
Proof.
  rewrite !append_cons, append_assoc, (append_cons ":" ""), append_nil_l.
  reflexivity.
Qed.

Section OneLine.

Variables (indent : string) (c : ascii) (w tail : string).
Hypothesis Hi : all_chars is_spacer indent = true.
Hypothesis Hc : is_identifier_first c = true.
Hypothesis Hw : all_chars is_identifier_char w = true.

Lemma label_line_rest rest :
  indent +:+ String c (w +:+ ":") +:+ tail = rest ->
  skip_spacers rest = String c w +:+ String ":" tail.
Proof.
  intros <-. rewrite skip_spacers_append; [apply label_text_split | exact Hi |].
  rewrite append_cons. cbn [begins_with].
  destruct (identifier_first_facts c Hc) as (H & _).
  apply identifier_char_not_spacer in H as [H _]. exact H.
Qed.

Lemma label_head_identifier : all_chars is_identifier_char (String c w) = true.
Proof.
  rewrite all_chars_cons, Hw.
  destruct (identifier_first_facts c Hc) as (-> & _). reflexivity.
Qed.

Lemma re_match_label_line_empty :
  re_match (Pattern CEmptyLine) (indent +:+ String c (w +:+ ":") +:+ tail) = None.
Proof.
  rewrite append_cons.
  destruct (identifier_first_facts c Hc) as (H & _).
  apply identifier_char_not_spacer in H as (H1 & _ & H2 & H3).
  apply re_match_empty_line_None; assumption.
Qed.

Lemma re_match_label_line_offset :
  re_match (Pattern COffsetLine) (indent +:+ String c (w +:+ ":") +:+ tail) = None.
Proof.
  destruct (re_match _ _) as [groups|] eqn:E; [exfalso|reflexivity].
  apply offset_line_text in E
    as (indent' & sp & l & tail' & E & Hi' & Hne & Hsp & _).
  apply label_line_rest in E.
  rewrite skip_spacers_append in E by (assumption || reflexivity).
  apply identifier_prefix in E as (w2 & Hw2 & E);
    [| reflexivity | apply label_head_identifier].
  apply (f_equal (begins_with label_char)) in E.
  rewrite (begins_with_label_char _ _ Hw2) in E.
  destruct sp as [|s0 sp]; [congruence|].
  rewrite all_chars_cons in Hsp. apply andb_prop in Hsp as [Hs0 _].
  rewrite append_cons in E. cbn [begins_with] in E.
  rewrite (is_spacer_facts _ Hs0) in E. discriminate.
Qed.

Lemma re_match_label_line_value :
  re_match (Pattern CValueLine) (indent +:+ String c (w +:+ ":") +:+ tail) = None.
Proof.
  destruct (re_match _ _) as [groups|] eqn:E; [exfalso|reflexivity].
  apply value_line_text in E as (indent' & l & tail' & E & Hi' & Hl & _).
  apply label_line_rest in E.
  destruct (literal_text_head l Hl) as (c' & s & El & Hc').
  rewrite El, append_cons in E.
  rewrite skip_spacers_append in E;
    [| exact Hi' | apply (sign_or_digit_cases is_spacer eq_refl c' Hc')].
  rewrite append_cons in E. injection E as -> _.
  destruct (identifier_first_facts c Hc) as (_ & H1 & H2).
  rewrite H1, H2 in Hc'. discriminate.
Qed.

Hypothesis Hnames : Forall (fun n => is_identifier n = true) Instructions.
Hypothesis Hcatalog : Instructions <> [].

Lemma re_match_label_line_instruction :
  re_match (Pattern CInstructionLine) (indent +:+ String c (w +:+ ":") +:+ tail) = None.
Proof.
  destruct (re_match _ _) as [groups|] eqn:E; [exfalso|reflexivity].
  apply instruction_line_name in E
    as (indent' & name & args_str & tail' & E & Hi' & Hn & Hargs & Ht').
  destruct Hn as [[Hn _]|Hn]; [congruence|].
  rewrite Forall_forall in Hnames.
  destruct (is_identifier_chars name (Hnames _ Hn)) as [Hne Hid].
  fold (all_chars is_identifier_char name) in Hid.
  apply label_line_rest in E.
  destruct name as [|n name]; [congruence|].
  rewrite all_chars_cons in Hid. apply andb_prop in Hid as [Hn0 Hid].
  rewrite skip_spacers_append in E;
    [| exact Hi'
     | rewrite append_cons; apply (identifier_char_not_spacer n Hn0)].
  apply identifier_prefix in E as (w2 & Hw2 & E);
    [| rewrite all_chars_cons, Hn0, Hid; reflexivity
     | apply label_head_identifier].
  apply (f_equal (begins_with label_char)) in E.
  rewrite (begins_with_label_char _ _ Hw2) in E.
  destruct Hargs as [|c0 sp tok rest Hsp _ _].
  - rewrite append_nil_l in E.
    rewrite (line_end_begins label_char _ Ht') in E by reflexivity.
    discriminate.
  - rewrite all_chars_cons in Hsp. apply andb_prop in Hsp as [Hc0 _].
    apply Ascii.eqb_eq in Hc0 as ->.
    rewrite !append_cons in E. discriminate.
Qed.

Hypothesis Ht : line_end tail.

Lemma re_match_label_line :
  re_match (Pattern CLabelLine) (indent +:+ String c (w +:+ ":") +:+ tail) =
  Some [Some (String c (w +:+ ":"))].
Proof.
  unfold re_match.
  change (replicate (ngroups (Pattern CLabelLine)) None) with [@None string].
  cbn [Pattern]. rewrite rmatch_Cat.
  apply rmatch_INDENTATION; [exact Hi | |].
  - rewrite append_cons. cbn [begins_with].
    destruct (identifier_first_facts c Hc) as (H & _).
    apply identifier_char_not_spacer in H as [H _]. exact H.
  - rewrite rmatch_Cat, rmatch_Group.
    apply rmatch_LABEL; [exact Hc | exact Hw |].
    rewrite take_string_append.
    destruct Ht as (sp & comment & last & -> & Hsp & Hcm & Hlast).
    apply rmatch_LINE_END; auto.
Qed.

End OneLine.

End LabelLines.

(** X15.  When the catalog has a name and all its names are identifiers,
    a line made of an indentation, an identifier with its colon and the end
    of a line is a label line, and its label is the identifier with the
    colon. *)
Theorem label_line_of_identifier (M : Machine) (a : Z) (indent : string)
    (c : ascii) (w tail : string) :
  Instructions <> [] ->
  Forall (fun n => is_identifier n = true) Instructions ->
  all_chars is_spacer indent = true ->
  is_identifier_first c = true -> all_chars is_identifier_char w = true ->
  line_end tail ->
  parse_line a (indent +:+ String c (w +:+ ":") +:+ tail) =
  Ok (LabelLine (Address_value a) (String c (w +:+ ":"))).
Proof.
  intros Hcat Hnames Hi Hc Hw Ht. unfold parse_line.
  rewrite (first_match_intro
             [CEmptyLine; COffsetLine; CValueLine; CInstructionLine]
             CLabelLine [] _ [Some (String c (w +:+ ":"))]).
  - cbn [new_line]. unfold LabelLine_init, Label.
    fold (is_label_text (String c (w +:+ ":"))).
    rewrite <- (append_nil_r (String c (w +:+ ":"))) at 1.
    rewrite is_label_text_label by auto. reflexivity.
  - apply re_match_label_line; assumption.
  - repeat constructor.
    + apply re_match_label_line_empty; assumption.
    + apply re_match_label_line_offset; assumption.
    + apply re_match_label_line_value; assumption.
    + apply re_match_label_line_instruction; assumption.
Qed.

Lemma label_line_of_identifier_witness :
  parse_line (M := example_machine) 5 ("  " +:+ "Offset_1:" +:+ " # here") =
  Ok (LabelLine 5 "Offset_1:").
Proof.
  apply (label_line_of_identifier example_machine 5 "  " "O" "ffset_1" " # here").
  - discriminate.
  - repeat constructor.
  - reflexivity.
  - reflexivity.
  - reflexivity.
  - exists " ", "# here", "".
    split; [reflexivity | split; [reflexivity | split; [|reflexivity]]].
    right. eexists. split; reflexivity.
Defined.

(** ** Instruction lines *)

Lemma drop_prefix_append p r : drop_prefix p (p +:+ r) = Some r.
Proof.
  induction p as [|c p IH]; [reflexivity|].
  rewrite append_cons. cbn [drop_prefix]. rewrite Ascii.eqb_refl. exact IH.
Qed.

Lemma identifier_splits_other r :
  begins_with is_identifier_char r = false -> identifier_splits r = [].
Proof.
  destruct r as [|c r]; [reflexivity|]. cbn [begins_with identifier_splits].
  intros ->. reflexivity.
Qed.

(** An identifier in front of a text that goes on with no character of an
    identifier: the text is cut after the identifier, or inside it. *)
Lemma identifier_splits_run name : forall r p r',
  name <> "" -> all_chars is_identifier_char name = true ->
  begins_with is_identifier_char r = false ->
  (p, r') ∈ identifier_splits (name +:+ r) ->
  p = name \/ begins_with is_identifier_char r' = true.
Proof.
  induction name as [|c name IH]; intros r p r' Hne Hn Hr Hin; [congruence|].
  rewrite all_chars_cons in Hn. apply andb_prop in Hn as [Hc Hn].
  rewrite append_cons in Hin. cbn [identifier_splits] in Hin. rewrite Hc in Hin.
  apply elem_of_cons in Hin as [E|Hin].
  - injection E as -> ->. destruct name as [|c' name].
    + left. reflexivity.
    + right. rewrite all_chars_cons in Hn. apply andb_prop in Hn as [Hc' _].
      rewrite append_cons. exact Hc'.
  - apply list_elem_of_fmap in Hin as ([p0 r0] & E & Hin).
    cbn in E. injection E as -> ->.
    destruct name as [|c' name].
    + rewrite append_nil_l, (identifier_splits_other _ Hr) in Hin. inversion Hin.
    + assert (H : p0 = String c' name \/ begins_with is_identifier_char r0 = true)
        by (apply (IH r); [discriminate | assumption..]).
      destruct H as [->|H]; [left; reflexivity | right; exact H].
Qed.

Lemma token_head t :
  is_token t ->
  exists c s, t = String c s /\
    (is_sign c || is_digit c || is_identifier_first c) = true.
Proof.
  intros [(l & Hl & ->)|(c & w & -> & Hc & _)].
  - destruct (literal_text_head l Hl) as (c & s & -> & Hc).
    exists c, s. rewrite Hc. auto.
  - exists c, (w +:+ ":"). rewrite Hc, orb_true_r. auto.
Qed.

Lemma token_first_facts c :
  (is_sign c || is_digit c || is_identifier_first c) = true ->
  is_spacer c = false /\ Ascii.eqb c " " = false /\ Ascii.eqb c "#" = false /\
  Ascii.eqb c newline = false.
Proof.
  destruct c as [[] [] [] [] [] [] [] []]; intros H;
    try (vm_compute in H; discriminate H); repeat split; reflexivity.
Qed.

Lemma spaces_spacers sp :
  all_chars (fun x => Ascii.eqb x " ") sp = true -> all_chars is_spacer sp = true.
Proof.
  apply all_chars_impl. intros c H. apply Ascii.eqb_eq in H as ->. reflexivity.
Qed.

(** What one argument and the spaces before it consume. *)
Lemma consumes_argument s s' :
  consumes (Cat (Plus (Char " ")) ADDRESS_PATTERN) s s' ->
  exists sp tok,
    s = String " " sp +:+ tok +:+ s' /\
    all_chars (fun x => Ascii.eqb x " ") sp = true /\ is_token tok.
Proof.
  intros H1.
  inversion H1 as [| | | |? ? ? s1 ? Hsp Hadr| | | | | | |]; subst.
  apply consumes_ADDRESS in Hadr as (tok & Htok & ->).
  unfold Plus in Hsp.
  inversion Hsp as [| | | |? ? ? s2 ? Hc Hstar| | | | | | |]; subst.
  inversion Hc; subst.
  assert (Hsp' : exists sp, s2 = sp +:+ (tok +:+ s') /\
                   all_chars (fun x => Ascii.eqb x " ") sp = true).
  { clear -Hstar. remember (Star (Char " ")) as r eqn:Er.
    induction Hstar as [| | | | | | | r s | r s s1 s2 H1 _ H2 IH | | |];
      try discriminate; injection Er as ->.
    - exists "". auto.
    - destruct (IH eq_refl) as (sp & -> & Hsp). inversion H1; subst.
      exists (String " " sp). split; [reflexivity|].
      rewrite all_chars_cons, Hsp. reflexivity. }
  destruct Hsp' as (sp & -> & Hspaces).
  exists sp, tok. rewrite append_cons. auto.
Qed.

Section ArgumentsPattern.

Variable subject : string.

Lemma rmatch_argument_other c s caps k :
  Ascii.eqb c " " = false ->
  rmatch subject (Cat (Plus (Char " ")) ADDRESS_PATTERN) (String c s) caps k = None.
Proof.
  intros H. unfold Plus. rewrite !rmatch_Cat, rmatch_Char_cons, H. reflexivity.
Qed.

Lemma star_argument_other fuel c s caps k :
  Ascii.eqb c " " = false ->
  star_loop (rmatch subject (Cat (Plus (Char " ")) ADDRESS_PATTERN)) fuel
    (String c s) caps k = k (String c s) caps.
Proof.
  intros H. destruct fuel as [|fuel]; [reflexivity|]. cbn [star_loop].
  rewrite rmatch_argument_other by exact H. reflexivity.
Qed.

(** No argument begins the end of a line. *)
Lemma rmatch_argument_line_end tail caps k :
  line_end tail ->
  rmatch subject (Cat (Plus (Char " ")) ADDRESS_PATTERN) tail caps k = None.
Proof.
  intros Ht.
  destruct (rmatch _ _ tail caps k) as [x|] eqn:E; [exfalso|reflexivity].
  apply (rmatch_sound subject (Cat (Plus (Char " ")) ADDRESS_PATTERN) eq_refl)
    in E as (rest' & Hc & _).
  apply consumes_argument in Hc as (sp & tok & -> & Hsp & Htok).
  apply line_end_skip_spacers in Ht.
  destruct (token_head tok Htok) as (c & s & -> & Hc).
  destruct (token_first_facts c Hc) as (H1 & _ & H2 & H3).
  rewrite skip_spacers_append in Ht;
    [| apply (spaces_spacers (String " " sp)); rewrite all_chars_cons, Hsp; reflexivity
     | rewrite append_cons; exact H1].
  rewrite append_cons in Ht. cbn [begins_with at_end] in Ht.
  rewrite H2 in Ht. destruct Ht as [Ht|Ht]; [|discriminate].
  destruct (s +:+ rest'); [congruence | discriminate].
Qed.

Lemma rmatch_NUMBER_other c s caps k :
  is_sign c = false -> is_digit c = false ->
  rmatch subject NUMBER_PATTERN (String c s) caps k = None.
Proof.
  intros Hs Hd.
  assert (H0 : Ascii.eqb c "0" = false).
  { destruct (Ascii.eqb_spec c "0") as [->|]; [discriminate Hd | reflexivity]. }
  unfold NUMBER_PATTERN, DEC_NUMBER_PATTERN, HEX_NUMBER_PATTERN, Opt, Plus.
  cbn [rmatch Lit]. rewrite ?Hs, ?Hd, ?H0. reflexivity.
Qed.

(** A token of the arguments, when the continuation accepts what follows
    it and refuses a text that begins with [x]. *)
Lemma rmatch_ADDRESS_token tok rest caps k x :
  is_token tok -> begins_with is_hex_digit rest = false ->
  (forall s c, k (String "x" s) c = None) ->
  k rest caps = Some x ->
  rmatch subject ADDRESS_PATTERN (tok +:+ rest) caps k = Some x.
Proof.
  intros [(l & Hl & ->)|(c & w & -> & Hc & Hw)] Hrest Hx Hk;
    unfold ADDRESS_PATTERN, ADDRESS_LITERAL_PATTERN; rewrite rmatch_Alt.
  - rewrite (rmatch_NUMBER_literal subject l rest caps k x); auto.
  - destruct (identifier_first_facts c Hc) as (_ & Hs & Hd).
    rewrite append_cons, (rmatch_NUMBER_other c _ caps k Hs Hd).
    rewrite <- append_cons. apply rmatch_LABEL; assumption.
Qed.

Lemma args_text_begins (p : ascii -> bool) args tail :
  args_text args -> line_end tail ->
  p " "%char = false -> p tab = false -> p "#"%char = false ->
  p newline = false ->
  begins_with p (args +:+ tail) = false.
Proof.
  intros [|c sp tok rest Hsp _ _] Ht H1 H2 H3 H4.
  - rewrite append_nil_l. apply line_end_begins; assumption.
  - rewrite all_chars_cons in Hsp. apply andb_prop in Hsp as [Hc _].
    apply Ascii.eqb_eq in Hc as ->. rewrite !append_cons. exact H1.
Qed.

(** The arguments, all of them, when the continuation accepts the end of
    the line after them. *)
Lemma star_arguments args tail caps k x :
  args_text args -> line_end tail ->
  (forall s c, k (String "x" s) c = None) ->
  k tail caps = Some x ->
  forall fuel, (String.length (args +:+ tail) <= fuel)%nat ->
    star_loop (rmatch subject (Cat (Plus (Char " ")) ADDRESS_PATTERN)) fuel
      (args +:+ tail) caps k = Some x.
Proof.
  intros Hargs Ht Hx Hk.
  induction Hargs as [|c sp tok rest Hsp Htok Hrest IH]; intros fuel Hfuel.
  - rewrite append_nil_l. destruct fuel as [|fuel]; [exact Hk|].
    cbn [star_loop]. rewrite (rmatch_argument_line_end _ _ _ Ht). exact Hk.
  - rewrite all_chars_cons in Hsp. apply andb_prop in Hsp as [Hc Hsp].
    apply Ascii.eqb_eq in Hc as ->.
    rewrite !append_assoc in *. rewrite append_cons in *.
    destruct fuel as [|fuel]; [cbn [String.length] in Hfuel; lia|].
    cbn [String.length] in Hfuel. rewrite !length_append in Hfuel.
    cbn [star_loop].
    match goal with |- match ?m with _ => _ end = _ =>
      assert (E : m = Some x); [|rewrite E; reflexivity] end.
    unfold Plus. rewrite !rmatch_Cat, rmatch_Char_cons, Ascii.eqb_refl.
    cbn [rmatch].
    destruct (token_head tok Htok) as (c & s & Etok & Hc).
    destruct (token_first_facts c Hc) as (_ & Hc1 & _).
    apply (star_loop_greedy _ (fun a => Ascii.eqb a " "));
      [reflexivity | reflexivity | exact Hsp
      | rewrite Etok, append_cons; exact Hc1 |].
    apply rmatch_ADDRESS_token; [exact Htok | ..].
    + apply args_text_begins; [exact Hrest | exact Ht | reflexivity..].
    + intros s0 c0. destruct (_ <? _)%nat; [|reflexivity].
      rewrite star_argument_other by reflexivity. apply Hx.
    + cbn [String.length]. rewrite !length_append.
      destruct (Nat.ltb_spec (String.length rest + String.length tail)
                  (S (String.length sp + (String.length tok +
                     (String.length rest + String.length tail))))) as [_|H];
        [|lia].
      apply IH. rewrite length_append. lia.
Qed.

End ArgumentsPattern.

Section InstructionLines.

Context {M : Machine}.
Hypothesis Hnames : Forall (fun n => is_identifier n = true) Instructions.

Lemma re_match_value_line_None indent c s :
  all_chars is_spacer indent = true ->
  is_spacer c = false -> (is_sign c || is_digit c) = false ->
  re_match (Pattern CValueLine) (indent +:+ String c s) = None.
Proof.
  intros Hi Hsp Hc.
  destruct (re_match _ _) as [groups|] eqn:E; [exfalso|reflexivity].
  apply value_line_text in E as (indent' & l & tail' & E & Hi' & Hl & _).
  destruct (literal_text_head l Hl) as (c' & s' & El & Hc').
  rewrite El, append_cons in E.
  apply (f_equal skip_spacers) in E.
  rewrite !skip_spacers_append in E;
    [| exact Hi' | apply (sign_or_digit_cases is_spacer eq_refl c' Hc')
     | exact Hi | exact Hsp].
  injection E as -> _. congruence.
Qed.

Section OneInstruction.

Variables (indent name args tail : string).
Hypothesis Hi : all_chars is_spacer indent = true.
Hypothesis Hname : name ∈ Instructions.
Hypothesis Hargs : args_text args.
Hypothesis Ht : line_end tail.

Lemma name_identifier :
  exists c w, name = String c w /\ is_identifier_first c = true /\
    all_chars is_identifier_char w = true.
Proof.
  pose proof (proj1 (Forall_forall _ _) Hnames name Hname) as H.
  destruct name as [|c w]; [discriminate|]. cbn [is_identifier] in H.
  apply andb_prop in H as [H1 H2]. eauto.
Qed.

Lemma re_match_instruction_line :
  re_match (Pattern CInstructionLine) (indent +:+ name +:+ args +:+ tail) =
  Some [Some name; Some args].
Proof.
  destruct name_identifier as (c & w & En & Hc & Hw).
  destruct (identifier_first_facts c Hc) as (Hc1 & _).
  destruct (identifier_char_not_spacer c Hc1) as (Hc2 & _).
  assert (Hn : all_chars is_identifier_char name = true)
    by (rewrite En, all_chars_cons, Hc1, Hw; reflexivity).
  assert (Hne : name <> "") by (rewrite En; discriminate).
  rewrite re_match_instruction.
  apply rmatch_INDENTATION; [exact Hi | rewrite En, append_cons; exact Hc2 |].
  match goal with |- rmatch _ _ _ _ ?k = _ => set (K := k) end.
  assert (A1 : K (args +:+ tail) [None; None] = Some [Some name; Some args]).
  { unfold K. rewrite take_string_append.
    change (<[0%nat := Some name]> [None; None]) with [Some name; @None string].
    rewrite rmatch_Cat, rmatch_Group.
    change (rmatch ?s (Star ?r) ?t ?c0 ?k0)
      with (star_loop (rmatch s r) (String.length t) t c0 k0).
    apply star_arguments; [exact Hargs | exact Ht | | | apply Nat.le_refl].
    - intros s c0. apply rmatch_LINE_END_fails; try reflexivity.
      destruct s; reflexivity.
    - rewrite take_string_append.
      change (<[pred 2 := Some args]> [Some name; None])
        with [Some name; Some args].
      destruct Ht as (sp & comment & last & -> & Hsp & Hcm & Hlast).
      apply rmatch_LINE_END; auto. }
  assert (A2 : forall ch s caps, is_identifier_char ch = true ->
                 K (String ch s) caps = None).
  { intros ch s caps Hch. unfold K.
    destruct (identifier_char_facts ch Hch) as (_ & H1).
    destruct (identifier_char_not_spacer ch Hch) as (H2 & _ & H3 & H4).
    rewrite rmatch_Cat, rmatch_Group.
    change (rmatch ?s0 (Star ?r) ?t ?c0 ?k0)
      with (star_loop (rmatch s0 r) (String.length t) t c0 k0).
    rewrite star_argument_other by exact H1.
    apply rmatch_LINE_END_fails; [exact H2 | exact H3 |].
    destruct s; [exact H4 | reflexivity]. }
  apply (rmatch_names_Some _ _ _ _ _ name (args +:+ tail));
    [exact Hnames | exact Hname | apply drop_prefix_append | exact A1 |].
  intros p r' Hin.
  apply identifier_splits_run in Hin as [->|Hb];
    [left; reflexivity | | exact Hne | exact Hn
    | apply args_text_begins; [exact Hargs | exact Ht | reflexivity..]].
  right. destruct r' as [|ch s]; [discriminate|]. apply A2, Hb.
Qed.

Lemma re_match_instruction_line_empty :
  re_match (Pattern CEmptyLine) (indent +:+ name +:+ args +:+ tail) = None.
Proof.
  destruct name_identifier as (c & w & -> & Hc & Hw).
  destruct (identifier_first_facts c Hc) as (Hc1 & _).
  destruct (identifier_char_not_spacer c Hc1) as (H1 & _ & H2 & H3).
  rewrite append_cons. apply re_match_empty_line_None; assumption.
Qed.

Lemma re_match_instruction_line_value :
  re_match (Pattern CValueLine) (indent +:+ name +:+ args +:+ tail) = None.
Proof.
  destruct name_identifier as (c & w & -> & Hc & Hw).
  destruct (identifier_first_facts c Hc) as (Hc1 & Hc2 & Hc3).
  destruct (identifier_char_not_spacer c Hc1) as (H1 & _).
  rewrite append_cons. apply re_match_value_line_None; [exact Hi | exact H1 |].
  rewrite Hc2, Hc3. reflexivity.
Qed.

Lemma re_match_instruction_line_offset :
  name <> "Offset" ->
  re_match (Pattern COffsetLine) (indent +:+ name +:+ args +:+ tail) = None.
Proof.
  intros Hoffset.
  destruct name_identifier as (c & w & En & Hc & Hw).
  destruct (identifier_first_facts c Hc) as (Hc1 & _).
  destruct (identifier_char_not_spacer c Hc1) as (Hc2 & _).
  assert (Hn : all_chars is_identifier_char name = true)
    by (rewrite En, all_chars_cons, Hc1, Hw; reflexivity).
  assert (Hne : name <> "") by (rewrite En; discriminate).
  destruct (re_match _ _) as [groups|] eqn:E; [exfalso|reflexivity].
  apply offset_line_text in E
    as (indent' & sp & l & tail' & E & Hi' & Hsp0 & Hsp & _).
  apply (f_equal skip_spacers) in E.
  rewrite !skip_spacers_append in E;
    [| exact Hi' | reflexivity | exact Hi | rewrite En, append_cons; exact Hc2].
  assert (Hin : ("Offset", sp +:+ literal_text l +:+ tail')
                  ∈ identifier_splits (name +:+ args +:+ tail)).
  { apply drop_prefix_identifier_splits; [discriminate | reflexivity |].
    rewrite E. apply (drop_prefix_append "Offset"). }
  apply identifier_splits_run in Hin as [Hin|Hb];
    [congruence | | exact Hne | exact Hn
    | apply args_text_begins; [exact Hargs | exact Ht | reflexivity..]].
  destruct sp as [|s0 sp]; [congruence|].
  rewrite all_chars_cons in Hsp. apply andb_prop in Hsp as [Hs0 _].
  rewrite append_cons in Hb. cbn [begins_with] in Hb.
  apply is_spacer_facts in Hs0. unfold label_char in Hs0.
  apply orb_false_elim in Hs0 as [Hs0 _]. congruence.
Qed.

(** The line goes to the class of the instructions. *)
Lemma parse_line_instruction a :
  name <> "Offset" ->
  parse_line a (indent +:+ name +:+ args +:+ tail) =
  InstructionLine_init (Address_value a) name args.
Proof.
  intros Hoffset. unfold parse_line.
  rewrite (first_match_intro [CEmptyLine; COffsetLine; CValueLine]
             CInstructionLine [CLabelLine] _ [Some name; Some args]).
  - reflexivity.
  - apply re_match_instruction_line.
  - repeat constructor.
    + apply re_match_instruction_line_empty.
    + apply re_match_instruction_line_offset, Hoffset.
    + apply re_match_instruction_line_value.
Qed.

End OneInstruction.

End InstructionLines.

(** ** The classes and the lines they accept *)





Section Classes.

Context {M : Machine}.









End Classes.



(** ** The arguments as they are written *)

Section WrittenArguments.

Context {M : Machine}.

Lemma valid_argument_token x :
  valid_argument x = true -> is_token (argument_text x).
Proof.
  destruct x as [l|c w]; cbn [valid_argument argument_text]; intros H.
  - left. eauto.
  - apply andb_prop in H as [Hc Hw]. right. eauto.
Qed.

Lemma arguments_text_args xs :
  Forall (fun x => valid_argument x = true) xs -> args_text (arguments_text xs).
Proof.
  induction 1 as [|x xs Hx _ IH]; [constructor|]. cbn [arguments_text].
  apply (args_text_cons " " ""); [reflexivity | | exact IH].
  apply valid_argument_token, Hx.
Qed.

Lemma spaces_cons lead s :
  all_chars (fun x => Ascii.eqb x " ") lead = true ->
  lead +:+ String " " s = String " " (lead +:+ s).
Proof.
  induction lead as [|c lead IH]; [reflexivity|].
  rewrite all_chars_cons. intros H. apply andb_prop in H as [Hc Hl].
  apply Ascii.eqb_eq in Hc as ->. rewrite !append_cons, (IH Hl). reflexivity.
Qed.

Lemma args_text_prepend sp tok rest :
  all_chars (fun x => Ascii.eqb x " ") sp = true ->
  is_token tok -> args_text rest ->
  args_text (sp +:+ " " +:+ tok +:+ rest).
Proof.
  intros Hsp Htok Hrest. rewrite (append_cons " " ""), append_nil_l.
  rewrite (spaces_cons _ _ Hsp), <- append_cons.
  apply args_text_cons; [|assumption..].
  rewrite all_chars_cons, Hsp. reflexivity.
Qed.

Lemma lead_arguments_text_args lead xs :
  all_chars (fun x => Ascii.eqb x " ") lead = true ->
  (xs = [] -> lead = "") ->
  Forall (fun x => valid_argument x = true) xs ->
  args_text (lead +:+ arguments_text xs).
Proof.
  intros Hl Hnil Hxs. destruct Hxs as [|x xs Hx Hxs].
  - rewrite (Hnil eq_refl). constructor.
  - cbn [arguments_text]. apply args_text_prepend; [exact Hl | |].
    + apply valid_argument_token, Hx.
    + apply arguments_text_args, Hxs.
Qed.

Lemma split_on_arguments xs : forall t,
  all_chars (fun c => negb (is_py_space c)) t = true ->
  Forall (fun x => valid_argument x = true) xs ->
  split_on " " (t +:+ arguments_text xs) = t :: (argument_text <$> xs).
Proof.
  induction xs as [|x xs IH]; intros t Ht Hxs; rewrite (split_on_token _ _ Ht).
  - cbn [arguments_text split_on]. rewrite append_nil_r. reflexivity.
  - inversion Hxs as [|? ? Hx Hxs']; subst. cbn [arguments_text].
    rewrite (append_cons " " ""), append_nil_l. cbn [split_on].
    rewrite Ascii.eqb_refl, append_nil_r.
    rewrite IH; [reflexivity | | exact Hxs'].
    apply token_no_space, valid_argument_token, Hx.
Qed.

(** The tokens [InstructionLine] cuts: the texts of the arguments. *)
Lemma argument_tokens_arguments lead xs :
  all_chars (fun x => Ascii.eqb x " ") lead = true ->
  (xs = [] -> lead = "") ->
  Forall (fun x => valid_argument x = true) xs ->
  argument_tokens (lead +:+ arguments_text xs) = argument_text <$> xs.
Proof.
  intros Hl Hnil Hxs. destruct Hxs as [|x xs Hx Hxs].
  - rewrite (Hnil eq_refl). reflexivity.
  - cbn [arguments_text]. rewrite (append_cons " " ""), append_nil_l.
    rewrite (spaces_cons _ _ Hl). cbn [argument_tokens]. unfold strip.
    cbn [lstrip]. change (is_py_space " ") with true. cbv iota.
    rewrite (lstrip_spaces _ _ Hl). fold (strip (argument_text x +:+ arguments_text xs)).
    rewrite strip_token_start;
      [| apply valid_argument_token, Hx
       | apply args_text_rstrip, arguments_text_args, Hxs].
    apply split_on_arguments; [|exact Hxs].
    apply token_no_space, valid_argument_token, Hx.
Qed.

Lemma parse_address_argument x :
  valid_argument x = true -> argument_within_limits x = true ->
  parse_address (argument_text x) None = argument_word x.
Proof.
  destruct x as [l|c w];
    cbn [valid_argument argument_within_limits argument_text argument_word];
    intros H Hw.
  - apply parse_address_of_literal; assumption.
  - apply andb_prop in H as [Hc Hw'].
    apply (parse_address_of_label c w None Hc Hw').
Qed.

Lemma mapM_parse_address_arguments xs :
  Forall (fun x => valid_argument x = true) xs ->
  Forall (fun x => argument_within_limits x = true) xs ->
  mapM (fun a => parse_address a None) (argument_text <$> xs) =
  mapM argument_word xs.
Proof.
  induction 1 as [|x xs Hx _ IH]; intros Hw; [reflexivity|].
  inversion Hw as [|? ? Hwx Hws]; subst. rewrite fmap_cons.
  change (mapM ?f (?y :: ?ys)) with (z ← f y; k ← mapM f ys; Ok (z :: k)).
  cbv beta. rewrite (parse_address_argument x Hx Hwx), (IH Hws). reflexivity.
Qed.

End WrittenArguments.

(** X16.  Let the names of the catalog be identifiers.  A line made of an
    indentation, a name of the catalog other than [Offset], the arguments,
    one space before each and any number of spaces more before the first,
    and the end of a line is an instruction line.  Let the literals among
    the arguments be within the limit on the digits.  When the arguments are
    as many as the catalog says, each is read in turn: a literal gives the
    address of its value and is refused as an invalid address value when
    [Address] does not store it exactly, an identifier with its colon gives
    itself as a label.  When they are not as many, the line is refused with
    the two numbers in the message. *)
Theorem instruction_line_of_arguments (M : Machine) (a : Z)
    (indent name lead : string) (args : list Argument) (tail : string)
    (arg_num : nat) :
  Forall (fun n => is_identifier n = true) Instructions ->
  name ∈ Instructions -> name <> "Offset" ->
  instruction_methods name = Some arg_num ->
  all_chars is_spacer indent = true ->
  all_chars (fun x => Ascii.eqb x " ") lead = true ->
  (args = [] -> lead = "") ->
  Forall (fun x => valid_argument x = true) args ->
  Forall (fun x => argument_within_limits x = true) args ->
  line_end tail ->
  parse_line a (indent +:+ name +:+ (lead +:+ arguments_text args) +:+ tail) =
  if decide (arg_num = length args)
  then args' ← mapM argument_word args;
       Ok (InstructionLine (Address_value a) name args')
  else Raise (CompilationError
         ("Instruction " +:+ name +:+ " takes " +:+ str_of_nat arg_num
          +:+ " arguments, " +:+ str_of_nat (length args) +:+ " given")).
Proof.
  intros Hnames Hname Hoffset Hmeth Hi Hlead Hnil Hargs Hlim Ht.
  rewrite (parse_line_instruction Hnames); auto;
    [|apply lead_arguments_text_args; assumption].
  unfold InstructionLine_init.
  fold (argument_tokens (lead +:+ arguments_text args)).
  rewrite (argument_tokens_arguments lead args Hlead Hnil Hargs).
  rewrite bool_decide_eq_true_2 by exact Hname. cbn [negb].
  rewrite Hmeth, length_fmap.
  destruct (decide (arg_num = length args)) as [E|E].
  - rewrite (proj2 (Nat.eqb_eq _ _) E). cbn [negb].
    rewrite (mapM_parse_address_arguments args Hargs Hlim). reflexivity.
  - rewrite (proj2 (Nat.eqb_neq _ _) E). reflexivity.
Qed.

Lemma instruction_line_of_arguments_witness :
  parse_line (M := example_machine) 2
    ("  " +:+ "ADD" +:+ (" " +:+ " loop: 0x10") +:+ " # sum") =
  Ok (InstructionLine 2 "ADD" [WLabel "loop:"; WAddress 16]).
Proof.
  apply (instruction_line_of_arguments example_machine 2 "  " "ADD" " "
           [ArgLabel "l" "oop";
            ArgLiteral {| lit_sign := NoSign; lit_base := Hexadecimal;
                          lit_digits := [{| digit := 1; upper := false |};
                                         {| digit := 0; upper := false |}] |}]
           " # sum" 2).
  - repeat constructor.
  - repeat constructor.
  - discriminate.
  - reflexivity.
  - reflexivity.
  - reflexivity.
  - discriminate.
  - repeat constructor.
  - repeat constructor.
  - exists " ", "# sum", "".
    split; [reflexivity | split; [reflexivity | split; [|reflexivity]]].
    right. eexists. split; reflexivity.
Defined.

(** ** Two spaces between two arguments *)

Section TwoSpaces.

Context {M : Machine}.

Lemma args_text_app a b : args_text a -> args_text b -> args_text (a +:+ b).
Proof.
  intros Ha Hb. induction Ha as [|c sp tok rest Hsp Htok _ IH].
  - rewrite append_nil_l. exact Hb.
  - rewrite !append_assoc. apply args_text_cons; assumption.
Qed.

Lemma split_on_arguments_space xs : forall t rest,
  all_chars (fun c => negb (is_py_space c)) t = true ->
  Forall (fun x => valid_argument x = true) xs ->
  split_on " " (t +:+ arguments_text xs +:+ String " " rest) =
  t :: (argument_text <$> xs) ++ split_on " " rest.
Proof.
  induction xs as [|x xs IH]; intros t rest Ht Hxs;
    rewrite (split_on_token _ _ Ht).
  - cbn [arguments_text]. rewrite append_nil_l. cbn [split_on].
    rewrite Ascii.eqb_refl, append_nil_r. reflexivity.
  - inversion Hxs as [|? ? Hx Hxs']; subst. cbn [arguments_text].
    rewrite !append_assoc, (append_cons " " ""), append_nil_l. cbn [split_on].
    rewrite Ascii.eqb_refl, append_nil_r.
    rewrite IH; [reflexivity | | exact Hxs'].
    apply token_no_space, valid_argument_token, Hx.
Qed.

Lemma split_on_space_arguments ys :
  ys <> [] -> Forall (fun x => valid_argument x = true) ys ->
  split_on " " (arguments_text ys) = "" :: (argument_text <$> ys).
Proof.
  intros Hne Hys. destruct Hys as [|y ys Hy Hys]; [congruence|].
  cbn [arguments_text]. rewrite (append_cons " " ""), append_nil_l.
  cbn [split_on]. rewrite Ascii.eqb_refl.
  rewrite split_on_arguments; [reflexivity | | exact Hys].
  apply token_no_space, valid_argument_token, Hy.
Qed.

Section TwoLists.

Variables (lead : string) (xs ys : list Argument).
Hypothesis Hlead : all_chars (fun x => Ascii.eqb x " ") lead = true.
Hypothesis Hxne : xs <> [].
Hypothesis Hyne : ys <> [].
Hypothesis Hxs : Forall (fun x => valid_argument x = true) xs.
Hypothesis Hys : Forall (fun x => valid_argument x = true) ys.

Lemma two_spaces_args_text :
  args_text (lead +:+ arguments_text xs +:+ " " +:+ arguments_text ys).
Proof.
  destruct Hxs as [|x xs' Hx Hxs']; [congruence|].
  destruct Hys as [|y ys' Hy Hys']; [congruence|].
  cbn [arguments_text]. rewrite !append_assoc.
  apply args_text_prepend; [exact Hlead | apply valid_argument_token, Hx |].
  apply args_text_app; [apply arguments_text_args, Hxs'|].
  apply (args_text_prepend " ");
    [reflexivity | apply valid_argument_token, Hy
    | apply arguments_text_args, Hys'].
Qed.

(** The empty text between the two spaces is a token. *)
Lemma two_spaces_tokens :
  argument_tokens (lead +:+ arguments_text xs +:+ " " +:+ arguments_text ys) =
  (argument_text <$> xs) ++ "" :: (argument_text <$> ys).
Proof.
  pose proof (split_on_space_arguments ys Hyne Hys) as Htail.
  assert (Hrest : args_text (" " +:+ arguments_text ys)).
  { destruct Hys as [|y ys' Hy Hys']; [congruence|]. cbn [arguments_text].
    apply (args_text_prepend " ");
      [reflexivity | apply valid_argument_token, Hy
      | apply arguments_text_args, Hys']. }
  destruct Hxs as [|x xs' Hx Hxs']; [congruence|].
  cbn [arguments_text]. rewrite !append_assoc.
  rewrite (append_cons " " ""), append_nil_l.
  rewrite (spaces_cons _ _ Hlead). cbn [argument_tokens]. unfold strip.
  cbn [lstrip]. change (is_py_space " ") with true. cbv iota.
  rewrite (lstrip_spaces _ _ Hlead).
  match goal with |- context [rstrip (lstrip ?s)] => fold (strip s) end.
  rewrite strip_token_start; [| apply valid_argument_token, Hx |].
  - rewrite (append_cons " " ""), append_nil_l.
    rewrite split_on_arguments_space;
      [| apply token_no_space, valid_argument_token, Hx | exact Hxs'].
    rewrite Htail. reflexivity.
  - apply args_text_rstrip, args_text_app;
      [apply arguments_text_args, Hxs' | exact Hrest].
Qed.

End TwoLists.

Lemma mapM_app_Raise {A B} (f : A -> result B) xs y ys e :
  f y = Raise e ->
  mapM f (xs ++ y :: ys) = (_ ← mapM f xs; Raise e).
Proof.
  intros Hy. induction xs as [|x xs IH].
  - change (mapM f ([] ++ y :: ys)) with (z ← f y; k ← mapM f ys; Ok (z :: k)).
    rewrite Hy. reflexivity.
  - change (mapM f ((x :: xs) ++ y :: ys))
      with (z ← f x; k ← mapM f (xs ++ y :: ys); Ok (z :: k)).
    change (mapM f (x :: xs)) with (z ← f x; k ← mapM f xs; Ok (z :: k)).
    rewrite IH. destruct (f x) as [z|e0]; cbn [mbind result_bind]; [|reflexivity].
    destruct (mapM f xs); reflexivity.
Qed.

End TwoSpaces.

(** X17.  The pattern of an instruction line lets any number of spaces
    stand before an argument, but [split(' ')] makes an empty argument of
    the text between two of them.  So a line with two spaces between two of
    its arguments is refused: the empty argument is counted with the
    others, and when the count is what the catalog says, the arguments
    before it are read, and the empty one is then an invalid address
    value.  The literals read before it are taken within the limit on the
    digits. *)
Theorem two_spaces_between_arguments (M : Machine) (a : Z)
    (indent name lead : string) (xs ys : list Argument) (tail : string)
    (arg_num : nat) :
  Forall (fun n => is_identifier n = true) Instructions ->
  name ∈ Instructions -> name <> "Offset" ->
  instruction_methods name = Some arg_num ->
  all_chars is_spacer indent = true ->
  all_chars (fun x => Ascii.eqb x " ") lead = true ->
  xs <> [] -> ys <> [] ->
  Forall (fun x => valid_argument x = true) xs ->
  Forall (fun x => valid_argument x = true) ys ->
  Forall (fun x => argument_within_limits x = true) xs ->
  line_end tail ->
  parse_line a
    (indent +:+ name
     +:+ (lead +:+ arguments_text xs +:+ " " +:+ arguments_text ys) +:+ tail) =
  if decide (arg_num = S (length xs + length ys))
  then _ ← mapM argument_word xs;
       Raise (CompilationError "Invalid address value ")
  else Raise (CompilationError
         ("Instruction " +:+ name +:+ " takes " +:+ str_of_nat arg_num
          +:+ " arguments, " +:+ str_of_nat (S (length xs + length ys))
          +:+ " given")).
Proof.
  intros Hnames Hname Hoffset Hmeth Hi Hlead Hxne Hyne Hxs Hys Hlim Ht.
  rewrite (parse_line_instruction Hnames); auto;
    [|apply two_spaces_args_text; assumption].
  unfold InstructionLine_init.
  match goal with |- context [split_on " " (strip ?s)] =>
    fold (argument_tokens s) end.
  rewrite (two_spaces_tokens lead xs ys Hlead Hxne Hyne Hxs Hys).
  rewrite bool_decide_eq_true_2 by exact Hname. cbn [negb].
  rewrite Hmeth, length_app, length_fmap. cbn [length]. rewrite length_fmap.
  replace (length xs + S (length ys))%nat with (S (length xs + length ys)) by lia.
  destruct (decide (arg_num = S (length xs + length ys))) as [E|E].
  - rewrite (proj2 (Nat.eqb_eq _ _) E). cbn [negb].
    rewrite (mapM_app_Raise _ _ _ _ (CompilationError "Invalid address value "))
      by reflexivity.
    rewrite (mapM_parse_address_arguments xs Hxs Hlim).
    destruct (mapM argument_word xs); reflexivity.
  - rewrite (proj2 (Nat.eqb_neq _ _) E). reflexivity.
Qed.

Lemma two_spaces_between_arguments_witness :
  parse_line (M := example_machine) 0
    ("" +:+ "ADD" +:+ ("" +:+ " 1" +:+ " " +:+ " 2") +:+ "") =
  Raise (CompilationError "Instruction ADD takes 2 arguments, 3 given").
Proof.
  apply (two_spaces_between_arguments example_machine 0 "" "ADD" ""
           [ArgLiteral {| lit_sign := NoSign; lit_base := Decimal;
                          lit_digits := [{| digit := 1; upper := false |}] |}]
           [ArgLiteral {| lit_sign := NoSign; lit_base := Decimal;
                          lit_digits := [{| digit := 2; upper := false |}] |}]
           "" 2).
  - repeat constructor.
  - repeat constructor.
  - discriminate.
  - reflexivity.
  - reflexivity.
  - reflexivity.
  - discriminate.
  - discriminate.
  - repeat constructor.
  - repeat constructor.
  - repeat constructor.
  - exists "", "", "".
    split; [reflexivity | split; [reflexivity | split; [left|]; reflexivity]].
Defined.

(** ** Blank lines and comments among the lines *)

Section BlankLines.

Context {M : Machine}.

Lemma parse_loop_renumber lines : forall n n' a ls,
  parse_loop n a lines = (ls, None) -> parse_loop n' a lines = (ls, None).
Proof.
  induction lines as [|line lines IH]; intros n n' a ls H; [exact H|].
  cbn [parse_loop] in *. destruct (parse_line a line) as [l|e]; [|discriminate].
  destruct (parse_loop (S n) _ lines) as [ls' e'] eqn:E.
  injection H as <- ->. rewrite (IH _ (S n') _ _ E). reflexivity.
Qed.

Lemma parse_loop_app_error before : forall n a ls e rest,
  parse_loop n a before = (ls, Some e) ->
  parse_loop n a (before ++ rest) = (ls, Some e).
Proof.
  induction before as [|line before IH]; intros n a ls e rest H;
    [discriminate|].
  cbn [parse_loop app] in *. destruct (parse_line a line) as [l|e0]; [|exact H].
  destruct (parse_loop (S n) _ before) as [ls' e'] eqn:E.
  injection H as <- ->. rewrite (IH _ _ _ _ rest E). reflexivity.
Qed.

Lemma parse_loop_app_Ok before n a rest ls :
  parse_loop n a (before ++ rest) = (ls, None) ->
  exists ls1 ls2,
    ls = ls1 ++ ls2 /\ parse_loop n a before = (ls1, None) /\
    parse_loop (n + length before) (a + padded_sum ls1) rest = (ls2, None).
Proof.
  intros H. destruct (parse_loop n a before) as [ls1 [e|]] eqn:E.
  - rewrite (parse_loop_app_error _ _ _ _ _ rest E) in H. discriminate.
  - rewrite (parse_loop_app _ _ _ _ rest E) in H.
    destruct (parse_loop (n + length before) (a + padded_sum ls1) rest)
      as [ls2 e2] eqn:E2.
    cbn [fst snd] in H. injection H as <- ->. exists ls1, ls2. auto.
Qed.

Lemma parse_loop_app_intro before n a rest ls1 ls2 :
  parse_loop n a before = (ls1, None) ->
  parse_loop (n + length before) (a + padded_sum ls1) rest = (ls2, None) ->
  parse_loop n a (before ++ rest) = (ls1 ++ ls2, None).
Proof.
  intros H1 H2. rewrite (parse_loop_app _ _ _ _ rest H1), H2. reflexivity.
Qed.

Lemma label_table_blank ls1 x ls2 :
  label_table (ls1 ++ EmptyLine x :: ls2) = label_table (ls1 ++ ls2).
Proof. unfold label_table. rewrite !foldl_app. reflexivity. Qed.

Lemma second_pass_blank labels x ls2 : forall ls1,
  second_pass labels (ls1 ++ EmptyLine x :: ls2) = second_pass labels (ls1 ++ ls2).
Proof.
  induction ls1 as [|l ls1 IH]; cbn [app].
  - rewrite second_pass_cons.
    change (produce_bytes_padded (EmptyLine x)) with (Ok (@nil Word)).
    cbn [mbind result_bind mapM]. destruct (second_pass labels ls2); reflexivity.
  - rewrite !second_pass_cons, IH. reflexivity.
Qed.

Lemma compiled_blank ls1 x ls2 :
  second_pass (label_table (ls1 ++ EmptyLine x :: ls2))
    (ls1 ++ EmptyLine x :: ls2) =
  second_pass (label_table (ls1 ++ ls2)) (ls1 ++ ls2).
Proof. rewrite label_table_blank. apply second_pass_blank. Qed.

Section OneBlank.

Variable blank : string.
Hypothesis Hblank : line_end blank.

Lemma parse_loop_blank n a after ls :
  parse_loop n a (blank :: after) = (ls, None) <->
  exists ls2, ls = EmptyLine (Address_value a) :: ls2 /\
    parse_loop n a after = (ls2, None).
Proof.
  rewrite (parse_loop_Ok _ _ _ _ _ (parse_line_empty a blank Hblank)).
  cbn [produced_bytes_padded_num]. rewrite Z.add_0_r. split.
  - destruct (parse_loop (S n) a after) as [ls2 e] eqn:E. cbn [fst snd].
    intros [= <- ->]. exists ls2. split; [reflexivity|].
    apply (parse_loop_renumber _ _ _ _ _ E).
  - intros (ls2 & -> & H).
    rewrite (parse_loop_renumber _ _ (S n) _ _ H). reflexivity.
Qed.

Lemma compile_blank_inside before after words :
  compile (Lines (before ++ blank :: after)) = Ok words <->
  compile (Lines (before ++ after)) = Ok words.
Proof.
  unfold compile, parse. cbn [source_lines]. split; intros H.
  - destruct (parse_loop 1 0 (before ++ blank :: after)) as [ls [e|]] eqn:E;
      [discriminate|]. cbn [list_of mbind result_bind] in H.
    apply parse_loop_app_Ok in E as (ls1 & ls2' & -> & E1 & E2).
    apply parse_loop_blank in E2 as (ls2 & -> & E2).
    rewrite (parse_loop_app_intro _ _ _ _ _ _ E1 E2).
    cbn [list_of mbind result_bind]. rewrite <- H. symmetry. apply compiled_blank.
  - destruct (parse_loop 1 0 (before ++ after)) as [ls [e|]] eqn:E;
      [discriminate|]. cbn [list_of mbind result_bind] in H.
    apply parse_loop_app_Ok in E as (ls1 & ls2 & -> & E1 & E2).
    assert (E3 : parse_loop (1 + length before) (0 + padded_sum ls1)
                   (blank :: after) =
                 (EmptyLine (Address_value (0 + padded_sum ls1)) :: ls2, None))
      by (apply parse_loop_blank; eauto).
    rewrite (parse_loop_app_intro _ _ _ _ _ _ E1 E3).
    cbn [list_of mbind result_bind]. rewrite <- H. apply compiled_blank.
Qed.

Lemma compile_blank_last lines :
  compile (Lines (lines ++ [blank])) = compile (Lines lines).
Proof.
  unfold compile, parse. cbn [source_lines].
  destruct (parse_loop 1 0 lines) as [ls [e|]] eqn:E.
  - rewrite (parse_loop_app_error _ _ _ _ _ [blank] E). reflexivity.
  - assert (E2 : parse_loop (1 + length lines) (0 + padded_sum ls) [blank] =
                 ([EmptyLine (Address_value (0 + padded_sum ls))], None))
      by (apply parse_loop_blank; eauto).
    rewrite (parse_loop_app_intro _ _ _ _ _ _ E E2).
    cbn [list_of mbind result_bind]. rewrite compiled_blank, app_nil_r.
    reflexivity.
Qed.

End OneBlank.

Lemma split_on_final sep s :
  split_on sep (s +:+ String sep "") = split_on sep s ++ [""].
Proof.
  induction s as [|c s IH].
  - rewrite append_nil_l. cbn [split_on]. rewrite Ascii.eqb_refl. reflexivity.
  - rewrite append_cons. cbn [split_on]. rewrite IH.
    destruct (Ascii.eqb c sep); [reflexivity|].
    destruct (split_on sep s) as [|w ws] eqn:E; [|reflexivity].
    destruct (split_on_not_nil sep s E).
Qed.

End BlankLines.

(** X18.  Blank lines and comments do not count.  A line that is the end
    of a line, put anywhere among the lines, leaves the words [compile]
    returns as they are; put after the last line, it leaves also the
    exception as it is.  So does a newline at the end of a text. *)
Theorem blank_lines_do_not_count (M : Machine) :
  (forall blank before after words,
     line_end blank ->
     (compile (Lines (before ++ blank :: after)) = Ok words <->
      compile (Lines (before ++ after)) = Ok words)) /\
  (forall blank lines,
     line_end blank ->
     compile (Lines (lines ++ [blank])) = compile (Lines lines)) /\
  (forall s, compile (Text (s +:+ String newline "")) = compile (Text s)).
Proof.
  split; [|split].
  - intros blank before after words H. apply compile_blank_inside, H.
  - intros blank lines H. apply compile_blank_last, H.
  - intros s.
    assert (E : compile (Text (s +:+ String newline "")) =
                compile (Lines (split_on newline s ++ [""]))).
    { unfold compile, parse. cbn [source_lines].
      rewrite split_on_final. reflexivity. }
    rewrite E. apply (compile_blank_last "").
    exists "", "", "". auto.
Qed.

Lemma blank_lines_do_not_count_witness :
  compile (M := example_machine) (Lines (["5"] ++ " # five" :: ["7"])) =
    Ok [WNativeNumber 5; WNativeNumber 7] /\
  compile (M := example_machine) (Lines (["5"; "x"] ++ [String tab ""])) =
    compile (M := example_machine) (Lines ["5"; "x"]).
Proof.
  destruct (blank_lines_do_not_count example_machine) as (H1 & H2 & _).
  split.
  - apply (H1 " # five" ["5"] ["7"]); [|reflexivity].
    exists " ", "# five", "".
    split; [reflexivity | split; [reflexivity | split; [|reflexivity]]].
    right. eexists. split; reflexivity.
  - apply (H2 (String tab "") ["5"; "x"]).
    exists (String tab ""), "", "".
    split; [reflexivity | split; [reflexivity | split; [left|]; reflexivity]].
Defined.
(** ** The number parsers on a literal followed by other text *)

Section AfterLiteral.

Context {M : Machine}.







(** ** [int()] on a literal followed by other text *)
















End AfterLiteral.


